(** * Index algebra and hierarchy navigation of [idaes.core.util.dyn_utils]

    A shallow embedding of the utility functions for dynamic IDAES models
    ([src/idaes/core/util/dyn_utils.py]) together with the properties the
    specification states about them.

    Python objects are modelled as follows.
    - Index values are Python values ([pyval]): [None], numbers, strings and
      tuples.
    - A Pyomo set is a record carrying the identity of the object ([sid]),
      its [dimen] and its members; [is] on sets compares identities only.
    - A component is a record of its type, index set and data records; a
      model is the list of its components, each under a reference that
      tells where it stands in the hierarchy.
    - An exception is a value of [exn]; a function that may raise returns a
      [result].  An operation that changes a model is a function from the
      state before to the state after and the outcome ([M]); what it
      changed before raising stays changed.

    The definitions come first: the index algebra, the hierarchy, the
    operations, the notions the properties are stated with and example
    models.  The properties follow in the same order. *)

From Stdlib Require Import String ZArith Arith Bool Lia PeanoNat List.
From Stdlib Require DecimalString DecimalNat.
Import ListNotations.
Local Open Scope string_scope.
Local Open Scope nat_scope.
Local Open Scope list_scope.

(* ===================================================================== *)
(** ** Python values *)
(* ===================================================================== *)

#[warnings="-register-all"]
Inductive pyval : Type :=
| PNone
| PInt (z : Z)
| PStr (s : string)
| PTuple (items : list pyval).

(** Python's [==] on index values (structural, also on tuples). *)
Fixpoint pyval_eqb (a b : pyval) {struct a} : bool :=
  match a, b with
  | PNone, PNone => true
  | PInt x, PInt y => Z.eqb x y
  | PStr x, PStr y => String.eqb x y
  | PTuple xs, PTuple ys =>
      (fix items_eqb (l : list pyval) (r : list pyval) {struct l} : bool :=
         match l, r with
         | [], [] => true
         | x :: l', y :: r' => pyval_eqb x y && items_eqb l' r'
         | _, _ => false
         end) xs ys
  | _, _ => false
  end.

(** [type(v) is tuple] *)
Definition is_tuple (v : pyval) : bool :=
  match v with PTuple _ => true | _ => false end.

(** [v if type(v) is tuple else (v,)], as the list of the tuple's items. *)
Definition as_tuple (v : pyval) : list pyval :=
  match v with PTuple l => l | _ => [v] end.

(* ===================================================================== *)
(** ** Exceptions *)
(* ===================================================================== *)

Inductive exn : Type :=
| ValueError | KeyError | AttributeError | NameError | IndexError | TypeError.

Inductive result (A : Type) : Type :=
| Ok (a : A)
| Raise (e : exn).
Arguments Ok {A} a.
Arguments Raise {A} e.

Definition rbind {A B} (r : result A) (k : A -> result B) : result B :=
  match r with Ok a => k a | Raise e => Raise e end.

Declare Scope result_scope.
Delimit Scope result_scope with result.
Notation "'let?' x ':=' r 'in' k" := (rbind r (fun x => k))
  (at level 10, x pattern, r at level 100, k at level 200) : result_scope.
Local Open Scope result_scope.

(* ===================================================================== *)
(** ** Sets and index sets *)
(* ===================================================================== *)

(** A Pyomo [Set] object. [sid] is the identity of the object ([id(s)]);
    two sets with the same members and different [sid] are different sets. *)
Record PySet : Type := mkSet {
  sid : nat;
  dimen : nat;
  members : list pyval
}.

(** [a is b] on set objects. *)
Definition set_is (a b : PySet) : bool := Nat.eqb (sid a) (sid b).

(** What [comp.index_set()] returns: the set of an unindexed component, a
    single set, or a set product, which alone has a [set_tuple] (and
    [subsets()]) listing its factors. *)
Inductive IndexSet : Type :=
| UnindexedComponent_set
| SimpleSet (s : PySet)
| SetProduct (set_tuple : list PySet).

(** [hasattr(index_set, 'set_tuple')] *)
Definition has_set_tuple (i : IndexSet) : bool :=
  match i with SetProduct _ => true | _ => false end.

(** [index_set.dimen] *)
Definition index_set_dimen (i : IndexSet) : nat :=
  match i with
  | UnindexedComponent_set => 0
  | SimpleSet s => dimen s
  | SetProduct l => list_sum (map dimen l)
  end.

(** [index_set is s] for a set object [s]: a product is never the set [s]. *)
Definition index_set_is (i : IndexSet) (s : PySet) : bool :=
  match i with
  | SimpleSet s' => set_is s' s
  | _ => false
  end.

(** The flat tuples of a product of sets, first factor slowest. *)
Fixpoint cross_members (l : list PySet) : list (list pyval) :=
  match l with
  | [] => [nil]
  | s :: rest =>
      flat_map (fun a => map (fun t => as_tuple a ++ t) (cross_members rest))
               (members s)
  end.

(** Iterating an index set. *)
Definition index_set_members (i : IndexSet) : list pyval :=
  match i with
  | UnindexedComponent_set => [PNone]
  | SimpleSet s => members s
  | SetProduct l => map PTuple (cross_members l)
  end.

(* ===================================================================== *)
(** ** Components *)
(* ===================================================================== *)

Inductive Ctype : Type := Var | Block | Constraint.

Definition ctype_eqb (a b : Ctype) : bool :=
  match a, b with
  | Var, Var | Block, Block | Constraint, Constraint => true
  | _, _ => false
  end.

(** The data record of one index of a component: a variable's [value]
    ([None] when undefined) and [fixed] flag, a constraint's or block's
    [active] flag. *)
Record ComponentData : Type := mkData {
  value : option Z;
  fixed : bool;
  active : bool
}.

(** A component: its type, its index set, the [active] flag of the
    component object itself and its data records by index, in order. *)
Record Component : Type := mkComp {
  ctype : Ctype;
  index_set : IndexSet;
  comp_active : bool;
  data : list (pyval * ComponentData)
}.

(** [comp.is_indexed()] *)
Definition is_indexed (comp : Component) : bool :=
  match index_set comp with UnindexedComponent_set => false | _ => true end.

(** [comp.dim()] *)
Definition dim (comp : Component) : nat := index_set_dimen (index_set comp).

(* ===================================================================== *)
(** ** IndexAlgebra *)
(* ===================================================================== *)

(** [s in ComponentSet(set_tuple)]: membership by identity. *)
Definition in_component_set (s : PySet) (set_tuple : list PySet) : bool :=
  existsb (fun f => set_is f s) set_tuple.

(** [is_explicitly_indexed_by(comp, *sets)] *)
Definition is_explicitly_indexed_by (comp : Component) (sets : list PySet)
  : result bool :=
  if negb (is_indexed comp) then Ok false
  else
    let n_sets := length sets in
    if n_sets =? 0 then Raise ValueError
    else
      let s_dim := map dimen sets in
      let total_s_dim := list_sum s_dim in
      let c_dim := dim comp in
      if c_dim <? total_s_dim then Ok false
      else if (n_sets =? 1) && (nth 0 s_dim 0 =? c_dim) then
        match sets with
        | s0 :: _ => Ok (index_set_is (index_set comp) s0)
        | [] => Raise IndexError
        end
      else
        match index_set comp with
        | SetProduct set_tuple =>
            Ok (forallb (fun s => in_component_set s set_tuple) sets)
        | _ => Ok false
        end.

(** [Counter([id(_) for _ in set_tuple])[id(s)]] *)
Definition count_id (s : PySet) (set_tuple : list PySet) : nat :=
  length (filter (fun f => set_is f s) set_tuple).

(** The position in [sets] of the first set that [ind_set] is. *)
Fixpoint find_set_loc (ind_set : PySet) (sets : list PySet) (s_loc : nat)
  : option nat :=
  match sets with
  | [] => None
  | s_set :: rest =>
      if set_is ind_set s_set then Some s_loc
      else find_set_loc ind_set rest (S s_loc)
  end.

(** The loop of [get_index_set_except] over [enumerate(set_tuple)]: the
    dictionary [location] (position in the component's factors to position
    in [sets], in insertion order) and the list [other_ind_sets]. *)
Fixpoint locate_sets (set_tuple : list PySet) (sets : list PySet)
  (ind_loc : nat) : list (nat * nat) * list PySet :=
  match set_tuple with
  | [] => ([], [])
  | ind_set :: rest =>
      let '(location, other_ind_sets) := locate_sets rest sets (S ind_loc) in
      match find_set_loc ind_set sets 0 with
      | Some s_loc => ((ind_loc, s_loc) :: location, other_ind_sets)
      | None => (location, ind_set :: other_ind_sets)
      end
  end.

(** [loc[i]] on a dictionary kept as an association list. *)
Fixpoint dict_get (loc : list (nat * nat)) (i : nat) : result nat :=
  match loc with
  | [] => Raise KeyError
  | (k, v) :: rest => if k =? i then Ok v else dict_get rest i
  end.

(** [newvals[j]] *)
Definition list_get {A} (l : list A) (j : nat) : result A :=
  match nth_error l j with Some v => Ok v | None => Raise IndexError end.

(** [sorted(keys)] on natural numbers. *)
Fixpoint insert_sorted (k : nat) (l : list nat) : list nat :=
  match l with
  | [] => [k]
  | x :: rest => if k <=? x then k :: l else x :: insert_sorted k rest
  end.

Definition sorted (l : list nat) : list nat :=
  fold_right insert_sorted [] l.

(** The [for i in sorted(loc.keys())] loop of [_complete_index]; [index]
    is the tuple being completed. *)
Fixpoint complete_loop (loc : list (nat * nat)) (keys : list nat)
  (index : list pyval) (newvals : list pyval) : result (list pyval) :=
  match keys with
  | [] => Ok index
  | i :: rest =>
      let? j := dict_get loc i in
      let? newval := list_get newvals j in
      complete_loop loc rest
        (firstn i index ++ as_tuple newval ++ skipn i index) newvals
  end.

(** [_complete_index(loc, index, *newvals)] *)
Definition _complete_index (loc : list (nat * nat)) (index : pyval)
  (newvals : list pyval) : result pyval :=
  let index := as_tuple index in
  let keys := sorted (map fst loc) in
  if negb (length keys =? length newvals) then Raise ValueError
  else
    let? index := complete_loop loc keys index newvals in
    Ok (PTuple index).

(** What [info['set_except']] can be: the list [[None]], one of the
    component's sets, or the cross product of several of them. *)
Inductive SetExcept : Type :=
| NoneList
| OtherSet (s : PySet)
| CrossSet (first : PySet) (others : list PySet).

(** The dictionary [get_index_set_except] returns. *)
Record Info : Type := mkInfo {
  set_except : SetExcept;
  index_getter : pyval -> list pyval -> result pyval
}.

(** [for i in set_except] *)
Definition set_except_members (se : SetExcept) : list pyval :=
  match se with
  | NoneList => [PNone]
  | OtherSet s => members s
  | CrossSet s l => map PTuple (cross_members (s :: l))
  end.

(** The dimension of the projection; the one-element list [[None]] has
    no coordinates. *)
Definition set_except_dimen (se : SetExcept) : nat :=
  match se with
  | NoneList => 0
  | OtherSet s => dimen s
  | CrossSet s l => list_sum (map dimen (s :: l))
  end.

(** The [index_getter] of the trivial case:
    [newvals[0] if len(newvals) <= 1 else
     tuple([newvals[location[i]] for i in location])]. *)
Fixpoint reorder_newvals (location : list (nat * nat)) (newvals : list pyval)
  : result (list pyval) :=
  match location with
  | [] => Ok []
  | (_, j) :: rest =>
      let? v := list_get newvals j in
      let? vs := reorder_newvals rest newvals in
      Ok (v :: vs)
  end.

Definition trivial_index_getter (location : list (nat * nat))
  (incomplete_index : pyval) (newvals : list pyval) : result pyval :=
  if length newvals <=? 1 then list_get newvals 0
  else
    let? vs := reorder_newvals location newvals in
    Ok (PTuple vs).

(** [get_index_set_except(comp, *sets)] *)
Definition get_index_set_except (comp : Component) (sets : list PySet)
  : result Info :=
  let total_s_dim := list_sum (map dimen sets) in
  let? indexed := is_explicitly_indexed_by comp sets in
  if negb indexed then Raise ValueError
  else
    let? located :=
      match index_set comp with
      | SetProduct set_tuple =>
          if forallb (fun s => count_id s set_tuple =? 1) sets
          then Ok (locate_sets set_tuple sets 0)
          else Raise ValueError
      | _ => Ok ([(0, 0)], [])
      end in
    let '(location, other_ind_sets) := located in
    if dim comp =? total_s_dim then
      Ok (mkInfo NoneList (trivial_index_getter location))
    else
      match other_ind_sets with
      | [] => Raise ValueError
      | [s] => Ok (mkInfo (OtherSet s) (_complete_index location))
      | s :: rest => Ok (mkInfo (CrossSet s rest) (_complete_index location))
      end.

(** The loop of [get_location_of_coordinate_set] over the factors. *)
Fixpoint location_loop (subsets : list PySet) (subset : PySet)
  (loc : option nat) (i : nat) (found : bool) : result (option nat) :=
  match subsets with
  | [] => Ok loc
  | _set :: rest =>
      if set_is _set subset then
        if found then Raise ValueError
        else location_loop rest subset (Some i) (i + 1) true
      else location_loop rest subset loc (i + dimen _set) found
  end.

(** The factors the loop runs over: [subsets()] or [set_tuple] of a
    product, otherwise the set itself.  The set of an unindexed component
    is no [PySet] a caller can pass and has dimension 0: it never is
    [subset] and does not move the offset. *)
Definition subsets_of (setprod : IndexSet) : list PySet :=
  match setprod with
  | SetProduct l => l
  | SimpleSet s => [s]
  | UnindexedComponent_set => []
  end.

(** [get_location_of_coordinate_set(setprod, subset)]; [Ok None] is the
    [None] the function returns when the loop never finds [subset]. *)
Definition get_location_of_coordinate_set (setprod : IndexSet)
  (subset : PySet) : result (option nat) :=
  if negb (dimen subset =? 1) then Raise ValueError
  else location_loop (subsets_of setprod) subset None 0 false.

(* ===================================================================== *)
(** ** The component hierarchy *)
(* ===================================================================== *)

(** Python objects of a model are named by where they stand in it, so
    that [parent_block()] and [parent_component()] are read off the
    reference and walking up the tree is recursion on it.

    - A block data object ([_BlockData], also the model itself and a
      flowsheet) is the list of [(local_name, index)] steps that lead to
      it, innermost step first; [[]] is the top-level model.
    - A component object is its parent block and its local name.
    - A component data object is its parent component and its index; the
      data object of a scalar component is the one at index [None]. *)

Definition Step : Type := (string * pyval)%type.

Definition BlockRef : Type := list Step.

Record CompRef : Type := mkRef {
  parent_block : BlockRef;
  local_name : string
}.

Record DataRef : Type := mkDataRef {
  parent_component : CompRef;
  index : pyval
}.

Definition step_eqb (a b : Step) : bool :=
  String.eqb (fst a) (fst b) && pyval_eqb (snd a) (snd b).

Fixpoint blockref_eqb (a b : BlockRef) : bool :=
  match a, b with
  | [], [] => true
  | x :: a', y :: b' => step_eqb x y && blockref_eqb a' b'
  | _, _ => false
  end.

Definition compref_eqb (a b : CompRef) : bool :=
  blockref_eqb (parent_block a) (parent_block b)
  && String.eqb (local_name a) (local_name b).

Definition dataref_eqb (a b : DataRef) : bool :=
  compref_eqb (parent_component a) (parent_component b)
  && pyval_eqb (index a) (index b).

(** The block data object [comp[idx]] of a block component. *)
Definition block_data (c : CompRef) (idx : pyval) : BlockRef :=
  (local_name c, idx) :: parent_block c.

(** A model: its components with their data, in the order Pyomo's
    traversal ([component_objects]) visits them. *)
Definition Model : Type := list (CompRef * Component).

(** The component object behind a reference. *)
Fixpoint find_comp (m : Model) (c : CompRef) : option Component :=
  match m with
  | [] => None
  | (c', comp) :: rest =>
      if compref_eqb c' c then Some comp else find_comp rest c
  end.

(** The top-level model seen as a component: a scalar block. *)
Definition model_component : Component :=
  mkComp Block UnindexedComponent_set true [(PNone, mkData None false true)].

(** Name of the top-level model (Pyomo's default). *)
Definition model_name : string := "unknown".

(** The component of a reference taken from the model; a reference the
    model does not hold reads as a scalar block, which no reference
    obtained by traversing the model reaches. *)
Definition component_of (m : Model) (c : CompRef) : Component :=
  match find_comp m c with Some comp => comp | None => model_component end.

(** [blk.parent_component()] of a block data object; the model is its own
    parent component. *)
Definition block_component (m : Model) (blk : BlockRef) : Component :=
  match blk with
  | [] => model_component
  | (name, _) :: up => component_of m (mkRef up name)
  end.

(** [blk.index()] of a block data object. *)
Definition block_index (blk : BlockRef) : pyval :=
  match blk with
  | [] => PNone
  | (_, idx) :: _ => idx
  end.

(** The record of a data object. *)
Fixpoint find_key (l : list (pyval * ComponentData)) (idx : pyval)
  : option ComponentData :=
  match l with
  | [] => None
  | (k, d) :: rest => if pyval_eqb k idx then Some d else find_key rest idx
  end.

Definition find_data (m : Model) (d : DataRef) : option ComponentData :=
  match find_comp m (parent_component d) with
  | Some comp => find_key (data comp) (index d)
  | None => None
  end.

(** [getattr(blk, name)] *)
Definition getattr (m : Model) (blk : BlockRef) (name : string)
  : result CompRef :=
  match find_comp m (mkRef blk name) with
  | Some _ => Ok (mkRef blk name)
  | None => Raise AttributeError
  end.

(** [comp[idx]] *)
Definition getitem (m : Model) (c : CompRef) (idx : pyval) : result DataRef :=
  match find_data m (mkDataRef c idx) with
  | Some _ => Ok (mkDataRef c idx)
  | None => Raise KeyError
  end.

(** [for index in comp] *)
Definition keys_of (m : Model) (c : CompRef) : list pyval :=
  map fst (data (component_of m c)).

(** [pt in cset] *)
Definition set_contains (s : PySet) (v : pyval) : bool :=
  existsb (fun x => pyval_eqb x v) (members s).

(** *** Climbing the hierarchy *)

(** The [stop_at] argument of [is_implicitly_indexed_by]: nothing, a
    block data object, or an indexed block. *)
Inductive StopAt : Type :=
| StopNone
| StopBlockData (blk : BlockRef)
| StopIndexedBlock (c : CompRef).

Definition block_is_stop (blk : BlockRef) (stop_at : StopAt) : bool :=
  match stop_at with
  | StopBlockData b => blockref_eqb blk b
  | _ => false
  end.

Definition block_component_is_stop (blk : BlockRef) (stop_at : StopAt)
  : bool :=
  match stop_at, blk with
  | StopIndexedBlock c, (name, _) :: up => compref_eqb (mkRef up name) c
  | _, _ => false
  end.

(** The [while parent is not None] loop of [is_implicitly_indexed_by];
    [parent] is a block data object.  The loop ends after the model, whose
    [parent_block()] is [None]. *)
Fixpoint implicit_loop (m : Model) (parent : BlockRef) (s : PySet)
  (stop_at : StopAt) : result bool :=
  if block_is_stop parent stop_at then Ok false
  else if block_component_is_stop parent stop_at then Ok false
  else
    let? explicit :=
      is_explicitly_indexed_by (block_component m parent) [s] in
    if explicit then Ok true
    else
      match parent with
      | [] => Ok false
      | _ :: up => implicit_loop m up s stop_at
      end.

(** [is_implicitly_indexed_by(comp, s, stop_at)] for a component [comp]. *)
Definition is_implicitly_indexed_by (m : Model) (comp : CompRef) (s : PySet)
  (stop_at : StopAt) : result bool :=
  implicit_loop m (parent_block comp) s stop_at.

(** [index[loc]] where [loc] may be [None]. *)
Definition tuple_get (index : list pyval) (loc : option nat) : result pyval :=
  match loc with
  | None => Raise TypeError
  | Some n => list_get index n
  end.

(** [get_index_of_set(comp, wrt)] for a data object [comp], given by its
    parent component and its [index()]. *)
Definition get_index_of_set (parent : Component) (comp_index : pyval)
  (wrt : PySet) : result pyval :=
  let? explicit := is_explicitly_indexed_by parent [wrt] in
  if negb explicit then Raise ValueError
  else
    let index := as_tuple comp_index in
    let? loc := get_location_of_coordinate_set (index_set parent) wrt in
    tuple_get index loc.

(** The [while parent_block is not None] loop of
    [get_implicit_index_of_set]. *)
Fixpoint implicit_index_loop (m : Model) (parent_block : BlockRef)
  (wrt : PySet) (val : option pyval) (found : bool)
  : result (option pyval) :=
  let parent_component := block_component m parent_block in
  let? explicit := is_explicitly_indexed_by parent_component [wrt] in
  let? state :=
    if explicit then
      if found then Raise ValueError
      else
        let? v :=
          get_index_of_set parent_component (block_index parent_block) wrt in
        Ok (Some v, true)
    else Ok (val, found) in
  match parent_block with
  | [] => Ok (fst state)
  | _ :: up => implicit_index_loop m up wrt (fst state) (snd state)
  end.

(** [get_implicit_index_of_set(comp, wrt)] for a data object [comp];
    [Ok None] is the [None] returned when the set is found nowhere. *)
Definition get_implicit_index_of_set (m : Model) (comp : DataRef)
  (wrt : PySet) : result (option pyval) :=
  let parent := component_of m (parent_component comp) in
  let? explicit := is_explicitly_indexed_by parent [wrt] in
  let? state :=
    if explicit then
      let? v := get_index_of_set parent (index comp) wrt in
      Ok (Some v, true)
    else Ok (None, false) in
  implicit_index_loop m (parent_block (parent_component comp)) wrt
    (fst state) (snd state).

(** *** Paths *)

(** A component handed to a function: the component object of an indexed
    component, which has no [index] attribute, or a data object (a scalar
    component is its data object at [None]). *)
Inductive Entity : Type :=
| EComp (c : CompRef)
| EData (d : DataRef).

Definition entity_component (e : Entity) : CompRef :=
  match e with
  | EComp c => c
  | EData d => parent_component d
  end.

(** [hasattr(comp, 'index')] and [comp.index()] *)
Definition entity_index (e : Entity) : option pyval :=
  match e with
  | EComp _ => None
  | EData d => Some (index d)
  end.

(** The [while parent_data != blk] loop of [path_from_block]. *)
Fixpoint route_loop (parent_data blk : BlockRef) (route : list Step)
  : list Step :=
  if blockref_eqb parent_data blk then route
  else
    match parent_data with
    | [] => (model_name, PNone) :: route
    | (name, idx) :: up => route_loop up blk ((name, idx) :: route)
    end.

(** [path_from_block(comp, blk, include_comp)] *)
Definition path_from_block (comp : Entity) (blk : BlockRef)
  (include_comp : bool) : list Step :=
  let route := route_loop (parent_block (entity_component comp)) blk [] in
  if include_comp then
    match entity_index comp with
    | Some idx => route ++ [(local_name (entity_component comp), idx)]
    | None => route ++ [(local_name (entity_component comp), PNone)]
    end
  else route.

(** [try: ... except (exceptions): return None if allow_miss else raise] *)
Definition guarded {A} (allow_miss : bool) (handled : exn -> bool)
  (r : result A) (k : A -> result (option Entity)) : result (option Entity) :=
  match r with
  | Ok a => k a
  | Raise e =>
      if handled e then (if allow_miss then Ok None else Raise e)
      else Raise e
  end.

Definition is_AttributeError (e : exn) : bool :=
  match e with AttributeError => true | _ => false end.

Definition is_KeyError (e : exn) : bool :=
  match e with KeyError => true | _ => false end.

(** The [for r in path_from_block(...)] loop of [find_comp_in_block],
    followed by the rest of the function ([k]). *)
Fixpoint find_loop (tgt : Model) (local_parent : BlockRef)
  (route : list Step) (allow_miss : bool)
  (k : BlockRef -> result (option Entity)) : result (option Entity) :=
  match route with
  | [] => k local_parent
  | r :: rest =>
      guarded allow_miss (fun e => is_AttributeError e || is_KeyError e)
        (let? c := getattr tgt local_parent (fst r) in
         let? d := getitem tgt c (snd r) in
         Ok (block_data c (index d)))
        (fun local_parent' => find_loop tgt local_parent' rest allow_miss k)
  end.

(** [find_comp_in_block(tgt_block, src_block, src_comp, allow_miss)];
    [tgt] is the model [tgt_block] belongs to. *)
Definition find_comp_in_block (tgt : Model) (tgt_block src_block : BlockRef)
  (src_comp : Entity) (allow_miss : bool) : result (option Entity) :=
  find_loop tgt tgt_block (path_from_block src_comp src_block false)
    allow_miss
    (fun local_parent =>
       guarded allow_miss is_AttributeError
         (getattr tgt local_parent (local_name (entity_component src_comp)))
         (fun tgt_comp =>
            match entity_index src_comp with
            | Some index =>
                guarded allow_miss is_KeyError
                  (getitem tgt tgt_comp index)
                  (fun d => Ok (Some (EData d)))
            | None => Ok (Some (EComp tgt_comp))
            end)).

(* ===================================================================== *)
(** ** Operations that change a model *)
(* ===================================================================== *)

(** A warning sent to the logger: the parts its message is built from. *)
Inductive Diagnostic : Type :=
| NoIndexWarning (comp : CompRef) (idx : pyval)
    (* comp.name + ' has no index ' + str(index) *)
| MissingSourceWarning (route : list Step) (name : string)
    (source_name : string).
    (* 'Warning copying values: ' + name + ' does not exist in source
       block ' + fs_src.name *)

(** The state an operation works on: the model it changes and the
    warnings logged so far (oldest first). *)
Record State : Type := mkState {
  target : Model;
  log : list Diagnostic
}.

(** A computation that reads and changes the state and may raise; what it
    changed before raising stays changed. *)
Definition M (A : Type) : Type := State -> State * result A.

Definition ret {A} (a : A) : M A := fun st => (st, Ok a).

Definition bind {A B} (c : M A) (k : A -> M B) : M B :=
  fun st =>
    match c st with
    | (st', Ok a) => k a st'
    | (st', Raise e) => (st', Raise e)
    end.

Declare Scope monad_scope.
Delimit Scope monad_scope with monad.
Notation "x <- c ;; k" := (bind c (fun x => k))
  (at level 61, c at next level, right associativity) : monad_scope.
Notation "c ;; k" := (bind c (fun _ => k))
  (at level 61, right associativity) : monad_scope.
Local Open Scope monad_scope.

(** A computation that touches no state. *)
Definition lift {A} (r : result A) : M A := fun st => (st, r).

Definition raise {A} (e : exn) : M A := lift (Raise e).

(** Reading the model. *)
Definition read {A} (f : Model -> A) : M A :=
  fun st => (st, Ok (f (target st))).

Definition read_result {A} (f : Model -> result A) : M A :=
  fun st => (st, f (target st)).

(** Changing the model. *)
Definition modify (f : Model -> Model) : M unit :=
  fun st => (mkState (f (target st)) (log st), Ok tt).

(** [init_log.warning(msg)] *)
Definition warning (d : Diagnostic) : M unit :=
  fun st => (mkState (target st) (log st ++ [d]), Ok tt).

(** [for x in l: acc = body(x, acc)]; a raise ends the loop. *)
Fixpoint for_each {A B} (l : list A) (acc : B) (body : A -> B -> M B)
  : M B :=
  match l with
  | [] => ret acc
  | x :: rest => acc' <- body x acc ;; for_each rest acc' body
  end.

(** The same loop with the [visited] set of the source:
    [if id(x) in visited: continue; visited.add(id(x))]. *)
Fixpoint for_unvisited {A} (same : A -> A -> bool) (l : list A)
  (visited : list A) (body : A -> M unit) : M unit :=
  match l with
  | [] => ret tt
  | x :: rest =>
      if existsb (same x) visited then for_unvisited same rest visited body
      else body x ;; for_unvisited same rest (x :: visited) body
  end.

(** *** Record updates *)

(** Applying a change to every record of a model; the change is told
    which record it is applied to. *)
Definition map_component (g : DataRef -> ComponentData -> ComponentData)
  (c : CompRef) (comp : Component) : Component :=
  mkComp (ctype comp) (index_set comp) (comp_active comp)
    (map (fun item : pyval * ComponentData =>
            (fst item, g (mkDataRef c (fst item)) (snd item)))
         (data comp)).

Definition map_records (g : DataRef -> ComponentData -> ComponentData)
  (m : Model) : Model :=
  map (fun entry : CompRef * Component =>
         (fst entry, map_component g (fst entry) (snd entry)))
      m.

(** Changing the record of the data object [d]. *)
Definition update_data (f : ComponentData -> ComponentData) (d : DataRef)
  (m : Model) : Model :=
  map_records (fun d' r => if dataref_eqb d' d then f r else r) m.

(** [data.set_value(v)] *)
Definition set_value (d : DataRef) (v : option Z) : M unit :=
  modify (update_data (fun r => mkData v (fixed r) (active r)) d).

(** [data.deactivate()] *)
Definition deactivate (d : DataRef) : M unit :=
  modify (update_data (fun r => mkData (value r) (fixed r) false) d).

(** The record of a data object in hand; a data object the model does
    not hold reads as a blank record, which no data object obtained from
    the model is. *)
Definition record_of (m : Model) (d : DataRef) : ComponentData :=
  match find_data m d with
  | Some r => r
  | None => mkData None false true
  end.

(** [data.fixed] *)
Definition data_fixed (m : Model) (d : DataRef) : bool :=
  fixed (record_of m d).

(** [data.value] *)
Definition data_value (m : Model) (d : DataRef) : option Z :=
  value (record_of m d).

(** [comp.value] of a component object: only a scalar variable has it. *)
Definition component_value (m : Model) (c : CompRef)
  : result (option Z) :=
  match find_comp m c with
  | Some comp =>
      if is_indexed comp then Raise AttributeError
      else
        match ctype comp with
        | Var => Ok (data_value m (mkDataRef c PNone))
        | _ => Raise AttributeError
        end
  | None => Raise AttributeError
  end.

(** *** Traversal *)

(** [blk] is [root] or lies below it. *)
Fixpoint is_within (blk root : BlockRef) : bool :=
  blockref_eqb blk root
  || match blk with
     | [] => false
     | _ :: up => is_within up root
     end.

(** The [active] flag of a block data object; the model is active. *)
Definition block_active (m : Model) (blk : BlockRef) : bool :=
  match blk with
  | [] => true
  | (name, idx) :: up =>
      match find_data m (mkDataRef (mkRef up name) idx) with
      | Some r => active r
      | None => true
      end
  end.

(** Every block data object from [blk] up to [root] is active. *)
Fixpoint active_up_to (m : Model) (blk root : BlockRef) : bool :=
  block_active m blk
  && (blockref_eqb blk root
      || match blk with
         | [] => true
         | _ :: up => active_up_to m up root
         end).

(** Whether the traversal of [b] for the given component types yields
    a component: [active_only] stands for the [active=] argument (false
    for [None], which takes every component; true for [True], which takes
    the active components of active blocks), [descend_into] tells
    whether sub-blocks are searched. *)
Definition yields (m : Model) (b : BlockRef) (ctypes : list Ctype)
  (active_only : bool) (descend_into : bool)
  (entry : CompRef * Component) : bool :=
  let (c, comp) := entry in
  existsb (ctype_eqb (ctype comp)) ctypes
  && (if descend_into then is_within (parent_block c) b
      else blockref_eqb (parent_block c) b)
  && (if active_only
      then comp_active comp && active_up_to m (parent_block c) b
      else true).

(** [b.component_objects(ctypes, active=..., descend_into=...)] *)
Definition component_objects (m : Model) (b : BlockRef)
  (ctypes : list Ctype) (active_only descend_into : bool) : list CompRef :=
  map fst (filter (yields m b ctypes active_only descend_into) m).

(** [b.component_data_objects(Var)] *)
Definition component_data_objects (m : Model) (b : BlockRef)
  (ctypes : list Ctype) : list DataRef :=
  flat_map
    (fun entry : CompRef * Component =>
       map (fun item => mkDataRef (fst entry) (fst item))
           (data (snd entry)))
    (filter (yields m b ctypes false true) m).

(** Following [(name, index)] steps down from a block:
    [local_parent = getattr(local_parent, r[0])[r[1]]] for each step. *)
Fixpoint follow_route (m : Model) (local_parent : BlockRef)
  (route : list Step) : result BlockRef :=
  match route with
  | [] => Ok local_parent
  | r :: rest =>
      let? c := getattr m local_parent (fst r) in
      let? d := getitem m c (snd r) in
      follow_route m (block_data c (index d)) rest
  end.

(** [comp.getname(fully_qualified=True, relative_to=blk)]: the steps
    from [blk] to the component's block, and its local name. *)
Definition getname (comp : CompRef) (blk : BlockRef) : list Step * string :=
  (route_loop (parent_block comp) blk [], local_name comp).

(** [blk.find_component(name)]: [None] when the name does not resolve. *)
Definition find_component (m : Model) (blk : BlockRef)
  (name : list Step * string) : option CompRef :=
  match follow_route m blk (fst name) with
  | Ok local_parent =>
      match find_comp m (mkRef local_parent (snd name)) with
      | Some _ => Some (mkRef local_parent (snd name))
      | None => None
      end
  | Raise _ => None
  end.

(* ===================================================================== *)
(** ** ActivationEngine *)
(* ===================================================================== *)

(** The [pts] argument: a value or a list of values. *)
Inductive Points : Type :=
| OnePoint (pt : pyval)
| PointList (pts : list pyval).

(** [pts if type(pts) is list else [pts]] *)
Definition points_list (pts : Points) : list pyval :=
  match pts with
  | OnePoint pt => [pt]
  | PointList l => l
  end.

(** The validation loop: the first point outside [cset] raises. *)
Fixpoint check_points (cset : PySet) (pts : list pyval) : result unit :=
  match pts with
  | [] => Ok tt
  | pt :: rest =>
      if negb (set_contains cset pt) then Raise ValueError
      else check_points cset rest
  end.

(** A dictionary from points to lists of data objects. *)
Definition PointDict : Type := list (pyval * list DataRef).

(** [{pt: [] for pt in pts}] *)
Fixpoint dict_of_points (pts : list pyval) : PointDict :=
  match pts with
  | [] => []
  | pt :: rest =>
      let d := dict_of_points rest in
      (pt, []) :: filter (fun e => negb (pyval_eqb (fst e) pt)) d
  end.

(** [deactivated[pt].append(x)] *)
Fixpoint dict_append (d : PointDict) (pt : pyval) (x : DataRef)
  : result PointDict :=
  match d with
  | [] => Raise KeyError
  | (k, l) :: rest =>
      if pyval_eqb k pt then Ok ((k, l ++ [x]) :: rest)
      else
        let? rest' := dict_append rest pt x in
        Ok ((k, l) :: rest')
  end.

(** The body of the loops over [non_cset_set] and [pts] in
    [deactivate_model_at]: the [try] block and its [except KeyError]. *)
Definition deactivate_at_index (comp : CompRef) (info : Info)
  (non_cset_index pt : pyval) (deactivated : PointDict) : M PointDict :=
  idx <- lift (index_getter info non_cset_index [pt]) ;;
  found <- read (fun m => getitem m comp idx) ;;
  match found with
  | Ok d =>
      deactivate d ;;
      match dict_append deactivated pt d with
      | Raise KeyError =>
          warning (NoIndexWarning comp idx) ;;
          ret deactivated
      | r => lift r
      end
  | Raise KeyError =>
      warning (NoIndexWarning comp idx) ;;
      ret deactivated
  | Raise e => raise e
  end.

(** The body of the loop over the components, after the [visited]
    test. *)
Definition deactivate_component (cset : PySet) (pts : list pyval)
  (comp : CompRef) (deactivated : PointDict) : M PointDict :=
  explicit <- read_result (fun m =>
                is_explicitly_indexed_by (component_of m comp) [cset]) ;;
  implicit <-
    (if explicit
     then read_result (fun m =>
            is_implicitly_indexed_by m comp cset StopNone)
     else ret false) ;;
  if explicit && negb implicit then
    info <- read_result (fun m =>
              get_index_set_except (component_of m comp) [cset]) ;;
    for_each (set_except_members (set_except info)) deactivated
      (fun non_cset_index deactivated =>
         for_each pts deactivated
           (fun pt deactivated =>
              deactivate_at_index comp info non_cset_index pt deactivated))
  else ret deactivated.

(** The [for comp in b.component_objects([Block, Constraint],
    active=True)] loop over the components of the model in traversal
    order.  The traversal is a generator: whether a component is yielded
    is decided on the model as it is when the loop comes to it, so the
    contents of a block deactivated earlier in the loop are passed over. *)
Fixpoint deactivate_loop (b : BlockRef) (cset : PySet) (pts : list pyval)
  (comps : list CompRef) (visited : list CompRef)
  (deactivated : PointDict) : M PointDict :=
  match comps with
  | [] => ret deactivated
  | comp :: rest =>
      yielded <- read (fun m =>
                   yields m b [Block; Constraint] true true
                     (comp, component_of m comp)) ;;
      if negb yielded then
        deactivate_loop b cset pts rest visited deactivated
      else if existsb (compref_eqb comp) visited then
        deactivate_loop b cset pts rest visited deactivated
      else
        deactivated' <- deactivate_component cset pts comp deactivated ;;
        deactivate_loop b cset pts rest (comp :: visited) deactivated'
  end.

(** [deactivate_model_at(b, cset, pts)] *)
Definition deactivate_model_at (b : BlockRef) (cset : PySet) (pts : Points)
  : M PointDict :=
  let pts := points_list pts in
  lift (check_points cset pts) ;;
  let deactivated := dict_of_points pts in
  comps <- read (fun m => map fst m) ;;
  deactivate_loop b cset pts comps [] deactivated.

(* ===================================================================== *)
(** ** ValueProjector *)
(* ===================================================================== *)

(** A flowsheet: the block it is in its model, its [time] set and its
    name. *)
Record Flowsheet : Type := mkFlowsheet {
  fs_block : BlockRef;
  time : PySet;
  fs_name : string
}.

(** Where the source flowsheet lives: in a model of its own, or in the
    model that is being changed (the source "could be the target
    flowsheet"), in which case a lookup in the source sees what has been
    written so far. *)
Inductive Source : Type :=
| OtherModel (src : Model)
| SameModel.

(** The model of the source flowsheet, given the model being changed. *)
Definition source_model (src : Source) (m : Model) : Model :=
  match src with
  | OtherModel s => s
  | SameModel => m
  end.

(** Reading the source. *)
Definition read_source {A} (src : Source) (f : Model -> A) : M A :=
  read (fun m => f (source_model src m)).

Definition read_source_result {A} (src : Source) (f : Model -> result A)
  : M A :=
  read_result (fun m => f (source_model src m)).

(** [not copy_fixed and data.fixed], where [data] is [comp[idx]]: the
    right operand is evaluated only when [copy_fixed] is false. *)
Definition skip_fixed (copy_fixed : bool) (comp : CompRef) (idx : pyval)
  : M bool :=
  if negb copy_fixed then
    d <- read_result (fun m => getitem m comp idx) ;;
    read (fun m => data_fixed m d)
  else ret false.

(** The two statements every copy of a record consists of, for the
    record [comp[idx]]:
    [if not copy_fixed and comp[idx].fixed: continue]
    [comp[idx].set_value(source_value)];
    [source_value] evaluates the argument in the source model (to a
    value or to the exception of a lookup). *)
Definition copy_to_item (src : Source) (copy_fixed : bool) (comp : CompRef)
  (idx : pyval) (source_value : Model -> result (option Z)) : M unit :=
  skip <- skip_fixed copy_fixed comp idx ;;
  if skip then ret tt
  else
    d <- read_result (fun m => getitem m comp idx) ;;
    v <- read_source_result src source_value ;;
    set_value d v.

(** The same two statements for a data object in hand:
    [if not copy_fixed and var_target.fixed: continue]
    [var_target.set_value(source_value)]. *)
Definition copy_to_data (src : Source) (copy_fixed : bool)
  (var_target : DataRef) (source_value : Model -> result (option Z))
  : M unit :=
  skip <-
    (if negb copy_fixed
     then read (fun m => data_fixed m var_target)
     else ret false) ;;
  if skip then ret tt
  else
    v <- read_source_result src source_value ;;
    set_value var_target v.

(** [src_comp[src_idx].value] *)
Definition item_value (src_comp : CompRef) (src_idx : pyval) (m : Model)
  : result (option Z) :=
  let? s := getitem m src_comp src_idx in
  Ok (data_value m s).

(** [if not copy_fixed and tgt[tgt_idx].fixed: continue]
    [tgt[tgt_idx].set_value(src_comp[src_idx].value)] *)
Definition copy_item (src : Source) (copy_fixed : bool)
  (tgt_comp : CompRef) (tgt_idx : pyval)
  (src_comp : CompRef) (src_idx : pyval) : M unit :=
  copy_to_item src copy_fixed tgt_comp tgt_idx (item_value src_comp src_idx).

(** The first loop of [copy_non_time_indexed_values], over the variables
    of the flowsheet itself. *)
Definition copy_flowsheet_var (fs_tgt fs_src : Flowsheet) (src : Source)
  (copy_fixed : bool) (var_tgt : CompRef) : M unit :=
  explicit <- read_result (fun m =>
                is_explicitly_indexed_by (component_of m var_tgt)
                  [time fs_tgt]) ;;
  if explicit then ret tt
  else
    found <- read_source src (fun m =>
               find_component m (fs_block fs_src)
                 ([], local_name var_tgt)) ;;
    match found with
    | None =>
        (* the message is built from [varname], a name this function
           never binds *)
        raise NameError
    | Some var_src =>
        keys <- read (fun m => keys_of m var_tgt) ;;
        for_each keys tt
          (fun idx _ =>
             copy_to_item src copy_fixed var_tgt idx
               (fun m => component_value m var_src))
    end.

(** The [try] block of the second loop with its handlers: both build
    their message and then call the logger with [outlvl], which is no
    argument of this function. *)
Definition source_parent (fs_tgt fs_src : Flowsheet) (var_tgt : CompRef)
  (m : Model) : result BlockRef :=
  match follow_route m (fs_block fs_src)
          (path_from_block (EComp var_tgt) (fs_block fs_tgt) false) with
  | Ok local_parent => Ok local_parent
  | Raise AttributeError => Raise NameError
  | Raise KeyError => Raise NameError
  | Raise e => Raise e
  end.

(** The body of the loop over the variables of one block data object in
    [copy_non_time_indexed_values]. *)
Definition copy_block_var (fs_tgt fs_src : Flowsheet) (src : Source)
  (copy_fixed : bool) (var_tgt : CompRef) : M unit :=
  explicit <- read_result (fun m =>
                is_explicitly_indexed_by (component_of m var_tgt)
                  [time fs_tgt]) ;;
  if explicit then ret tt
  else
    local_parent <- read_source_result src
                      (source_parent fs_tgt fs_src var_tgt) ;;
    var_src <- read_source_result src (fun m =>
                 getattr m local_parent (local_name var_tgt)) ;;
    keys <- read (fun m => keys_of m var_tgt) ;;
    for_each keys tt
      (fun idx _ => copy_item src copy_fixed var_tgt idx var_src idx).

(** The second loop of [copy_non_time_indexed_values], over the blocks. *)
Definition copy_untimed_block (fs_tgt fs_src : Flowsheet) (src : Source)
  (copy_fixed : bool) (blk_tgt : CompRef) : M unit :=
  implicit <- read_result (fun m =>
                is_implicitly_indexed_by m blk_tgt (time fs_tgt) StopNone) ;;
  timed <-
    (if implicit then ret true
     else read_result (fun m =>
            is_explicitly_indexed_by (component_of m blk_tgt)
              [time fs_tgt])) ;;
  if timed then ret tt
  else
    keys <- read (fun m => keys_of m blk_tgt) ;;
    for_each keys tt
      (fun b_index _ =>
         b <- read_result (fun m => getitem m blk_tgt b_index) ;;
         vars <- read (fun m =>
                   component_objects m
                     (block_data (parent_component b) (index b))
                     [Var] false false) ;;
         for_unvisited compref_eqb vars []
           (copy_block_var fs_tgt fs_src src copy_fixed)).

(** [copy_non_time_indexed_values(fs_tgt, fs_src, copy_fixed)]; the state
    holds the model of [fs_tgt], [src] tells where [fs_src] lives. *)
Definition copy_non_time_indexed_values (fs_tgt fs_src : Flowsheet)
  (src : Source) (copy_fixed : bool) : M unit :=
  vars <- read (fun m =>
            component_objects m (fs_block fs_tgt) [Var] false false) ;;
  for_unvisited compref_eqb vars []
    (copy_flowsheet_var fs_tgt fs_src src copy_fixed) ;;
  blks <- read (fun m =>
            component_objects m (fs_block fs_tgt) [Block] false true) ;;
  for_unvisited compref_eqb blks []
    (copy_untimed_block fs_tgt fs_src src copy_fixed).

(** The first loop of [copy_values_at_time], over the variables. *)
Definition copy_var_at_time (fs_tgt fs_src : Flowsheet) (src : Source)
  (t_target t_source : pyval) (copy_fixed : bool) (var_target : CompRef)
  : M unit :=
  explicit <- read_result (fun m =>
                is_explicitly_indexed_by (component_of m var_target)
                  [time fs_tgt]) ;;
  if negb explicit then ret tt
  else
    n <- read (fun m =>
           index_set_dimen (index_set (component_of m var_target))) ;;
    let varname := getname var_target (fs_block fs_tgt) in
    found <- read_source src (fun m =>
               find_component m (fs_block fs_src) varname) ;;
    match found with
    | None =>
        warning (MissingSourceWarning (fst varname) (snd varname)
                   (fs_name fs_src))
    | Some var_source =>
        if n =? 1 then
          copy_item src copy_fixed var_target t_target var_source t_source
        else if 2 <=? n then
          index_info <- read_result (fun m =>
                          get_index_set_except (component_of m var_target)
                            [time fs_tgt]) ;;
          for_each (set_except_members (set_except index_info)) tt
            (fun non_time_index _ =>
               source_index <-
                 lift (index_getter index_info non_time_index [t_source]) ;;
               target_index <-
                 lift (index_getter index_info non_time_index [t_target]) ;;
               copy_item src copy_fixed var_target target_index
                 var_source source_index)
        else ret tt
    end.

(** The value the block loop of [copy_values_at_time] reads for the data
    object [var_target] of the target block:
    [local_parent = blk_source[source_index]], then
    [getattr(local_parent, r[0])[r[1]]] along the path of [var_target]
    from the target block, then the variable of the same name and index
    and its [value]. *)
Definition mirrored_value (blk_source : CompRef) (source_index : pyval)
  (target_block : BlockRef) (var_target : DataRef) (m : Model)
  : result (option Z) :=
  let? sb := getitem m blk_source source_index in
  let? local_parent :=
    follow_route m (block_data (parent_component sb) (index sb))
      (path_from_block (EData var_target) target_block false) in
  let? c :=
    getattr m local_parent (local_name (parent_component var_target)) in
  let? var_source := getitem m c (index var_target) in
  Ok (data_value m var_source).

(** The statements both branches ([n == 1] and [n >= 2]) of the block
    loop of [copy_values_at_time] run for one pair of indices: the loop
    over the variable data objects of [blk_target[target_index]]. *)
Definition copy_block_data (src : Source) (copy_fixed : bool)
  (blk_target blk_source : CompRef) (target_index source_index : pyval)
  : M unit :=
  b <- read_result (fun m => getitem m blk_target target_index) ;;
  let target_block := block_data (parent_component b) (index b) in
  datas <- read (fun m => component_data_objects m target_block [Var]) ;;
  for_unvisited dataref_eqb datas []
    (fun var_target =>
       copy_to_data src copy_fixed var_target
         (mirrored_value blk_source source_index target_block var_target)).

(** The second loop of [copy_values_at_time], over the blocks. *)
Definition copy_block_at_time (fs_tgt fs_src : Flowsheet) (src : Source)
  (t_target t_source : pyval) (copy_fixed : bool) (blk_target : CompRef)
  : M unit :=
  explicit <- read_result (fun m =>
                is_explicitly_indexed_by (component_of m blk_target)
                  [time fs_tgt]) ;;
  if negb explicit then ret tt
  else
    n <- read (fun m =>
           index_set_dimen (index_set (component_of m blk_target))) ;;
    let blkname := getname blk_target (fs_block fs_tgt) in
    found <- read_source src (fun m =>
               find_component m (fs_block fs_src) blkname) ;;
    match found with
    | None =>
        warning (MissingSourceWarning (fst blkname) (snd blkname)
                   (fs_name fs_src))
    | Some blk_source =>
        if n =? 1 then
          copy_block_data src copy_fixed blk_target blk_source
            t_target t_source
        else if 2 <=? n then
          index_info <- read_result (fun m =>
                          get_index_set_except (component_of m blk_target)
                            [time fs_tgt]) ;;
          for_each (set_except_members (set_except index_info)) tt
            (fun non_time_index _ =>
               source_index <-
                 lift (index_getter index_info non_time_index [t_source]) ;;
               target_index <-
                 lift (index_getter index_info non_time_index [t_target]) ;;
               copy_block_data src copy_fixed blk_target blk_source
                 target_index source_index)
        else ret tt
    end.

(** [copy_values_at_time(fs_tgt, fs_src, t_target, t_source, copy_fixed)];
    the state holds the model of [fs_tgt], [src] tells where [fs_src]
    lives. *)
Definition copy_values_at_time (fs_tgt fs_src : Flowsheet) (src : Source)
  (t_target t_source : pyval) (copy_fixed : bool) : M unit :=
  vars <- read (fun m =>
            component_objects m (fs_block fs_tgt) [Var] false true) ;;
  for_unvisited compref_eqb vars []
    (copy_var_at_time fs_tgt fs_src src t_target t_source copy_fixed) ;;
  blks <- read (fun m =>
            component_objects m (fs_block fs_tgt) [Block] false true) ;;
  for_unvisited compref_eqb blks []
    (copy_block_at_time fs_tgt fs_src src t_target t_source copy_fixed).

(** Running an operation on a model, with an empty log. *)
Definition run {A} (c : M A) (m : Model) : State * result A :=
  c (mkState m []).

Definition final_model {A} (c : M A) (m : Model) : Model :=
  target (fst (run c m)).

Definition outcome {A} (c : M A) (m : Model) : result A :=
  snd (run c m).

(* ===================================================================== *)
(** ** Finding a component at a point in time *)
(* ===================================================================== *)

(** [index = list(index); index[time_loc] = t0]: item assignment on a
    list raises [TypeError] when the position is [None] and [IndexError]
    when it is out of range. *)
Definition list_set (l : list pyval) (loc : option nat) (v : pyval)
  : result (list pyval) :=
  match loc with
  | None => Raise TypeError
  | Some n =>
      if n <? length l then Ok (firstn n l ++ v :: skipn (S n) l)
      else Raise IndexError
  end.

(** The statements [find_comp_in_block_at_time] runs before each of its
    index lookups ("can abstract the following into a function:
    replace_time_index"), for the component [comp] about to be indexed:
    [if is_explicitly_indexed_by(comp, time):]
    [    time_loc = get_location_of_coordinate_set(comp.index_set(), time)]
    [    index = tuple(index with index[time_loc] = t0)]. *)
Definition replace_time_index (comp : Component) (time : PySet)
  (t0 index : pyval) : result pyval :=
  let? explicit := is_explicitly_indexed_by comp [time] in
  if explicit then
    let? time_loc := get_location_of_coordinate_set (index_set comp) time in
    let? items := list_set (as_tuple index) time_loc t0 in
    Ok (PTuple items)
  else Ok index.

(** The flattened form of an index: nested tuples spliced into one. *)
Fixpoint flatten (v : pyval) : list pyval :=
  match v with
  | PTuple items => flat_map flatten items
  | _ => [v]
  end.

(** Pyomo's normal form of an index: flattened, and a tuple of one item
    turned into the item. *)
Definition normalize_index (v : pyval) : pyval :=
  match v with
  | PTuple _ =>
      match flatten v with
      | [x] => x
      | items => PTuple items
      end
  | _ => v
  end.

(** [comp[idx]] for an index the caller has built: Pyomo looks the index
    up as it is given and, when no record is held under it, in its normal
    form. *)
Definition getitem_normalized (m : Model) (c : CompRef) (idx : pyval)
  : result DataRef :=
  match getitem m c idx with
  | Ok d => Ok d
  | Raise _ => getitem m c (normalize_index idx)
  end.

(** The top-level models ([x.model()], by identity) the arguments of
    [find_comp_in_block_at_time] belong to. *)
Record Models : Type := mkModels {
  time_model : nat;
  tgt_block_model : nat;
  src_block_model : nat;
  src_comp_model : nat
}.

(** The [for r in path_from_block(...)] loop of
    [find_comp_in_block_at_time], followed by the rest of the function
    ([k]). *)
Fixpoint find_loop_at_time (tgt : Model) (local_parent : BlockRef)
  (route : list Step) (time : PySet) (t0 : pyval) (allow_miss : bool)
  (k : BlockRef -> result (option Entity)) : result (option Entity) :=
  match route with
  | [] => k local_parent
  | r :: rest =>
      guarded allow_miss is_AttributeError
        (getattr tgt local_parent (fst r))
        (fun comp =>
           let? idx :=
             replace_time_index (component_of tgt comp) time t0 (snd r) in
           guarded allow_miss is_KeyError
             (getitem_normalized tgt comp idx)
             (fun d =>
                find_loop_at_time tgt (block_data comp (index d)) rest
                  time t0 allow_miss k))
  end.

(** [find_comp_in_block_at_time(tgt_block, src_block, src_comp, time, t0,
    allow_miss)]; [tgt] is the model [tgt_block] belongs to. *)
Definition find_comp_in_block_at_time (tgt : Model) (models : Models)
  (tgt_block src_block : BlockRef) (src_comp : Entity) (time : PySet)
  (t0 : pyval) (allow_miss : bool) : result (option Entity) :=
  if negb (set_contains time t0) then Raise KeyError
  else if negb (time_model models =? tgt_block_model models)
  then Raise ValueError
  else if negb (src_block_model models =? src_comp_model models)
  then Raise ValueError
  else
    find_loop_at_time tgt tgt_block (path_from_block src_comp src_block false)
      time t0 allow_miss
      (fun local_parent =>
         guarded allow_miss is_AttributeError
           (getattr tgt local_parent (local_name (entity_component src_comp)))
           (fun tgt_comp =>
              match entity_index src_comp with
              | Some idx =>
                  let? idx :=
                    replace_time_index (component_of tgt tgt_comp) time t0
                      idx in
                  guarded allow_miss is_KeyError
                    (getitem_normalized tgt tgt_comp idx)
                    (fun d => Ok (Some (EData d)))
              | None => Ok (Some (EComp tgt_comp))
              end)).

(* ===================================================================== *)
(** ** Snapshots of the flags *)
(* ===================================================================== *)

(** A dictionary keyed by the identity of data objects. *)
Definition IdDict : Type := list (DataRef * bool).

(** [d[k] = v] *)
Fixpoint id_dict_set (d : IdDict) (k : DataRef) (v : bool) : IdDict :=
  match d with
  | [] => [(k, v)]
  | (k', v') :: rest =>
      if dataref_eqb k' k then (k', v) :: rest
      else (k', v') :: id_dict_set rest k v
  end.

(** [d.get(k)] *)
Fixpoint id_dict_get (d : IdDict) (k : DataRef) : option bool :=
  match d with
  | [] => None
  | (k', v) :: rest => if dataref_eqb k' k then Some v else id_dict_get rest k
  end.

(** [{id(x): flag(x) for x in objects}] *)
Definition id_dict_of (flag : DataRef -> bool) (objects : list DataRef)
  : IdDict :=
  fold_left (fun d x => id_dict_set d x (flag x)) objects [].

(** [get_activity_dict(b)] *)
Definition get_activity_dict (m : Model) (b : BlockRef) : IdDict :=
  id_dict_of (fun con => active (record_of m con))
    (component_data_objects m b [Constraint; Block]).

(** [get_fixed_dict(b)] *)
Definition get_fixed_dict (m : Model) (b : BlockRef) : IdDict :=
  id_dict_of (fun var => data_fixed m var)
    (component_data_objects m b [Var]).

(* ===================================================================== *)
(** ** Components not indexed by time *)
(* ===================================================================== *)

(** The loop [for comp in b.component_objects(ctypes, active=...)] with
    its [visited] set and the list the loop body appends to.  The
    traversal is a generator: whether a component is yielded is decided
    on the model as it is when the loop comes to it. *)
Fixpoint for_yielded {B} (b : BlockRef) (ctypes : list Ctype)
  (active_only : bool) (comps : list CompRef) (visited : list CompRef)
  (acc : B) (body : CompRef -> B -> M B) : M B :=
  match comps with
  | [] => ret acc
  | comp :: rest =>
      yielded <- read (fun m =>
                   yields m b ctypes active_only true
                     (comp, component_of m comp)) ;;
      if negb yielded then
        for_yielded b ctypes active_only rest visited acc body
      else if existsb (compref_eqb comp) visited then
        for_yielded b ctypes active_only rest visited acc body
      else
        acc' <- body comp acc ;;
        for_yielded b ctypes active_only rest (comp :: visited) acc' body
  end.

(** [not is_explicitly_indexed_by(comp, time) and
     not is_implicitly_indexed_by(comp, time)] *)
Definition unindexed_by (time : PySet) (comp : CompRef) : M bool :=
  explicit <- read_result (fun m =>
                is_explicitly_indexed_by (component_of m comp) [time]) ;;
  if negb explicit then
    implicit <- read_result (fun m =>
                  is_implicitly_indexed_by m comp time StopNone) ;;
    ret (negb implicit)
  else ret false.

(** The body of the loop [for index in comp] of
    [deactivate_constraints_unindexed_by]. *)
Definition deactivate_if_active (comp : CompRef) (index : pyval)
  (conlist : list DataRef) : M (list DataRef) :=
  compdata <- read_result (fun m => getitem m comp index) ;;
  is_active <- read (fun m => active (record_of m compdata)) ;;
  if is_active then
    deactivate compdata ;;
    ret (conlist ++ [compdata])
  else ret conlist.

(** The body of the loop over the constraints, after the [visited]
    test. *)
Definition deactivate_unindexed (time : PySet) (comp : CompRef)
  (conlist : list DataRef) : M (list DataRef) :=
  unindexed <- unindexed_by time comp ;;
  if unindexed then
    keys <- read (fun m => keys_of m comp) ;;
    for_each keys conlist
      (fun index conlist => deactivate_if_active comp index conlist)
  else ret conlist.

(** [deactivate_constraints_unindexed_by(b, time)] *)
Definition deactivate_constraints_unindexed_by (b : BlockRef) (time : PySet)
  : M (list DataRef) :=
  comps <- read (fun m => map fst m) ;;
  for_yielded b [Constraint] true comps [] [] (deactivate_unindexed time).

(** [vardata.fix()] *)
Definition fix_data (d : DataRef) : M unit :=
  modify (update_data (fun r => mkData (value r) true (active r)) d).

(** [v is not None] *)
Definition is_some {A} (v : option A) : bool :=
  match v with Some _ => true | None => false end.

(** The body of the loop [for index in var] of [fix_vars_unindexed_by]. *)
Definition fix_if_free (var : CompRef) (index : pyval)
  (varlist : list DataRef) : M (list DataRef) :=
  vardata <- read_result (fun m => getitem m var index) ;;
  free <- read (fun m =>
            negb (data_fixed m vardata) && is_some (data_value m vardata)) ;;
  if free then
    fix_data vardata ;;
    ret (varlist ++ [vardata])
  else ret varlist.

(** The body of the loop over the variables, after the [visited] test. *)
Definition fix_unindexed (time : PySet) (var : CompRef)
  (varlist : list DataRef) : M (list DataRef) :=
  unindexed <- unindexed_by time var ;;
  if unindexed then
    keys <- read (fun m => keys_of m var) ;;
    for_each keys varlist
      (fun index varlist => fix_if_free var index varlist)
  else ret varlist.

(** [fix_vars_unindexed_by(b, time)] *)
Definition fix_vars_unindexed_by (b : BlockRef) (time : PySet)
  : M (list DataRef) :=
  comps <- read (fun m => map fst m) ;;
  for_yielded b [Var] false comps [] [] (fix_unindexed time).

(* ===================================================================== *)
(** ** Derivatives at points in time *)
(* ===================================================================== *)

(** What Pyomo knows of a variable beyond its index set: whether it is a
    [DerivativeVar], and then its [get_continuousset_list()]. *)
Definition Derivatives : Type := CompRef -> option (list PySet).

(** [for x in l: acc = body(x, acc)] in a function that changes no
    model; a raise ends the loop. *)
Fixpoint for_each_result {A B} (l : list A) (acc : B)
  (body : A -> B -> result B) : result B :=
  match l with
  | [] => Ok acc
  | x :: rest =>
      let? acc' := body x acc in
      for_each_result rest acc' body
  end.

(** The body of the loops over [pts] and [non_time_set] in
    [get_derivatives_at]:
    [index = index_getter(non_time_index, pt)]
    [dvdict[pt].append(var[index])]. *)
Definition derivative_at (m : Model) (var : CompRef) (info : Info)
  (pt non_time_index : pyval) (dvdict : PointDict) : result PointDict :=
  let? idx := index_getter info non_time_index [pt] in
  let? d := getitem m var idx in
  dict_append dvdict pt d.

(** The loop of [get_derivatives_at] over the variables. *)
Fixpoint derivatives_loop (m : Model) (derivative_of : Derivatives)
  (time : PySet) (pts : list pyval) (vars : list CompRef)
  (visited : list CompRef) (dvdict : PointDict) : result PointDict :=
  match vars with
  | [] => Ok dvdict
  | var :: rest =>
      if existsb (compref_eqb var) visited then
        derivatives_loop m derivative_of time pts rest visited dvdict
      else
        match derivative_of var with
        | None =>
            derivatives_loop m derivative_of time pts rest (var :: visited)
              dvdict
        | Some continuousset_list =>
            if negb (in_component_set time continuousset_list) then
              derivatives_loop m derivative_of time pts rest
                (var :: visited) dvdict
            else
              let? info := get_index_set_except (component_of m var) [time] in
              let? dvdict' :=
                for_each_result pts dvdict
                  (fun pt dvdict =>
                     for_each_result (set_except_members (set_except info))
                       dvdict
                       (fun non_time_index dvdict =>
                          derivative_at m var info pt non_time_index
                            dvdict)) in
              derivatives_loop m derivative_of time pts rest
                (var :: visited) dvdict'
        end
  end.

(** [get_derivatives_at(b, time, pts)] *)
Definition get_derivatives_at (m : Model) (derivative_of : Derivatives)
  (b : BlockRef) (time : PySet) (pts : Points) : result PointDict :=
  let pts := points_list pts in
  derivatives_loop m derivative_of time pts
    (component_objects m b [Var] false true) [] (dict_of_points pts).

(* ===================================================================== *)
(** ** The inlets of a mixer ([idaes.models.mixer]) *)
(* ===================================================================== *)

(** The exception [MixerBlockData.create_inlet_list] raises. *)
Inductive MixerError : Type := ConfigurationError.

(** The two configuration arguments [create_inlet_list] reads; [None]
    stands for an argument that was not provided. *)
Record MixerConfig : Type := mkMixerConfig {
  inlet_list : option (list string);
  num_inlets : option Z
}.

(** [str(n)] for a number that is not negative. *)
Definition str (n : nat) : string :=
  DecimalString.NilEmpty.string_of_uint (Nat.to_uint n).

(** [['inlet_' + str(n) for n in range(1, num_inlets + 1)]] *)
Definition inlet_names (num_inlets : Z) : list string :=
  map (fun n => String.append "inlet_" (str n)) (seq 1 (Z.to_nat num_inlets)).

(** [create_inlet_list(self)]: the configuration as the method leaves it
    (the default number of inlets is written into it) and the list of
    names, or the exception. *)
Definition create_inlet_list (config : MixerConfig)
  : MixerConfig * (MixerError + list string) :=
  match inlet_list config, num_inlets config with
  | Some l, Some n =>
      if negb (Z.of_nat (length l) =? n)%Z
      then (config, inl ConfigurationError)
      else (config, inr l)
  | Some l, None => (config, inr l)
  | None, Some n => (config, inr (inlet_names n))
  | None, None =>
      (mkMixerConfig None (Some 2%Z), inr (inlet_names 2))
  end.

(* ===================================================================== *)
(** ** Notions of the specification *)
(* ===================================================================== *)

(** The factors of an entity's index product; an entity indexed by one
    set or by none has no product. *)
Definition product_factors (comp : Component) : list PySet :=
  match index_set comp with
  | SetProduct set_tuple => set_tuple
  | _ => []
  end.

(** The factors that stand before the first occurrence of [subset]. *)
Fixpoint factors_before (subset : PySet) (factors : list PySet)
  : list PySet :=
  match factors with
  | [] => []
  | f :: rest =>
      if set_is f subset then [] else f :: factors_before subset rest
  end.

(** The sum of the dimensions of all factors preceding [subset]. *)
Definition offset_of (subset : PySet) (factors : list PySet) : nat :=
  list_sum (map dimen (factors_before subset factors)).

(** The sum of the dimensions of the requested sets. *)
Definition total_dimen (sets : list PySet) : nat := list_sum (map dimen sets).

(** The projection built from the factors that remain. *)
Definition projection_of (others : list PySet) : SetExcept :=
  match others with
  | [] => NoneList
  | [s] => OtherSet s
  | s :: rest => CrossSet s rest
  end.

(** A tuple with the item [v] put in at offset [k], the items from [k]
    on moved one place up. *)
Definition put_in (k : nat) (v : pyval) (t : list pyval) : list pyval :=
  firstn k t ++ v :: skipn k t.

(** The set [s] with its members cut down to the value [v]. *)
Definition held_at (s : PySet) (v : pyval) : PySet :=
  mkSet (sid s) (dimen s) [v].

(** The members of a 1-dimensional set are no tuples. *)
Definition scalar_members (s : PySet) : Prop :=
  Forall (fun a => is_tuple a = false) (members s).

(** A set product as Pyomo builds it: at least two factors, each with
    its coordinates. *)
Definition proper_product (i : IndexSet) : Prop :=
  match i with
  | SetProduct set_tuple =>
      2 <= length set_tuple /\ Forall (fun f => 1 <= dimen f) set_tuple
  | _ => True
  end.

(** An entity that carries the set [wrt]: it is explicitly indexed by
    it. *)
Definition explicitly_indexed (comp : Component) (wrt : PySet) : bool :=
  match is_explicitly_indexed_by comp [wrt] with
  | Ok b => b
  | Raise _ => false
  end.

(** The ancestors of a block data object with their indices, nearest
    first, the block itself included and the model last. *)
Fixpoint block_chain (m : Model) (blk : BlockRef)
  : list (Component * pyval) :=
  (block_component m blk, block_index blk)
  :: match blk with
     | [] => []
     | _ :: up => block_chain m up
     end.

(** A data record's hierarchy: its owning entity, then its ancestors. *)
Definition hierarchy (m : Model) (d : DataRef) : list (Component * pyval) :=
  (component_of m (parent_component d), index d)
  :: block_chain m (parent_block (parent_component d)).

(** Replaying path steps against a target root: each step is a name
    lookup, then an index application; a missing name or a missing index
    gives no result. *)
Fixpoint replay (tgt : Model) (root : BlockRef) (path : list Step)
  : option BlockRef :=
  match path with
  | [] => Some root
  | (name, idx) :: rest =>
      match find_comp tgt (mkRef root name) with
      | None => None
      | Some comp =>
          match find_key (data comp) idx with
          | None => None
          | Some _ => replay tgt ((name, idx) :: root) rest
          end
      end
  end.

(** Resolving an entity, given by the path to its block, its name and
    its index if it has one, against a target root. *)
Definition resolve (tgt : Model) (root : BlockRef) (path : list Step)
  (name : string) (idx : option pyval) : option Entity :=
  match replay tgt root path with
  | None => None
  | Some blk =>
      match find_comp tgt (mkRef blk name), idx with
      | None, _ => None
      | Some _, None => Some (EComp (mkRef blk name))
      | Some comp, Some i =>
          match find_key (data comp) i with
          | None => None
          | Some _ => Some (EData (mkDataRef (mkRef blk name) i))
          end
      end
  end.

(** The exceptions of a failed resolution: a missing name raises
    [AttributeError], a missing index [KeyError]. *)
Definition StructuralMismatch (e : exn) : Prop :=
  e = AttributeError \/ e = KeyError.

(** One object has one dimension: a factor that is [s] has the [dimen]
    of [s]. *)
Definition same_object_same_dimen (s : PySet) (factors : list PySet)
  : Prop :=
  Forall (fun f => set_is f s = true -> dimen f = dimen s) factors.

(* ===================================================================== *)
(** ** Relating two runs of an operation *)
(* ===================================================================== *)

(** The model with every record unfixed. *)
Definition unfix_all (m : Model) : Model :=
  map_records (fun _ r => mkData (value r) false (active r)) m.

(** The model with the values of a plan [p] written over its records:
    [p d] is the value planned for the record [d], if any. *)
Definition overlay (p : DataRef -> option (option Z)) (m : Model) : Model :=
  map_records
    (fun d r =>
       match p d with
       | Some v => mkData v (fixed r) (active r)
       | None => r
       end)
    m.

(** The model with its values forgotten: its structure and flags. *)
Definition erase_values (m : Model) : Model :=
  map_records (fun _ r => mkData None (fixed r) (active r)) m.

(** The fixed records of [tgt] are in [m] as they are in [tgt]. *)
Definition keeps_fixed_records (tgt m : Model) : Prop :=
  forall d r, find_data tgt d = Some r -> fixed r = true ->
    find_data m d = Some r.

(** Two computations run in step on related models: they end on related
    models with the same outcome. *)
Definition sim (R : Model -> Model -> Prop) {A} (c1 c2 : M A) : Prop :=
  forall s1 s2, R (target s1) (target s2) ->
    R (target (fst (c1 s1))) (target (fst (c2 s2)))
    /\ snd (c1 s1) = snd (c2 s2).

(** A reading of the model that looks at its structure only, not at its
    records. *)
Definition structural {A} (f : Model -> A) : Prop :=
  forall g m, f (map_records g m) = f m.

(** [R] relates models of one structure. *)
Definition relates_structure (R : Model -> Model -> Prop) : Prop :=
  forall A (f : Model -> A), structural f ->
    forall m1 m2, R m1 m2 -> f m1 = f m2.

(** A reading of the model that looks at its structure and at the
    values of its records, not at their flags. *)
Definition reads_values {A} (f : Model -> A) : Prop :=
  forall g m, (forall d r, value (g d r) = value r) ->
    f (map_records g m) = f m.

(** What is read in the source is the same on both sides: always when
    the source is a model of its own; when it is the model being
    changed, [R] must relate models with the same values. *)
Definition relates_source (R : Model -> Model -> Prop) (src : Source)
  : Prop :=
  match src with
  | OtherModel _ => True
  | SameModel =>
      forall A (f : Model -> A), reads_values f ->
        forall m1 m2, R m1 m2 -> f m1 = f m2
  end.

(** Under [R] a record is held on both sides or on neither, and the test
    [not copy_fixed and data.fixed] comes out the same, the first run
    with [cf1] and the second with [cf2]. *)
Definition same_gate (R : Model -> Model -> Prop) (cf1 cf2 : bool) : Prop :=
  forall m1 m2 d, R m1 m2 ->
    (find_data m1 d = None <-> find_data m2 d = None)
    /\ negb cf1 && data_fixed m1 d = negb cf2 && data_fixed m2 d.

(** [R] stays true when both sides write the same value to a record
    the gate lets through. *)
Definition write_through (R : Model -> Model -> Prop) (cf1 : bool) : Prop :=
  forall m1 m2 d v, R m1 m2 ->
    negb cf1 && data_fixed m1 d = false ->
    R (update_data (fun r => mkData v (fixed r) (active r)) d m1)
      (update_data (fun r => mkData v (fixed r) (active r)) d m2).

(** Both models are the models [t1] and [t2] with one plan of values
    written over them. *)
Definition same_plan (t1 t2 m1 m2 : Model) : Prop :=
  exists p, m1 = overlay p t1 /\ m2 = overlay p t2.

(** The second model is the first with every record unfixed. *)
Definition unfixed_of (m1 m2 : Model) : Prop := m2 = unfix_all m1.

(** One model, in which the fixed records of [tgt] are as in [tgt]. *)
Definition kept (tgt m1 m2 : Model) : Prop :=
  m1 = m2 /\ keeps_fixed_records tgt m1.

(* ===================================================================== *)
(** ** Example sets, components and models *)
(* ===================================================================== *)

Module Examples.

(** A two-dimensional set of (name, stage) pairs and the time set. *)
Definition stages : PySet :=
  mkSet 1 2 [PTuple [PStr "a"; PInt 1]; PTuple [PStr "b"; PInt 2]].

Definition time_set : PySet := mkSet 2 1 [PInt 0; PInt 1].

(** A one-dimensional set of locations. *)
Definition locations : PySet := mkSet 3 1 [PStr "A"; PStr "B"].

(** A set that is no factor of the components below. *)
Definition other_set : PySet := mkSet 4 1 [PInt 7].

Definition record (v : Z) : ComponentData := mkData (Some v) false true.

(** A variable indexed by [stages * time_set]. *)
Definition staged_var : Component :=
  mkComp Var (SetProduct [stages; time_set]) true
    [(PTuple [PStr "a"; PInt 1; PInt 0], record 10);
     (PTuple [PStr "a"; PInt 1; PInt 1], record 11);
     (PTuple [PStr "b"; PInt 2; PInt 0], record 20);
     (PTuple [PStr "b"; PInt 2; PInt 1], record 21)].

(** A variable indexed by [locations * time_set]. *)
Definition located_var : Component :=
  mkComp Var (SetProduct [locations; time_set]) true
    [(PTuple [PStr "A"; PInt 0], record 1);
     (PTuple [PStr "A"; PInt 1], record 2);
     (PTuple [PStr "B"; PInt 0], record 3);
     (PTuple [PStr "B"; PInt 1], record 4)].

Definition block_record : ComponentData := mkData None false true.

(** A model with a block [unit] indexed by time that holds a variable [x]
    indexed by time and a constraint [c] indexed by time. *)
Definition nested_model : Model :=
  [ (mkRef [] "unit",
     mkComp Block (SimpleSet time_set) true
       [(PInt 0, block_record); (PInt 1, block_record)]);
    (mkRef [("unit", PInt 0)] "x",
     mkComp Var (SimpleSet time_set) true
       [(PInt 0, record 5); (PInt 1, record 6)]);
    (mkRef [("unit", PInt 0)] "c",
     mkComp Constraint (SimpleSet time_set) true
       [(PInt 0, block_record); (PInt 1, block_record)]);
    (mkRef [("unit", PInt 1)] "x",
     mkComp Var (SimpleSet time_set) true
       [(PInt 0, record 7); (PInt 1, record 8)]) ].

(** The record [unit[0].x[1]]. *)
Definition nested_record : DataRef :=
  mkDataRef (mkRef [("unit", PInt 0)] "x") (PInt 1).

(** A flowsheet [fs] of a model, with scalar variables [x] and [y]. *)
Definition fs_ref : BlockRef := [("fs", PNone)].

Definition flowsheet : Flowsheet := mkFlowsheet fs_ref time_set "fs".

Definition scalar (t : Ctype) (r : ComponentData) : Component :=
  mkComp t UnindexedComponent_set true [(PNone, r)].

Definition target_xy : Model :=
  [ (mkRef [] "fs", scalar Block block_record);
    (mkRef fs_ref "x", scalar Var (record 1));
    (mkRef fs_ref "y", scalar Var (record 2)) ].

(** A source flowsheet that has [y] and lacks [x]. *)
Definition source_y : Model :=
  [ (mkRef [] "fs", scalar Block block_record);
    (mkRef fs_ref "y", scalar Var (record 20)) ].

(** A target flowsheet with a block [unit] indexed by time that holds the
    scalar variables [x] and [y], and a source whose [unit] lacks [x]. *)
Definition timed_block : Component :=
  mkComp Block (SimpleSet time_set) true
    [(PInt 0, block_record); (PInt 1, block_record)].

Definition unit_at (t : Z) : BlockRef := ("unit", PInt t) :: fs_ref.

Definition target_unit : Model :=
  [ (mkRef [] "fs", scalar Block block_record);
    (mkRef fs_ref "unit", timed_block);
    (mkRef (unit_at 0) "x", scalar Var (record 1));
    (mkRef (unit_at 0) "y", scalar Var (record 2));
    (mkRef (unit_at 1) "x", scalar Var (record 3));
    (mkRef (unit_at 1) "y", scalar Var (record 4)) ].

Definition source_unit : Model :=
  [ (mkRef [] "fs", scalar Block block_record);
    (mkRef fs_ref "unit", timed_block);
    (mkRef (unit_at 0) "y", scalar Var (record 20));
    (mkRef (unit_at 1) "y", scalar Var (record 40)) ].

(** The target flowsheet with [x] and [y] where [y] is fixed, and a
    source that has both variables. *)
Definition fixed_record (v : Z) : ComponentData := mkData (Some v) true true.

Definition target_fixed_y : Model :=
  [ (mkRef [] "fs", scalar Block block_record);
    (mkRef fs_ref "x", scalar Var (record 1));
    (mkRef fs_ref "y", scalar Var (fixed_record 2)) ].

Definition source_xy : Model :=
  [ (mkRef [] "fs", scalar Block block_record);
    (mkRef fs_ref "x", scalar Var (record 10));
    (mkRef fs_ref "y", scalar Var (record 20)) ].

Definition y_record : DataRef := mkDataRef (mkRef fs_ref "y") PNone.

(** A target flowsheet with the variables [z] and [w] indexed by time,
    and a source that has [w] only. *)
Definition timed_var (v0 v1 : Z) : Component :=
  mkComp Var (SimpleSet time_set) true
    [(PInt 0, record v0); (PInt 1, record v1)].

Definition target_zw : Model :=
  [ (mkRef [] "fs", scalar Block block_record);
    (mkRef fs_ref "z", timed_var 1 2);
    (mkRef fs_ref "w", timed_var 3 4) ].

Definition source_w : Model :=
  [ (mkRef [] "fs", scalar Block block_record);
    (mkRef fs_ref "w", timed_var 30 40) ].

(** The target with the block [unit] where [unit[1].y] is fixed. *)
Definition target_unit_fixed_y : Model :=
  [ (mkRef [] "fs", scalar Block block_record);
    (mkRef fs_ref "unit", timed_block);
    (mkRef (unit_at 0) "x", scalar Var (record 1));
    (mkRef (unit_at 0) "y", scalar Var (record 2));
    (mkRef (unit_at 1) "x", scalar Var (record 3));
    (mkRef (unit_at 1) "y", scalar Var (fixed_record 4)) ].

Definition unit_y_record : DataRef :=
  mkDataRef (mkRef (unit_at 1) "y") PNone.

(** A target flowsheet with the variable [w] indexed by time, fixed at
    time 1. *)
Definition target_fixed_w : Model :=
  [ (mkRef [] "fs", scalar Block block_record);
    (mkRef fs_ref "w",
     mkComp Var (SimpleSet time_set) true
       [(PInt 0, record 3); (PInt 1, fixed_record 4)]) ].

Definition w_record : DataRef := mkDataRef (mkRef fs_ref "w") (PInt 1).

(** A flowsheet whose block [outer] is indexed by time; [outer[0]] holds
    a block [inner] indexed by time, [outer[1]] a block [inner] indexed
    by another set with the same members; every [inner[k]] holds a scalar
    variable [x]. *)
Definition levels : PySet := mkSet 6 1 [PInt 0; PInt 1].

Definition block_over (s : PySet) : Component :=
  mkComp Block (SimpleSet s) true
    [(PInt 0, block_record); (PInt 1, block_record)].

Definition outer_at (t : Z) : BlockRef := ("outer", PInt t) :: fs_ref.

Definition inner_at (t k : Z) : BlockRef := ("inner", PInt k) :: outer_at t.

Definition uneven (x00 x01 x10 x11 : Z) : Model :=
  [ (mkRef [] "fs", scalar Block block_record);
    (mkRef fs_ref "outer", block_over time_set);
    (mkRef (outer_at 0) "inner", block_over time_set);
    (mkRef (inner_at 0 0) "x", scalar Var (record x00));
    (mkRef (inner_at 0 1) "x", scalar Var (record x01));
    (mkRef (outer_at 1) "inner", block_over levels);
    (mkRef (inner_at 1 0) "x", scalar Var (record x10));
    (mkRef (inner_at 1 1) "x", scalar Var (record x11)) ].

(** The example of the specification: a constraint indexed by
    [locations * hours], with hours 0, 1 and 2. *)
Definition hours : PySet := mkSet 5 1 [PInt 0; PInt 1; PInt 2].

Definition balance (a0 a1 a2 b0 b1 b2 : bool) : Component :=
  mkComp Constraint (SetProduct [locations; hours]) true
    [(PTuple [PStr "A"; PInt 0], mkData None false a0);
     (PTuple [PStr "A"; PInt 1], mkData None false a1);
     (PTuple [PStr "A"; PInt 2], mkData None false a2);
     (PTuple [PStr "B"; PInt 0], mkData None false b0);
     (PTuple [PStr "B"; PInt 1], mkData None false b1);
     (PTuple [PStr "B"; PInt 2], mkData None false b2)].

Definition balance_ref : CompRef := mkRef [] "balance".

End Examples.

(* ===================================================================== *)
(** ** Notions for the lookups and the flag operations *)
(* ===================================================================== *)

(** The model holds every block data object on the way from [root] down
    the steps (innermost first). *)
Fixpoint blocks_held (m : Model) (steps : list Step) (root : BlockRef)
  : bool :=
  match steps with
  | [] => true
  | (name, idx) :: up =>
      is_some (find_data m (mkDataRef (mkRef (up ++ root) name) idx))
      && blocks_held m up root
  end.

(** The model holds the entity. *)
Definition entity_held (m : Model) (e : Entity) : bool :=
  match e with
  | EComp c => is_some (find_comp m c)
  | EData d => is_some (find_data m d)
  end.

(** A tuple with the item at position [n] replaced by [v]. *)
Definition with_coordinate (n : nat) (v : pyval) (l : list pyval)
  : list pyval :=
  firstn n l ++ v :: skipn (S n) l.

(** An index whose coordinates are no tuples. *)
Definition flat_index (idx : pyval) : Prop :=
  Forall (fun a => is_tuple a = false) (as_tuple idx).

(** The exceptions [find_comp_in_block_at_time] raises for what is wrong
    with its arguments, whatever [allow_miss] says. *)
Definition ArgumentError (time : PySet) (t0 : pyval) (e : exn) : Prop :=
  (e = KeyError /\ set_contains time t0 = false)
  \/ e = ValueError \/ e = IndexError.

(** [d] is one of the data objects [l]. *)
Definition listed (l : list DataRef) (d : DataRef) : bool :=
  existsb (dataref_eqb d) l.

(** The model with the records [l] deactivated. *)
Definition deactivate_all (l : list DataRef) (m : Model) : Model :=
  map_records
    (fun d r => if listed l d then mkData (value r) (fixed r) false else r) m.

(** The model with the records [l] fixed. *)
Definition fix_all (l : list DataRef) (m : Model) : Model :=
  map_records
    (fun d r => if listed l d then mkData (value r) true (active r) else r) m.

(** The component is neither explicitly nor implicitly indexed by the
    set. *)
Definition untimed (m : Model) (time : PySet) (c : CompRef) : bool :=
  negb (explicitly_indexed (component_of m c) time)
  && match is_implicitly_indexed_by m c time StopNone with
     | Ok implicit => negb implicit
     | Raise _ => false
     end.

(** The loop body the two operations on components not indexed by time
    share: the record [comp[index]] is changed when it passes a test, and
    is then appended to the list. *)
Definition change_if (test : ComponentData -> bool)
  (change : ComponentData -> ComponentData) (comp : CompRef) (index : pyval)
  (acc : list DataRef) : M (list DataRef) :=
  d <- read_result (fun m => getitem m comp index) ;;
  passes <- read (fun m => test (record_of m d)) ;;
  if passes then
    modify (update_data change d) ;;
    ret (acc ++ [d])
  else ret acc.

(** The shape the two operations share: a traversal of the components
    of some types, changing the records that pass the test in the
    components not indexed by time. *)
Definition sweep (ctypes : list Ctype) (active_only : bool)
  (test : ComponentData -> bool) (change : ComponentData -> ComponentData)
  (b : BlockRef) (time : PySet) : M (list DataRef) :=
  comps <- read (fun m => map fst m) ;;
  for_yielded b ctypes active_only comps [] []
    (fun comp acc =>
       unindexed <- unindexed_by time comp ;;
       if unindexed then
         keys <- read (fun m => keys_of m comp) ;;
         for_each keys acc
           (fun index acc => change_if test change comp index acc)
       else ret acc).

(** The model with the records [l] changed. *)
Definition change_all (change : ComponentData -> ComponentData)
  (l : list DataRef) (m : Model) : Model :=
  map_records (fun d r => if listed l d then change r else r) m.

(** No record of the component passes the test. *)
Definition all_settled (test : ComponentData -> bool) (m : Model)
  (c : CompRef) : bool :=
  forallb (fun k => negb (test (record_of m (mkDataRef c k)))) (keys_of m c).

(** Nothing is left to change: in every component not indexed by time
    that the traversal yields, no record passes the test. *)
Definition settled (ctypes : list Ctype) (active_only : bool)
  (test : ComponentData -> bool) (b : BlockRef) (time : PySet) (m : Model)
  : Prop :=
  forall c, In c (map fst m) ->
    yields m b ctypes active_only true (c, component_of m c) = true ->
    untimed m time c = true ->
    all_settled test m c = true.

(** A record the operation is there to change: the model holds it, it
    passes the test, and it belongs to a component of one of the types
    that is not indexed by time. *)
Definition due (ctypes : list Ctype) (test : ComponentData -> bool)
  (time : PySet) (m : Model) (d : DataRef) : Prop :=
  find_data m d <> None
  /\ test (record_of m d) = true
  /\ existsb (ctype_eqb (ctype (component_of m (parent_component d))))
       ctypes = true
  /\ untimed m time (parent_component d) = true.

(** One model, which is [tgt] with values written over some of its
    records. *)
Definition written (tgt m1 m2 : Model) : Prop :=
  m1 = m2 /\ exists p, m1 = overlay p tgt.

(** A data object is in one of the lists of the dictionary. *)
Definition in_dict (dict : PointDict) (d : DataRef) : Prop :=
  exists pt l, In (pt, l) dict /\ In d l.

(** Every point is a key of the dictionary. *)
Definition keys_ok (pts : list pyval) (dict : PointDict) : Prop :=
  forall pt, In pt pts ->
    existsb (fun k => pyval_eqb k pt) (map fst dict) = true.

(** A record [deactivate_model_at] is there to deactivate: the model
    holds it, and it belongs to a block or constraint that is explicitly
    and not implicitly indexed by the set. *)
Definition deactivated_at (m : Model) (cset : PySet) (d : DataRef) : Prop :=
  find_data m d <> None
  /\ (ctype (component_of m (parent_component d)) = Block
      \/ ctype (component_of m (parent_component d)) = Constraint)
  /\ explicitly_indexed (component_of m (parent_component d)) cset = true
  /\ is_implicitly_indexed_by m (parent_component d) cset StopNone
     = Ok false.

(** A statement about a computation: started in a state where [P] holds,
    it ends with a result and a state that satisfy [Q], or raises in a
    state that satisfies [E]. *)
Definition triple {A} (P : State -> Prop) (c : M A)
  (Q : A -> State -> Prop) (E : State -> Prop) : Prop :=
  forall st, P st ->
    match snd (c st) with
    | Ok a => Q a (fst (c st))
    | Raise _ => E (fst (c st))
    end.

(** A component [deactivate_model_at] deactivates records of. *)
Definition eligible (m : Model) (cset : PySet) (comp : CompRef) : Prop :=
  (ctype (component_of m comp) = Block
   \/ ctype (component_of m comp) = Constraint)
  /\ explicitly_indexed (component_of m comp) cset = true
  /\ is_implicitly_indexed_by m comp cset StopNone = Ok false.

(** What holds of the model while [deactivate_model_at] runs: it is the
    model the operation began with, some records deactivated, each of
    them one the operation is there to deactivate. *)
Definition deactivation_state (m0 : Model) (cset : PySet) (st : State)
  : Prop :=
  exists l,
    target st = deactivate_all l m0 /\ Forall (deactivated_at m0 cset) l.

(** What holds of the model and the dictionary between two steps of
    [deactivate_model_at]: the dictionary has the points for keys and
    lists the records deactivated so far, all of them, each under a point
    it stands in the relation [good] with. *)
Definition deactivation_invariant (m0 : Model) (cset : PySet)
  (pts : list pyval) (good : pyval -> DataRef -> Prop) (dict : PointDict)
  (st : State) : Prop :=
  map fst dict = map fst (dict_of_points pts)
  /\ (exists l,
        target st = deactivate_all l m0
        /\ Forall (deactivated_at m0 cset) l
        /\ forall d, In d l <-> in_dict dict d)
  /\ forall pt l d, In (pt, l) dict -> In d l -> good pt d.

(** The record carries the point at the coordinate of the set. *)
Definition at_point (m : Model) (cset : PySet) (pt : pyval) (d : DataRef)
  : Prop :=
  get_index_of_set (component_of m (parent_component d)) (index d) cset
  = Ok pt.

(** A component indexed by one set, or by a product of 1-dimensional
    sets with scalar members in which [cset] occurs once. *)
Definition scalar_indexed (comp : Component) (cset : PySet) : Prop :=
  (exists s, index_set comp = SimpleSet s)
  \/ exists pre post,
       index_set comp = SetProduct (pre ++ cset :: post)
       /\ Forall (fun f => dimen f = 1) (pre ++ cset :: post)
       /\ Forall (fun f => set_is f cset = false) (pre ++ post)
       /\ pre ++ post <> []
       /\ Forall scalar_members (pre ++ post).

(** A data object [get_derivatives_at] may list: the model holds it,
    and it belongs to a derivative with respect to the set, which is
    explicitly indexed by the set. *)
Definition derivative_wrt (m : Model) (derivative_of : Derivatives)
  (time : PySet) (d : DataRef) : Prop :=
  find_data m d <> None
  /\ (exists continuousset_list,
        derivative_of (parent_component d) = Some continuousset_list
        /\ in_component_set time continuousset_list = true)
  /\ explicitly_indexed (component_of m (parent_component d)) time = true.

(** What holds of the dictionary [get_derivatives_at] builds: it has
    the points for keys, and lists derivatives only. *)
Definition derivatives_only (m : Model) (derivative_of : Derivatives)
  (time : PySet) (pts : list pyval) (dvdict : PointDict) : Prop :=
  map fst dvdict = map fst (dict_of_points pts)
  /\ forall d, in_dict dvdict d -> derivative_wrt m derivative_of time d.

(* ===================================================================== *)
(** ** Notions for what the copy operations write *)
(* ===================================================================== *)

(** The record [d], which was [r], holds the value [v]; its flags are
    those of [r]. *)
Definition overwritten (m : Model) (d : DataRef) (r : ComponentData)
  (v : option Z) : Prop :=
  find_data m d = Some (mkData v (fixed r) (active r)).

(** The value [copy_non_time_indexed_values] reads in the source model
    [other] for the record [d] of the target [tgt].  The variable of [d]
    is not explicitly indexed by time, and
    - it is a variable of the flowsheet itself, and [v] is the [value]
      of the variable of its name in the source flowsheet; or
    - it is a variable of a data object of a block of the flowsheet that
      is neither implicitly nor explicitly indexed by time, and [v] is
      the value, at the index of [d], of the variable of its name found
      in the source along the path from the flowsheet. *)
Definition untimed_source_value (fs_tgt fs_src : Flowsheet)
  (other tgt : Model) (d : DataRef) (v : option Z) : Prop :=
  let var_tgt := parent_component d in
  explicitly_indexed (component_of tgt var_tgt) (time fs_tgt) = false
  /\ ((exists var_src,
         In var_tgt
           (component_objects tgt (fs_block fs_tgt) [Var] false false)
         /\ find_component other (fs_block fs_src) ([], local_name var_tgt)
            = Some var_src
         /\ component_value other var_src = Ok v)
      \/ (exists blk_tgt b_index local_parent var_src,
            In blk_tgt
              (component_objects tgt (fs_block fs_tgt) [Block] false true)
            /\ is_implicitly_indexed_by tgt blk_tgt (time fs_tgt) StopNone
               = Ok false
            /\ explicitly_indexed (component_of tgt blk_tgt) (time fs_tgt)
               = false
            /\ In b_index (keys_of tgt blk_tgt)
            /\ In var_tgt
                 (component_objects tgt (block_data blk_tgt b_index) [Var]
                    false false)
            /\ source_parent fs_tgt fs_src var_tgt other = Ok local_parent
            /\ getattr other local_parent (local_name var_tgt) = Ok var_src
            /\ item_value var_src (index d) other = Ok v)).

(** A pair of indices [copy_values_at_time] copies between in a
    component that is explicitly indexed by time: the two time points
    when the component has dimension 1; with a dimension of 2 or more,
    the completions of one index of the projection by the two time
    points. *)
Definition copy_indices (comp : Component) (time : PySet)
  (t_target t_source target_index source_index : pyval) : Prop :=
  (index_set_dimen (index_set comp) = 1
   /\ target_index = t_target /\ source_index = t_source)
  \/ (2 <= index_set_dimen (index_set comp)
      /\ exists index_info non_time_index,
           get_index_set_except comp [time] = Ok index_info
           /\ In non_time_index
                (set_except_members (set_except index_info))
           /\ index_getter index_info non_time_index [t_source]
              = Ok source_index
           /\ index_getter index_info non_time_index [t_target]
              = Ok target_index).

(** A value [copy_values_at_time] reads in the source model [other] for
    the record [d] of the target [tgt]:
    - [d] is the record at a target index of a variable below the
      flowsheet that is explicitly indexed by time and whose name
      resolves in the source flowsheet, and [v] is the value of the
      source variable at the source index; or
    - [d] is the record of a variable below the data object at a target
      index of a block of the flowsheet that is explicitly indexed by
      time and whose name resolves in the source flowsheet, and [v] is the
      value of the record of the same name and index found along the
      path of [d] from the data object of the source block at the source
      index. *)
Definition timed_source_value (fs_tgt fs_src : Flowsheet)
  (other tgt : Model) (t_target t_source : pyval) (d : DataRef)
  (v : option Z) : Prop :=
  (exists var_source source_index,
      In (parent_component d)
        (component_objects tgt (fs_block fs_tgt) [Var] false true)
      /\ explicitly_indexed (component_of tgt (parent_component d))
           (time fs_tgt) = true
      /\ find_component other (fs_block fs_src)
           (getname (parent_component d) (fs_block fs_tgt))
         = Some var_source
      /\ copy_indices (component_of tgt (parent_component d)) (time fs_tgt)
           t_target t_source (index d) source_index
      /\ item_value var_source source_index other = Ok v)
  \/ (exists blk_target blk_source target_index source_index,
        In blk_target
          (component_objects tgt (fs_block fs_tgt) [Block] false true)
        /\ explicitly_indexed (component_of tgt blk_target) (time fs_tgt)
           = true
        /\ find_component other (fs_block fs_src)
             (getname blk_target (fs_block fs_tgt))
           = Some blk_source
        /\ copy_indices (component_of tgt blk_target) (time fs_tgt)
             t_target t_source target_index source_index
        /\ In d
             (component_data_objects tgt
                (block_data blk_target target_index) [Var])
        /\ mirrored_value blk_source source_index
             (block_data blk_target target_index) d other = Ok v).

(** The model of the state is [tgt] with values written over some of
    its records. *)
Definition values_written (tgt : Model) (st : State) : Prop :=
  exists p, target st = overlay p tgt.

(** The record [d], which was [r] in the target, holds one of the values
    [G]. *)
Definition holds_one_of (d : DataRef) (r : ComponentData)
  (G : option Z -> Prop) (st : State) : Prop :=
  exists v, G v /\ overwritten (target st) d r v.

(** What holds between two steps of a copy operation: the model is the
    target with values written over it, and (unless [X]) the record [d]
    holds one of the values [G]. *)
Definition copy_invariant (tgt : Model) (d : DataRef) (r : ComponentData)
  (G : option Z -> Prop) (X : Prop) (st : State) : Prop :=
  values_written tgt st /\ (X \/ holds_one_of d r G st).

(** Nothing is said of the state an operation raises in. *)
Definition any_state (st : State) : Prop := True.

(* ===================================================================== *)
(** ** An example flowsheet with constraints and a derivative *)
(* ===================================================================== *)

Module PlantExample.

Import Examples.

Definition timed_constraint : Component :=
  mkComp Constraint (SimpleSet time_set) true
    [(PInt 0, block_record); (PInt 1, block_record)].

(** A flowsheet with a scalar constraint [c0], a constraint [ct] indexed
    by time, a block [unit] indexed by time whose first data object holds
    a scalar constraint [cu], the scalar variables [p] (with a value) and
    [q] (without), and the variable [dxdt] indexed by time. *)
Definition plant : Model :=
  [ (mkRef [] "fs", scalar Block block_record);
    (mkRef fs_ref "c0", scalar Constraint block_record);
    (mkRef fs_ref "ct", timed_constraint);
    (mkRef fs_ref "unit", timed_block);
    (mkRef (unit_at 0) "cu", scalar Constraint block_record);
    (mkRef fs_ref "p", scalar Var (record 1));
    (mkRef fs_ref "q", scalar Var (mkData None false true));
    (mkRef fs_ref "dxdt", timed_var 3 4) ].

(** [dxdt] is the one [DerivativeVar], with respect to time. *)
Definition plant_derivatives : Derivatives :=
  fun c =>
    if compref_eqb c (mkRef fs_ref "dxdt") then Some [time_set] else None.

Definition c0_record : DataRef := mkDataRef (mkRef fs_ref "c0") PNone.

Definition p_record : DataRef := mkDataRef (mkRef fs_ref "p") PNone.

Definition dxdt_at (t : Z) : DataRef :=
  mkDataRef (mkRef fs_ref "dxdt") (PInt t).

End PlantExample.

(* ===================================================================== *)
(** ** Equality tests decide equality *)
(* ===================================================================== *)

Lemma pyval_nested_ind (P : pyval -> Prop) :
  P PNone ->
  (forall z, P (PInt z)) ->
  (forall s, P (PStr s)) ->
  (forall items, Forall P items -> P (PTuple items)) ->
  forall v, P v.
Proof.
  intros HN HI HS HT.
  fix IH 1.
  intros [ | z | s | items ].
  - exact HN.
  - apply HI.
  - apply HS.
  - apply HT. induction items as [ | x items IHitems ].
    + constructor.
    + constructor; [ apply IH | exact IHitems ].
Qed.

Lemma pyval_eqb_refl (v : pyval) : pyval_eqb v v = true.
Proof.
  induction v as [ | z | s | items IH ] using pyval_nested_ind; simpl.
  - reflexivity.
  - apply Z.eqb_refl.
  - apply String.eqb_refl.
  - induction IH as [ | x items Hx _ IHitems ]; [ reflexivity | ].
    rewrite Hx. exact IHitems.
Qed.

Lemma pyval_eqb_true (a b : pyval) : pyval_eqb a b = true -> a = b.
Proof.
  revert b.
  induction a as [ | z | s | items IH ] using pyval_nested_ind;
    intros [ | z' | s' | items' ]; simpl; try discriminate.
  - reflexivity.
  - intros H. apply Z.eqb_eq in H. now subst.
  - intros H. apply String.eqb_eq in H. now subst.
  - intros H. f_equal. revert items' H.
    induction IH as [ | x items Hx _ IHitems ]; intros [ | y items' ];
      try discriminate; [ reflexivity | ].
    intros H. apply andb_prop in H as [Hxy Hrest].
    f_equal; [ now apply Hx | now apply IHitems ].
Qed.

Lemma pyval_eqb_eq (a b : pyval) : pyval_eqb a b = true <-> a = b.
Proof.
  split; [ apply pyval_eqb_true | intros ->; apply pyval_eqb_refl ].
Qed.

Lemma step_eqb_eq (a b : Step) : step_eqb a b = true <-> a = b.
Proof.
  destruct a as [n i], b as [n' i']. unfold step_eqb; simpl.
  rewrite andb_true_iff, String.eqb_eq, pyval_eqb_eq.
  split; [ intros [-> ->]; reflexivity | intros [= -> ->]; now split ].
Qed.

Lemma blockref_eqb_eq (a b : BlockRef) : blockref_eqb a b = true <-> a = b.
Proof.
  revert b. induction a as [ | x a IH ]; intros [ | y b ]; simpl;
    try (split; [ discriminate | intros [=] ]); try tauto.
  rewrite andb_true_iff, step_eqb_eq, IH.
  split; [ intros [-> ->]; reflexivity | intros [= -> ->]; now split ].
Qed.

Lemma compref_eqb_eq (a b : CompRef) : compref_eqb a b = true <-> a = b.
Proof.
  destruct a as [p n], b as [p' n']. unfold compref_eqb; simpl.
  rewrite andb_true_iff, blockref_eqb_eq, String.eqb_eq.
  split; [ intros [-> ->]; reflexivity | intros [= -> ->]; now split ].
Qed.

Lemma dataref_eqb_eq (a b : DataRef) : dataref_eqb a b = true <-> a = b.
Proof.
  destruct a as [c i], b as [c' i']. unfold dataref_eqb; simpl.
  rewrite andb_true_iff, compref_eqb_eq, pyval_eqb_eq.
  split; [ intros [-> ->]; reflexivity | intros [= -> ->]; now split ].
Qed.

Lemma compref_eqb_refl (c : CompRef) : compref_eqb c c = true.
Proof. now apply compref_eqb_eq. Qed.

Lemma dataref_eqb_refl (d : DataRef) : dataref_eqb d d = true.
Proof. now apply dataref_eqb_eq. Qed.

Lemma blockref_eqb_refl (b : BlockRef) : blockref_eqb b b = true.
Proof. now apply blockref_eqb_eq. Qed.

(* ===================================================================== *)
(** ** Properties of the index algebra *)
(* ===================================================================== *)

Section Location.

Variable subset : PySet.

Lemma location_loop_found (factors : list PySet) (loc : option nat)
  (i : nat) :
  location_loop factors subset loc i true =
    match count_id subset factors with
    | 0 => Ok loc
    | _ => Raise ValueError
    end.
Proof.
  revert loc i. unfold count_id.
  induction factors as [ | f factors IH ]; intros loc i; simpl.
  - reflexivity.
  - destruct (set_is f subset); simpl; [ reflexivity | apply IH ].
Qed.

Lemma location_loop_fresh (factors : list PySet) (loc : option nat)
  (i : nat) :
  location_loop factors subset loc i false =
    match count_id subset factors with
    | 0 => Ok loc
    | 1 => Ok (Some (i + offset_of subset factors))
    | _ => Raise ValueError
    end.
Proof.
  revert loc i. unfold count_id, offset_of.
  induction factors as [ | f factors IH ]; intros loc i; simpl.
  - reflexivity.
  - destruct (set_is f subset) eqn:E; simpl.
    + rewrite location_loop_found. unfold count_id.
      destruct (length _); [ now rewrite Nat.add_0_r | reflexivity ].
    + rewrite IH. destruct (length _) as [ | [ | n ] ]; try reflexivity.
      now rewrite Nat.add_assoc.
Qed.

End Location.

(** C7 (as amended).  [get_location_of_coordinate_set] raises when the
    subset is not 1-dimensional or occurs more than once among the
    factors; when it occurs exactly once the result is the sum of the
    dimensions of all factors before it; when it does not occur the
    function raises nothing and returns [None]. *)
Theorem get_location_of_coordinate_set_spec (setprod : IndexSet)
  (subset : PySet) :
  get_location_of_coordinate_set setprod subset =
    if negb (dimen subset =? 1) then Raise ValueError
    else
      match count_id subset (subsets_of setprod) with
      | 0 => Ok None
      | 1 => Ok (Some (offset_of subset (subsets_of setprod)))
      | _ => Raise ValueError
      end.
Proof.
  unfold get_location_of_coordinate_set.
  destruct (negb (dimen subset =? 1)); [ reflexivity | ].
  now rewrite location_loop_fresh.
Qed.

(** C7 as stated fails: a 1-dimensional subset that is no factor of the
    product does not occur exactly once, and nothing is raised. *)
Lemma get_location_absent_subset_not_raised :
  ~ (forall (setprod : IndexSet) (subset : PySet),
        dimen subset <> 1 \/ count_id subset (subsets_of setprod) <> 1 ->
        exists e, get_location_of_coordinate_set setprod subset = Raise e).
Proof.
  intros H.
  destruct (H (SetProduct [Examples.locations; Examples.time_set])
              Examples.other_set) as [e He].
  - right. vm_compute. discriminate.
  - vm_compute in He. discriminate.
Qed.

Section ExplicitIndexing.

Lemma in_component_set_count (s : PySet) (factors : list PySet) :
  count_id s factors = 1 -> in_component_set s factors = true.
Proof.
  unfold count_id, in_component_set.
  induction factors as [ | f factors IH ]; simpl; [ discriminate | ].
  destruct (set_is f s); simpl; [ reflexivity | exact IH ].
Qed.

Lemma factor_dimen_below_sum (s : PySet) (factors : list PySet) :
  2 <= length factors ->
  Forall (fun f => 1 <= dimen f) factors ->
  same_object_same_dimen s factors ->
  count_id s factors = 1 ->
  dimen s < list_sum (map dimen factors).
Proof.
  unfold same_object_same_dimen, count_id.
  intros Hlen Hpos Hsame Hcount.
  assert (Hgen : forall l, Forall (fun f => 1 <= dimen f) l ->
            Forall (fun f => set_is f s = true -> dimen f = dimen s) l ->
            length (filter (fun f => set_is f s) l) = 1 ->
            dimen s + (length l - 1) <= list_sum (map dimen l)).
  { induction l as [ | f l IH ]; simpl; intros Hp Hs Hc; [ discriminate | ].
    inversion Hp as [ | ? ? Hf Hp' ]; subst.
    inversion Hs as [ | ? ? Hfs Hs' ]; subst.
    destruct (set_is f s) eqn:E; simpl in Hc.
    - rewrite (Hfs eq_refl).
      assert (length l <= list_sum (map dimen l)).
      { clear -Hp'. induction Hp'; simpl; lia. }
      lia.
    - specialize (IH Hp' Hs' Hc).
      assert (1 <= length l).
      { destruct l; simpl in *; [ discriminate | lia ]. }
      lia. }
  specialize (Hgen factors Hpos Hsame Hcount). lia.
Qed.

(** C6.  For a non-empty collection of requested sets,
    [is_explicitly_indexed_by] returns
    - false when the entity's dimension is below the sum of the requested
      dimensions;
    - the identity test of the entity's own index set against the set,
      when one set is requested and it has the entity's full dimension;
    - otherwise, whether every requested set is (by identity) among the
      factors of the entity's product (an entity indexed by a single set
      or by none has no product).
    In particular it returns true for a set that occurs exactly once among
    the entity's factors (the factors of its product, or the single set
    it is indexed by).  Only the entity's own index set is read: no
    ancestor takes part. *)
Theorem is_explicitly_indexed_by_spec (comp : Component)
  (sets : list PySet) (Hsets : sets <> []) :
  (dim comp < total_dimen sets ->
   is_explicitly_indexed_by comp sets = Ok false)
  /\ (forall s, sets = [s] -> dimen s = dim comp ->
      is_explicitly_indexed_by comp sets =
        Ok (index_set_is (index_set comp) s))
  /\ (total_dimen sets <= dim comp ->
      ~ (exists s, sets = [s] /\ dimen s = dim comp) ->
      is_explicitly_indexed_by comp sets =
        Ok (forallb (fun s => in_component_set s (product_factors comp))
              sets))
  /\ (forall s, sets = [s] ->
      proper_product (index_set comp) ->
      same_object_same_dimen s (subsets_of (index_set comp)) ->
      count_id s (subsets_of (index_set comp)) = 1 ->
      is_explicitly_indexed_by comp sets = Ok true).
Proof.
  assert (Hlen : (length sets =? 0) = false).
  { destruct sets; [ contradiction | reflexivity ]. }
  assert (Hsmall : dim comp < total_dimen sets ->
                   is_explicitly_indexed_by comp sets = Ok false).
  { intros Hlt. unfold is_explicitly_indexed_by.
    destruct (negb (is_indexed comp)); [ reflexivity | ].
    rewrite Hlen. apply Nat.ltb_lt in Hlt. unfold total_dimen in Hlt.
    now rewrite Hlt. }
  assert (Hother : total_dimen sets <= dim comp ->
            ~ (exists s, sets = [s] /\ dimen s = dim comp) ->
            is_explicitly_indexed_by comp sets =
              Ok (forallb (fun s => in_component_set s (product_factors comp))
                    sets)).
  { intros Hle Hnot. unfold is_explicitly_indexed_by, product_factors.
    assert (Hempty : forallb (fun s => in_component_set s []) sets = false).
    { destruct sets; [ contradiction | reflexivity ]. }
    unfold is_indexed.
    destruct (index_set comp) as [ | s0 | set_tuple ] eqn:Ei; simpl negb;
      cbv iota; [ now rewrite Hempty | | ];
      rewrite Hlen;
      (replace (dim comp <? list_sum (map dimen sets)) with false
        by (symmetry; apply Nat.ltb_ge; exact Hle));
      (replace ((length sets =? 1) && (nth 0 (map dimen sets) 0 =? dim comp))
         with false; [ now rewrite ?Hempty | ]);
      symmetry; apply andb_false_iff;
      destruct sets as [ | s [ | s' rest ] ]; simpl;
        try (left; reflexivity); try contradiction;
      right; apply Nat.eqb_neq; intros Heq; apply Hnot; now exists s. }
  assert (Hsingle : forall s, sets = [s] -> dimen s = dim comp ->
            is_explicitly_indexed_by comp sets =
              Ok (index_set_is (index_set comp) s)).
  { intros s -> Hdim. unfold is_explicitly_indexed_by, is_indexed.
    unfold dim in *.
    destruct (index_set comp) as [ | s0 | set_tuple ]; simpl negb; cbv iota;
      [ reflexivity | | ]; simpl; rewrite Nat.add_0_r, Hdim;
      rewrite Nat.ltb_irrefl, Nat.eqb_refl; reflexivity. }
  split; [ exact Hsmall | ].
  split; [ exact Hsingle | split; [ exact Hother | ] ].
  intros s Hs Hproper Hsame Hcount.
  destruct (index_set comp) as [ | s0 | set_tuple ] eqn:Ei;
    simpl in Hsame, Hcount; try discriminate.
  - unfold count_id in Hcount. simpl in Hcount.
    destruct (set_is s0 s) eqn:Eis; try discriminate.
    inversion Hsame as [ | ? ? Hs0 _ ]; subst.
    rewrite (Hsingle s eq_refl).
    + simpl. now rewrite Eis.
    + unfold dim. rewrite ?Ei. simpl. symmetry. now apply Hs0.
  - subst sets. destruct Hproper as [Hlen2 Hpos].
    pose proof (factor_dimen_below_sum _ _ Hlen2 Hpos Hsame Hcount) as Hlt.
    assert (Hdim : dim comp = list_sum (map dimen set_tuple)).
    { unfold dim. now rewrite ?Ei. }
    rewrite Hother.
    + unfold product_factors. rewrite ?Ei. simpl.
      now rewrite (in_component_set_count _ _ Hcount).
    + unfold total_dimen. simpl. lia.
    + intros [s' [[= <-] Hd]]. lia.
Qed.

(** The theorem at work on a variable indexed by [locations * time_set]:
    the time set occurs once among its factors. *)
Lemma is_explicitly_indexed_by_spec_witness :
  is_explicitly_indexed_by Examples.located_var [Examples.time_set] = Ok true.
Proof.
  assert (Hsets : [Examples.time_set] <> []) by discriminate.
  apply (proj2 (proj2 (proj2
           (is_explicitly_indexed_by_spec Examples.located_var _ Hsets)))
           Examples.time_set eq_refl).
  - simpl. split; [ lia | repeat constructor ].
  - unfold same_object_same_dimen. simpl.
    repeat constructor; simpl; intros; try discriminate; reflexivity.
  - reflexivity.
Defined.

End ExplicitIndexing.

Section Completion.

Import Examples.

(** C2 (the code falls short of it).  [staged_var] is indexed by
    [stages * time_set], where [stages] is 2-dimensional and each set
    occurs once.  [get_index_set_except] returns the projection [stages],
    whose dimension is the variable's dimension less that of [time_set],
    as claimed.  Its [index_getter] however inserts the time value at the
    position of [time_set] among the factors (1), not at its offset among
    the coordinates (2): with time 0 held fixed, the elements of the
    projection are completed to [(a, 0, 1)] and [(b, 0, 2)], neither of
    which is an element of the variable's index product, and the elements
    [(a, 1, 0)] and [(b, 2, 0)] that carry time 0 are never produced. *)
Theorem index_getter_leaves_the_index_product :
  get_index_set_except staged_var [time_set] =
    Ok (mkInfo (OtherSet stages) (_complete_index [(1, 0)]))
  /\ set_except_dimen (OtherSet stages) =
       dim staged_var - total_dimen [time_set]
  /\ map (fun i => _complete_index [(1, 0)] i [PInt 0])
         (set_except_members (OtherSet stages)) =
       [Ok (PTuple [PStr "a"; PInt 0; PInt 1]);
        Ok (PTuple [PStr "b"; PInt 0; PInt 2])]
  /\ index_set_members (index_set staged_var) =
       [PTuple [PStr "a"; PInt 1; PInt 0]; PTuple [PStr "a"; PInt 1; PInt 1];
        PTuple [PStr "b"; PInt 2; PInt 0]; PTuple [PStr "b"; PInt 2; PInt 1]]
  /\ ~ In (PTuple [PStr "a"; PInt 0; PInt 1])
          (index_set_members (index_set staged_var))
  /\ ~ In (PTuple [PStr "b"; PInt 0; PInt 2])
          (index_set_members (index_set staged_var)).
Proof.
  repeat split; try reflexivity;
    intros H; simpl in H;
    repeat (destruct H as [H | H]; [ discriminate H | ]); exact H.
Qed.

(** C5 (the code falls short of it).  In the product [stages * time_set]
    the 1-dimensional factor [time_set] occurs once, and
    [get_location_of_coordinate_set] computes its offset 2, the dimension
    of [stages].  The completer of [get_index_set_except], given the
    projection element [(a, 1)] and the value 0 for [time_set], returns
    [(a, 0, 1)]: the value stands at offset 1, inside the coordinates of
    [stages], and the coordinate at the computed offset 2 is 1, not the
    value supplied.  [_complete_index] itself, handed the offset 2 as the
    location, returns [(a, 1, 0)]: [get_index_set_except] hands it the
    position 1 of [time_set] among the factors instead. *)
Theorem completer_value_not_at_computed_offset :
  count_id time_set (subsets_of (index_set staged_var)) = 1
  /\ dimen time_set = 1
  /\ get_location_of_coordinate_set (index_set staged_var) time_set =
       Ok (Some 2)
  /\ (let? info := get_index_set_except staged_var [time_set] in
      let? full := index_getter info (PTuple [PStr "a"; PInt 1]) [PInt 0] in
      Ok (full, tuple_get (as_tuple full) (Some 2))) =
       Ok (PTuple [PStr "a"; PInt 0; PInt 1], Ok (PInt 1))
  /\ PInt 1 <> PInt 0
  /\ _complete_index [(2, 0)] (PTuple [PStr "a"; PInt 1]) [PInt 0] =
       Ok (PTuple [PStr "a"; PInt 1; PInt 0]).
Proof.
  repeat split; try reflexivity. discriminate.
Qed.

End Completion.

(* ===================================================================== *)
(** ** The completer over 1-dimensional factors *)
(* ===================================================================== *)

(** Where every factor of the product is 1-dimensional, the position of a
    factor among the factors is its offset among the coordinates, and the
    completer of [get_index_set_except] does what the specification says
    of it. *)

Section OneDimensional.

Variable comp : Component.
Variables pre post : list PySet.
Variable s : PySet.

Hypothesis Hindex : index_set comp = SetProduct (pre ++ s :: post).
Hypothesis Hone : Forall (fun f => dimen f = 1) (pre ++ s :: post).
Hypothesis Honce : Forall (fun f => set_is f s = false) (pre ++ post).
Hypothesis Hothers : pre ++ post <> [].

Lemma set_is_refl (a : PySet) : set_is a a = true.
Proof. apply Nat.eqb_refl. Qed.

Lemma one_dimensional_sum (l : list PySet) :
  Forall (fun f => dimen f = 1) l -> list_sum (map dimen l) = length l.
Proof.
  induction 1 as [ | f l Hf _ IH ]; simpl; [ reflexivity | ].
  now rewrite Hf, IH.
Qed.

Lemma others_not_counted (l : list PySet) :
  Forall (fun f => set_is f s = false) l ->
  filter (fun f => set_is f s) l = [].
Proof.
  induction 1 as [ | f l Hf _ IH ]; simpl; [ reflexivity | ].
  now rewrite Hf.
Qed.

Lemma others_before : Forall (fun f => set_is f s = false) pre.
Proof. exact (proj1 (proj1 (Forall_app _ _ _) Honce)). Qed.

Lemma others_after : Forall (fun f => set_is f s = false) post.
Proof. exact (proj2 (proj1 (Forall_app _ _ _) Honce)). Qed.

Lemma count_id_once : count_id s (pre ++ s :: post) = 1.
Proof.
  unfold count_id. rewrite filter_app. simpl. rewrite set_is_refl.
  rewrite (others_not_counted pre others_before).
  now rewrite (others_not_counted post others_after).
Qed.

Lemma offset_of_once : offset_of s (pre ++ s :: post) = length pre.
Proof.
  unfold offset_of.
  assert (Hb : factors_before s (pre ++ s :: post) = pre).
  { pose proof others_before as Hp. clear -Hp.
    induction Hp as [ | f l Hf _ IH ]; simpl.
    - now rewrite set_is_refl.
    - now rewrite Hf, IH. }
  rewrite Hb. apply one_dimensional_sum.
  exact (proj1 (proj1 (Forall_app _ _ _) Hone)).
Qed.

Lemma locate_sets_others (l : list PySet) (n : nat) :
  Forall (fun f => set_is f s = false) l ->
  locate_sets l [s] n = ([], l).
Proof.
  intros H. revert n. induction H as [ | f l Hf _ IH ]; intros n; simpl.
  - reflexivity.
  - now rewrite IH, Hf.
Qed.

Lemma locate_sets_at (l r : list PySet) (n : nat) :
  Forall (fun f => set_is f s = false) l ->
  Forall (fun f => set_is f s = false) r ->
  locate_sets (l ++ s :: r) [s] n = ([(n + length l, 0)], l ++ r).
Proof.
  intros Hl Hr. revert n.
  induction Hl as [ | f l Hf _ IH ]; intros n; simpl.
  - rewrite (locate_sets_others r (S n) Hr), set_is_refl.
    now rewrite Nat.add_0_r.
  - rewrite IH, Hf. now rewrite Nat.add_succ_r.
Qed.

Lemma locate_sets_once (n : nat) :
  locate_sets (pre ++ s :: post) [s] n = ([(n + length pre, 0)], pre ++ post).
Proof. apply locate_sets_at; [ apply others_before | apply others_after ]. Qed.

Lemma dim_one_dimensional : dim comp = S (length (pre ++ post)).
Proof.
  unfold dim. rewrite Hindex. simpl. rewrite (one_dimensional_sum _ Hone).
  rewrite !length_app. simpl. lia.
Qed.

Lemma dimen_kept : dimen s = 1.
Proof.
  apply Forall_app in Hone as [_ Hs]. now inversion Hs.
Qed.

Lemma others_length : 1 <= length (pre ++ post).
Proof. destruct (pre ++ post); [ contradiction | simpl; lia ]. Qed.

Lemma explicitly_indexed_once :
  is_explicitly_indexed_by comp [s] = Ok true.
Proof.
  unfold is_explicitly_indexed_by, is_indexed. rewrite Hindex.
  cbn [negb length Nat.eqb map list_sum fold_right nth andb].
  rewrite dim_one_dimensional, dimen_kept.
  pose proof others_length as Hl.
  replace (S (length (pre ++ post)) <? 1 + 0) with false
    by (symmetry; apply Nat.ltb_ge; lia).
  replace (1 =? S (length (pre ++ post))) with false
    by (symmetry; apply Nat.eqb_neq; lia).
  cbn [forallb]. rewrite (in_component_set_count _ _ count_id_once).
  reflexivity.
Qed.

(** What [get_index_set_except] returns: the projection on the other
    factors, and the completer that knows the position of [s]. *)
Lemma get_index_set_except_once :
  get_index_set_except comp [s] =
    Ok (mkInfo (projection_of (pre ++ post))
          (_complete_index [(length pre, 0)])).
Proof.
  unfold get_index_set_except. rewrite explicitly_indexed_once.
  cbn [rbind negb]. rewrite Hindex. cbn [forallb].
  rewrite count_id_once. cbn [Nat.eqb andb rbind].
  rewrite locate_sets_once. cbn [Nat.add].
  rewrite dim_one_dimensional.
  cbn [map list_sum fold_right]. rewrite dimen_kept.
  pose proof others_length as Hl.
  replace (S (length (pre ++ post)) =? 1 + 0) with false
    by (symmetry; apply Nat.eqb_neq; lia).
  unfold projection_of.
  destruct (pre ++ post) as [ | x [ | y rest ] ];
    [ contradiction | reflexivity | reflexivity ].
Qed.

(** The completer puts the value in at the position of [s]. *)
Lemma complete_index_once (k : nat) (idx v : pyval) :
  is_tuple v = false ->
  _complete_index [(k, 0)] idx [v] = Ok (PTuple (put_in k v (as_tuple idx))).
Proof.
  intros Hv. unfold _complete_index, put_in. simpl.
  rewrite Nat.eqb_refl. simpl.
  destruct v; try discriminate; reflexivity.
Qed.

Lemma nth_error_put_in (k : nat) (v : pyval) (t : list pyval) :
  k <= length t -> nth_error (put_in k v t) k = Some v.
Proof.
  intros Hk. unfold put_in.
  rewrite nth_error_app2 by (rewrite length_firstn; lia).
  rewrite length_firstn, Nat.min_l by exact Hk.
  now rewrite Nat.sub_diag.
Qed.

(** X1.  The completer and [get_location_of_coordinate_set] agree when
    every factor is 1-dimensional: the value supplied for [s] is read back at
    the computed offset, before it stand the coordinates of the
    projection index that stood before that offset and after it the
    others. *)
Theorem completer_recovers_value_over_scalar_factors (idx v : pyval)
  (Hv : is_tuple v = false)
  (Hidx : length pre <= length (as_tuple idx)) :
  exists info full,
    get_index_set_except comp [s] = Ok info
    /\ index_getter info idx [v] = Ok (PTuple full)
    /\ get_location_of_coordinate_set (index_set comp) s
         = Ok (Some (length pre))
    /\ nth_error full (length pre) = Some v
    /\ firstn (length pre) full = firstn (length pre) (as_tuple idx)
    /\ skipn (S (length pre)) full = skipn (length pre) (as_tuple idx).
Proof.
  exists (mkInfo (projection_of (pre ++ post))
            (_complete_index [(length pre, 0)])).
  exists (put_in (length pre) v (as_tuple idx)).
  split; [ apply get_index_set_except_once | ].
  split; [ now apply complete_index_once | ].
  split.
  - unfold get_location_of_coordinate_set. rewrite Hindex, dimen_kept.
    cbn [Nat.eqb negb subsets_of]. rewrite location_loop_fresh.
    now rewrite count_id_once, offset_of_once.
  - split; [ now apply nth_error_put_in | ].
    unfold put_in. split.
    + rewrite firstn_app, firstn_firstn, Nat.min_id.
      rewrite length_firstn, Nat.min_l by exact Hidx.
      rewrite Nat.sub_diag. simpl. now rewrite app_nil_r.
    + rewrite skipn_app, length_firstn, Nat.min_l by exact Hidx.
      rewrite skipn_all2 by (rewrite length_firstn; lia).
      replace (S (length pre) - length pre) with 1 by lia.
      reflexivity.
Qed.

Hypothesis Hscalars : Forall scalar_members (pre ++ post).

Lemma cross_members_scalar (f : PySet) (rest : list PySet) :
  scalar_members f ->
  cross_members (f :: rest) =
    flat_map (fun a => map (cons a) (cross_members rest)) (members f).
Proof.
  unfold scalar_members. simpl. intros H.
  induction H as [ | a l Ha _ IH ]; simpl; [ reflexivity | ].
  rewrite IH. f_equal. apply map_ext. intros t.
  destruct a; try discriminate; reflexivity.
Qed.

(** Holding [s] at [v] in the product is putting [v] in at the position
    of [s] in the elements of the product of the other factors. *)
Lemma cross_members_held (l r : list PySet) (v : pyval) :
  is_tuple v = false ->
  Forall scalar_members l ->
  cross_members (l ++ held_at s v :: r) =
    map (put_in (length l) v) (cross_members (l ++ r)).
Proof.
  intros Hv Hl. induction Hl as [ | f l Hf _ IH ].
  - simpl. rewrite app_nil_r. apply map_ext. intros t.
    destruct v; try discriminate; reflexivity.
  - cbn [app length].
    rewrite (cross_members_scalar f _ Hf), (cross_members_scalar f _ Hf), IH.
    clear IH Hf.
    induction (members f) as [ | a ms IHms ]; simpl; [ reflexivity | ].
    rewrite map_app, IHms. f_equal. rewrite !map_map. reflexivity.
Qed.

Lemma set_except_members_projection :
  map as_tuple (set_except_members (projection_of (pre ++ post))) =
    cross_members (pre ++ post).
Proof.
  unfold projection_of.
  destruct (pre ++ post) as [ | x [ | y rest ] ] eqn:E;
    [ contradiction | | ].
  - inversion Hscalars as [ | ? ? Hx _ ]; subst.
    rewrite (cross_members_scalar x [] Hx). simpl.
    unfold scalar_members in Hx.
    induction Hx as [ | a ms Ha _ IH ]; simpl; [ reflexivity | ].
    rewrite IH. destruct a; try discriminate; reflexivity.
  - cbn [set_except_members]. rewrite map_map. simpl as_tuple.
    apply map_id.
Qed.

Lemma in_cross_members_scalar (f : PySet) (rest : list PySet)
  (t : list pyval) :
  scalar_members f ->
  In t (cross_members (f :: rest)) <->
    exists a t', In a (members f) /\ In t' (cross_members rest)
                 /\ t = a :: t'.
Proof.
  intros Hf. rewrite (cross_members_scalar f rest Hf), in_flat_map.
  split.
  - intros [a [Ha Ht]]. apply in_map_iff in Ht as [t' [<- Ht']].
    now exists a, t'.
  - intros [a [t' [Ha [Ht' ->]]]]. exists a. split; [ exact Ha | ].
    now apply in_map.
Qed.

(** The elements of the product with [s] held at [v] are the elements
    of the product that carry [v] at the offset of [s]. *)
Lemma in_cross_members_held (l r : list PySet) (v : pyval)
  (t : list pyval) :
  is_tuple v = false ->
  Forall scalar_members l ->
  scalar_members s ->
  In v (members s) ->
  In t (cross_members (l ++ held_at s v :: r)) <->
    In t (cross_members (l ++ s :: r)) /\ nth_error t (length l) = Some v.
Proof.
  intros Hv Hl Hs Hin. revert t.
  assert (Hheld : scalar_members (held_at s v)).
  { unfold scalar_members, held_at. simpl. now constructor. }
  induction Hl as [ | f l Hf _ IH ]; intros t; cbn [app length].
  - rewrite (in_cross_members_scalar _ _ _ Hheld),
      (in_cross_members_scalar _ _ _ Hs).
    split.
    + intros [a [t' [Ha [Ht' ->]]]]. simpl in Ha.
      destruct Ha as [ <- | [] ]. split; [ | reflexivity ].
      now exists v, t'.
    + intros [[a [t' [Ha [Ht' ->]]]] Hnth]. simpl in Hnth.
      injection Hnth as ->. exists v, t'. simpl. auto.
  - rewrite !(in_cross_members_scalar _ _ _ Hf).
    split.
    + intros [a [t' [Ha [Ht' ->]]]]. apply IH in Ht' as [Ht' Hnth].
      split; [ now exists a, t' | exact Hnth ].
    + intros [[a [t' [Ha [Ht' ->]]]] Hnth]. simpl in Hnth.
      exists a, t'. split; [ exact Ha | ]. split; [ | reflexivity ].
      apply IH. now split.
Qed.

(** X2.  Over 1-dimensional factors with scalar members the projection
    has the dimension of the entity less that of [s], and with one member
    [v] of [s] held fixed, completing the elements of the projection one
    after the other gives the enumeration of the index product with [s]
    cut down to [v], element by element; the elements of that enumeration
    are the elements of the entity's index product that carry [v] at the
    offset of [s]. *)
Theorem completer_enumerates_over_scalar_factors (v : pyval)
  (Hv : is_tuple v = false)
  (Hs : scalar_members s)
  (Hin : In v (members s)) :
  exists info,
    get_index_set_except comp [s] = Ok info
    /\ set_except_dimen (set_except info) = dim comp - total_dimen [s]
    /\ map (fun i => index_getter info i [v])
           (set_except_members (set_except info)) =
       map (fun t => Ok (PTuple t))
           (cross_members (pre ++ held_at s v :: post))
    /\ (forall t,
          In t (cross_members (pre ++ held_at s v :: post)) <->
          In (PTuple t) (index_set_members (index_set comp))
          /\ nth_error t (length pre) = Some v).
Proof.
  assert (Hpre : Forall scalar_members pre).
  { exact (proj1 (proj1 (Forall_app _ _ _) Hscalars)). }
  exists (mkInfo (projection_of (pre ++ post))
            (_complete_index [(length pre, 0)])).
  split; [ apply get_index_set_except_once | ].
  split; [ | split ].
  - cbn [set_except]. rewrite dim_one_dimensional.
    unfold total_dimen. simpl. rewrite dimen_kept.
    assert (Ho : Forall (fun f => dimen f = 1) (pre ++ post)).
    { apply Forall_app in Hone as [Hp Hs']. inversion Hs'; subst.
      apply Forall_app. now split. }
    pose proof (one_dimensional_sum _ Ho) as Hsum.
    unfold projection_of.
    destruct (pre ++ post) as [ | x [ | y rest ] ];
      [ contradiction | | ]; simpl in *; lia.
  - cbn [set_except index_getter].
    rewrite (cross_members_held pre post v Hv Hpre).
    rewrite <- set_except_members_projection.
    rewrite !map_map. apply map_ext. intros i.
    now apply complete_index_once.
  - intros t. rewrite (in_cross_members_held pre post v t Hv Hpre Hs Hin).
    rewrite Hindex. cbn [index_set_members].
    split; intros [Ht Hnth]; (split; [ | exact Hnth ]).
    + now apply in_map.
    + apply in_map_iff in Ht as [t' [[= ->] Ht']]. exact Ht'.
Qed.

End OneDimensional.

Section OneDimensionalExamples.

Import Examples.

(** The theorem at work on the variable indexed by
    [locations * time_set], at location A and time 1. *)
Lemma completer_recovers_value_witness :
  exists info full,
    get_index_set_except located_var [time_set] = Ok info
    /\ index_getter info (PStr "A") [PInt 1] = Ok (PTuple full)
    /\ get_location_of_coordinate_set (index_set located_var) time_set
         = Ok (Some 1)
    /\ nth_error full 1 = Some (PInt 1)
    /\ firstn 1 full = firstn 1 (as_tuple (PStr "A"))
    /\ skipn 2 full = skipn 1 (as_tuple (PStr "A")).
Proof.
  apply (completer_recovers_value_over_scalar_factors
           located_var [locations] [] time_set eq_refl).
  - repeat constructor.
  - repeat constructor.
  - discriminate.
  - reflexivity.
  - simpl. lia.
Defined.

(** The theorem at work on the same variable with time 1 held fixed:
    the completed indices are [(A, 1)] and [(B, 1)]. *)
Lemma completer_enumerates_witness :
  exists info,
    get_index_set_except located_var [time_set] = Ok info
    /\ set_except_dimen (set_except info) =
         dim located_var - total_dimen [time_set]
    /\ map (fun i => index_getter info i [PInt 1])
           (set_except_members (set_except info)) =
       map (fun t => Ok (PTuple t))
           (cross_members ([locations] ++ held_at time_set (PInt 1) :: [])).
Proof.
  destruct (completer_enumerates_over_scalar_factors
              located_var [locations] [] time_set eq_refl
              ltac:(repeat constructor) ltac:(repeat constructor)
              ltac:(discriminate) ltac:(repeat constructor)
              (PInt 1) eq_refl ltac:(repeat constructor)
              ltac:(simpl; auto))
    as [info [Hinfo [Hdim [Henum _]]]].
  exists info. now split; [ | split ].
Defined.

End OneDimensionalExamples.

(* ===================================================================== *)
(** ** Properties of the hierarchy functions *)
(* ===================================================================== *)

#[local] Arguments is_explicitly_indexed_by : simpl never.
#[local] Arguments get_index_of_set : simpl never.
#[local] Arguments get_location_of_coordinate_set : simpl never.
#[local] Arguments get_index_set_except : simpl never.

Section ImplicitIndex.

Variable m : Model.
Variable wrt : PySet.

Lemma is_explicitly_indexed_by_single (comp : Component) :
  is_explicitly_indexed_by comp [wrt] = Ok (explicitly_indexed comp wrt).
Proof.
  unfold explicitly_indexed, is_explicitly_indexed_by.
  destruct (negb (is_indexed comp)); [ reflexivity | ].
  cbn [length map nth Nat.eqb andb].
  destruct (dim comp <? list_sum [dimen wrt]); [ reflexivity | ].
  destruct (dimen wrt =? dim comp); [ reflexivity | ].
  destruct (index_set comp); reflexivity.
Qed.

(** The loop over the ancestors once a carrier has been found: any
    further carrier raises. *)
Lemma implicit_index_loop_found (blk : BlockRef) (val : option pyval) :
  implicit_index_loop m blk wrt val true =
    match filter (fun n => explicitly_indexed (fst n) wrt)
            (block_chain m blk) with
    | [] => Ok val
    | _ :: _ => Raise ValueError
    end.
Proof.
  induction blk as [ | step up IH ]; simpl; [ reflexivity | ].
  rewrite is_explicitly_indexed_by_single.
  destruct (explicitly_indexed _ wrt); simpl; [ reflexivity | apply IH ].
Qed.

(** The loop over the ancestors while no carrier has been found. *)
Lemma implicit_index_loop_fresh (blk : BlockRef) (val : option pyval) :
  implicit_index_loop m blk wrt val false =
    match filter (fun n => explicitly_indexed (fst n) wrt)
            (block_chain m blk) with
    | [] => Ok val
    | [(c, idx)] =>
        let? v := get_index_of_set c idx wrt in Ok (Some v)
    | (c, idx) :: _ :: _ =>
        let? v := get_index_of_set c idx wrt in Raise ValueError
    end.
Proof.
  revert val. induction blk as [ | step up IH ]; intros val; simpl;
    [ reflexivity | ].
  rewrite is_explicitly_indexed_by_single.
  destruct (explicitly_indexed _ wrt); simpl.
  - destruct (get_index_of_set _ _ _) as [ v | e ]; simpl.
    + rewrite implicit_index_loop_found.
      destruct (filter _ _); reflexivity.
    + destruct (filter _ _); reflexivity.
  - apply IH.
Qed.


End ImplicitIndex.


Section Resolution.

Variable tgt : Model.
Variable allow_miss : bool.

Lemma getattr_getitem_step (blk : BlockRef) (name : string) (idx : pyval) :
  (let? c := getattr tgt blk name in
   let? d := getitem tgt c idx in
   Ok (block_data c (index d))) =
    match find_comp tgt (mkRef blk name) with
    | None => Raise AttributeError
    | Some comp =>
        match find_key (data comp) idx with
        | None => Raise KeyError
        | Some _ => Ok ((name, idx) :: blk)
        end
    end.
Proof.
  unfold getattr, getitem, find_data. simpl.
  destruct (find_comp tgt (mkRef blk name)) as [ comp | ] eqn:E; simpl;
    [ | reflexivity ].
  rewrite E. destruct (find_key (data comp) idx); reflexivity.
Qed.

(** The loop of [find_comp_in_block] replays the path: it hands the block
    the path leads to over to the rest of the function, and ends the
    function at the first step that does not resolve. *)
Lemma find_loop_replay (route : list Step) (blk : BlockRef)
  (k : BlockRef -> result (option Entity)) :
  match replay tgt blk route with
  | Some blk' => find_loop tgt blk route allow_miss k = k blk'
  | None =>
      if allow_miss then find_loop tgt blk route allow_miss k = Ok None
      else exists e, StructuralMismatch e
                     /\ find_loop tgt blk route allow_miss k = Raise e
  end.
Proof.
  revert blk. induction route as [ | [name idx] route IH ]; intros blk;
    simpl; [ reflexivity | ].
  rewrite getattr_getitem_step.
  destruct (find_comp tgt (mkRef blk name)) as [ comp | ]; simpl.
  - destruct (find_key (data comp) idx); simpl.
    + apply IH.
    + destruct allow_miss; [ reflexivity | ].
      exists KeyError. split; [ now right | reflexivity ].
  - destruct allow_miss; [ reflexivity | ].
    exists AttributeError. split; [ now left | reflexivity ].
Qed.

(** C9.  [find_comp_in_block] replays the path of the source entity
    against the target block.  When a name or an index is missing at some
    step it returns [None] if [allow_miss] is true and raises the error of
    the failed lookup (a StructuralMismatch) if it is false; when every
    step resolves it returns the entity found in the target. *)
Theorem find_comp_in_block_spec (tgt_block src_block : BlockRef)
  (src_comp : Entity) :
  match resolve tgt tgt_block (path_from_block src_comp src_block false)
          (local_name (entity_component src_comp))
          (entity_index src_comp) with
  | Some found =>
      find_comp_in_block tgt tgt_block src_block src_comp allow_miss
        = Ok (Some found)
  | None =>
      if allow_miss then
        find_comp_in_block tgt tgt_block src_block src_comp allow_miss
          = Ok None
      else
        exists e, StructuralMismatch e
          /\ find_comp_in_block tgt tgt_block src_block src_comp allow_miss
               = Raise e
  end.
Proof.
  unfold find_comp_in_block, resolve.
  match goal with
  | |- context [find_loop tgt ?b ?r allow_miss ?k] =>
      pose proof (find_loop_replay r b k) as Hloop
  end.
  destruct (replay tgt tgt_block _) as [ blk | ]; [ | exact Hloop ].
  rewrite Hloop. clear Hloop.
  unfold getattr, getitem, find_data. simpl.
  destruct (find_comp tgt (mkRef blk _)) as [ comp | ] eqn:E; simpl.
  - destruct (entity_index src_comp) as [ idx | ]; [ | reflexivity ].
    rewrite E.
    destruct (find_key (data comp) idx); simpl; [ reflexivity | ].
    destruct allow_miss; [ reflexivity | ].
    exists KeyError. split; [ now right | reflexivity ].
  - destruct allow_miss.
    + now destruct (entity_index src_comp).
    + exists AttributeError. split; [ now left | ].
      now destruct (entity_index src_comp).
Qed.

Lemma blockref_longer (steps : list Step) (blk : BlockRef) :
  steps <> [] -> blockref_eqb (steps ++ blk) blk = false.
Proof.
  intros Hne. destruct (blockref_eqb (steps ++ blk) blk) eqn:E;
    [ | reflexivity ].
  apply blockref_eqb_eq in E. apply (f_equal (@length Step)) in E.
  rewrite length_app in E. destruct steps; [ contradiction | ].
  simpl in E. lia.
Qed.

(** From a block below [blk], the loop of [path_from_block] collects the
    steps between the two, outermost first. *)
Lemma route_loop_below (steps : list Step) (blk : BlockRef)
  (route : list Step) :
  route_loop (steps ++ blk) blk route = rev steps ++ route.
Proof.
  revert route. induction steps as [ | [name idx] steps IH ]; intros route.
  - simpl. destruct blk as [ | x blk ]; simpl.
    + reflexivity.
    + change (step_eqb x x && blockref_eqb blk blk)
        with (blockref_eqb (x :: blk) (x :: blk)).
      now rewrite blockref_eqb_refl.
  - pose proof (blockref_longer ((name, idx) :: steps) blk
                  ltac:(discriminate)) as Hlonger.
    cbn [app] in Hlonger. cbn [app route_loop]. rewrite Hlonger.
    rewrite IH. simpl. now rewrite <- app_assoc.
Qed.

Lemma replay_block (path : list Step) (root blk : BlockRef) :
  replay tgt root path = Some blk -> blk = rev path ++ root.
Proof.
  revert root. induction path as [ | [name idx] path IH ]; intros root;
    simpl.
  - now intros [= <-].
  - destruct (find_comp tgt (mkRef root name)) as [ comp | ];
      [ | discriminate ].
    destruct (find_key (data comp) idx); [ | discriminate ].
    intros H. apply IH in H. rewrite H. now rewrite <- app_assoc.
Qed.

(** X4.  When the source entity stands some steps below the source
    block, what [find_comp_in_block] finds stands the same steps below
    the target block, has the name and the index of the source entity,
    and is a component of the target. *)
Theorem find_comp_in_block_mirrors (tgt_block src_block : BlockRef)
  (steps : list Step) (src_comp found : Entity)
  (Hbelow : parent_block (entity_component src_comp) = steps ++ src_block)
  (Hfound :
     find_comp_in_block tgt tgt_block src_block src_comp allow_miss
       = Ok (Some found)) :
  entity_component found =
    mkRef (steps ++ tgt_block) (local_name (entity_component src_comp))
  /\ entity_index found = entity_index src_comp
  /\ find_comp tgt (entity_component found) <> None.
Proof.
  unfold find_comp_in_block, path_from_block in Hfound.
  rewrite Hbelow, route_loop_below, app_nil_r in Hfound.
  match type of Hfound with
  | find_loop tgt ?b ?r allow_miss ?k = _ =>
      pose proof (find_loop_replay r b k) as Hloop
  end.
  destruct (replay tgt tgt_block (rev steps)) as [ blk | ] eqn:Er.
  - apply replay_block in Er. rewrite rev_involutive in Er. subst blk.
    rewrite Hloop in Hfound. clear Hloop.
    unfold getattr, getitem, find_data in Hfound. simpl in Hfound.
    destruct (find_comp tgt (mkRef (steps ++ tgt_block) _))
      as [ comp | ] eqn:Ec; simpl in Hfound.
    + destruct (entity_index src_comp) as [ idx | ] eqn:Ei.
      * rewrite Ec in Hfound.
        destruct (find_key (data comp) idx); simpl in Hfound.
        -- injection Hfound as <-. simpl. rewrite Ec.
           repeat split; discriminate.
        -- destruct allow_miss; discriminate.
      * injection Hfound as <-. simpl. rewrite Ec.
        repeat split; discriminate.
    + destruct allow_miss; discriminate.
  - destruct allow_miss; [ congruence | ].
    destruct Hloop as [e [_ He]]. congruence.
Qed.

End Resolution.

(** The theorem at work: the record [unit[0].x[1]] of a model, looked
    for from the model in the model itself. *)
Lemma find_comp_in_block_mirrors_witness :
  entity_component (EData Examples.nested_record) =
    mkRef ([("unit", PInt 0)] ++ []) "x"
  /\ entity_index (EData Examples.nested_record) = Some (PInt 1)
  /\ find_comp Examples.nested_model
       (entity_component (EData Examples.nested_record)) <> None.
Proof.
  apply (find_comp_in_block_mirrors Examples.nested_model false [] []
           [("unit", PInt 0)] (EData Examples.nested_record)
           (EData Examples.nested_record));
    reflexivity.
Defined.

Section Deactivation.

Lemma check_points_not_member (cset : PySet) (pts : list pyval) :
  (exists pt, In pt pts /\ set_contains cset pt = false) ->
  check_points cset pts = Raise ValueError.
Proof.
  intros [pt [Hin Hpt]].
  induction pts as [ | p pts IH ]; [ contradiction | ]. simpl.
  destruct (set_contains cset p) eqn:E; simpl; [ | reflexivity ].
  destruct Hin as [ -> | Hin ]; [ congruence | now apply IH ].
Qed.

(** C10.  [deactivate_model_at] tests every requested point for
    membership in the set before it deactivates anything: when some
    requested point is not a member it raises, and the model (so the
    active flag of every record) is as it was; nothing is logged. *)
Theorem deactivate_model_at_rejects_before_deactivating (b : BlockRef)
  (cset : PySet) (pts : Points) (st : State)
  (Hpt : exists pt, In pt (points_list pts)
                    /\ set_contains cset pt = false) :
  deactivate_model_at b cset pts st = (st, Raise ValueError).
Proof.
  unfold deactivate_model_at, bind, lift.
  now rewrite (check_points_not_member _ _ Hpt).
Qed.

(** The theorem at work: time 9 is no member of the time set, time 0
    is. *)
Lemma deactivate_model_at_rejects_witness :
  deactivate_model_at [] Examples.time_set (PointList [PInt 0; PInt 9])
    (mkState Examples.nested_model [])
  = (mkState Examples.nested_model [], Raise ValueError).
Proof.
  apply deactivate_model_at_rejects_before_deactivating.
  exists (PInt 9). split; [ simpl; auto | reflexivity ].
Defined.

(** The example of the specification, a constraint indexed by
    [locations * hours]: excluding [hours] gives the projection
    [locations], the completer maps (A, 1) to (A, 1) and (B, 2) to
    (B, 2), and deactivating at hours 0 and 2 deactivates (A,0), (A,2),
    (B,0) and (B,2) and leaves (A,1) and (B,1) active. *)
Theorem deactivate_model_at_example :
  get_index_set_except
    (Examples.balance true true true true true true) [Examples.hours] =
    Ok (mkInfo (OtherSet Examples.locations) (_complete_index [(1, 0)]))
  /\ _complete_index [(1, 0)] (PStr "A") [PInt 1] =
       Ok (PTuple [PStr "A"; PInt 1])
  /\ _complete_index [(1, 0)] (PStr "B") [PInt 2] =
       Ok (PTuple [PStr "B"; PInt 2])
  /\ run (deactivate_model_at [] Examples.hours
            (PointList [PInt 0; PInt 2]))
         [(Examples.balance_ref,
           Examples.balance true true true true true true)] =
     (mkState
        [(Examples.balance_ref,
          Examples.balance false true false false true false)] [],
      Ok [(PInt 0,
           [mkDataRef Examples.balance_ref (PTuple [PStr "A"; PInt 0]);
            mkDataRef Examples.balance_ref (PTuple [PStr "B"; PInt 0])]);
          (PInt 2,
           [mkDataRef Examples.balance_ref (PTuple [PStr "A"; PInt 2]);
            mkDataRef Examples.balance_ref (PTuple [PStr "B"; PInt 2])])]).
Proof. repeat split. Qed.

End Deactivation.

(* ===================================================================== *)
(** ** Records and structure of a model *)
(* ===================================================================== *)

Section MapRecords.

Variable g : DataRef -> ComponentData -> ComponentData.

Lemma find_comp_map_records (m : Model) (c : CompRef) :
  find_comp (map_records g m) c = option_map (map_component g c) (find_comp m c).
Proof.
  induction m as [ | [c' comp] m IH ]; simpl; [ reflexivity | ].
  destruct (compref_eqb c' c) eqn:E; [ | exact IH ].
  apply compref_eqb_eq in E. now subst.
Qed.

Lemma find_key_map_component (c : CompRef) (comp : Component) (idx : pyval) :
  find_key (data (map_component g c comp)) idx =
    option_map (g (mkDataRef c idx)) (find_key (data comp) idx).
Proof.
  unfold map_component. simpl.
  induction (data comp) as [ | [k r] l IH ]; simpl; [ reflexivity | ].
  destruct (pyval_eqb k idx) eqn:E; [ | exact IH ].
  apply pyval_eqb_eq in E. now subst.
Qed.

Lemma find_data_map_records (m : Model) (d : DataRef) :
  find_data (map_records g m) d = option_map (g d) (find_data m d).
Proof.
  destruct d as [c idx]. unfold find_data. simpl.
  rewrite find_comp_map_records.
  destruct (find_comp m c) as [ comp | ]; simpl; [ | reflexivity ].
  apply find_key_map_component.
Qed.

Lemma index_set_component_of (m : Model) (c : CompRef) :
  index_set (component_of (map_records g m) c) = index_set (component_of m c).
Proof.
  unfold component_of. rewrite find_comp_map_records.
  now destruct (find_comp m c).
Qed.

Lemma keys_of_map_records (m : Model) (c : CompRef) :
  keys_of (map_records g m) c = keys_of m c.
Proof.
  unfold keys_of, component_of. rewrite find_comp_map_records.
  destruct (find_comp m c) as [ comp | ]; simpl; [ | reflexivity ].
  rewrite map_map. reflexivity.
Qed.

Lemma getattr_map_records (m : Model) (blk : BlockRef) (name : string) :
  getattr (map_records g m) blk name = getattr m blk name.
Proof.
  unfold getattr. rewrite find_comp_map_records.
  now destruct (find_comp m _).
Qed.

Lemma getitem_map_records (m : Model) (c : CompRef) (idx : pyval) :
  getitem (map_records g m) c idx = getitem m c idx.
Proof.
  unfold getitem. rewrite find_data_map_records.
  now destruct (find_data m _).
Qed.

Lemma follow_route_map_records (m : Model) (blk : BlockRef)
  (route : list Step) :
  follow_route (map_records g m) blk route = follow_route m blk route.
Proof.
  revert blk. induction route as [ | r route IH ]; intros blk; simpl;
    [ reflexivity | ].
  rewrite getattr_map_records.
  destruct (getattr m blk (fst r)) as [ c | e ]; simpl; [ | reflexivity ].
  rewrite getitem_map_records.
  destruct (getitem m c (snd r)) as [ d | e ]; simpl; [ | reflexivity ].
  apply IH.
Qed.

Lemma find_component_map_records (m : Model) (blk : BlockRef)
  (name : list Step * string) :
  find_component (map_records g m) blk name = find_component m blk name.
Proof.
  unfold find_component. rewrite follow_route_map_records.
  destruct (follow_route m blk (fst name)) as [ b | e ]; [ | reflexivity ].
  rewrite find_comp_map_records. now destruct (find_comp m _).
Qed.

Lemma filter_map_records (keep : CompRef * Component -> bool) (m : Model) :
  (forall c comp, keep (c, map_component g c comp) = keep (c, comp)) ->
  filter keep (map_records g m) = map_records g (filter keep m).
Proof.
  intros Hkeep. induction m as [ | [c comp] m IH ]; simpl; [ reflexivity | ].
  rewrite Hkeep. destruct (keep (c, comp)); simpl; now rewrite IH.
Qed.

Lemma component_objects_map_records (m : Model) (b : BlockRef)
  (ctypes : list Ctype) (descend_into : bool) :
  component_objects (map_records g m) b ctypes false descend_into =
    component_objects m b ctypes false descend_into.
Proof.
  unfold component_objects.
  rewrite (filter_map_records
             (yields m b ctypes false descend_into)).
  - unfold map_records. rewrite map_map. reflexivity.
  - reflexivity.
Qed.

Lemma component_data_objects_map_records (m : Model) (b : BlockRef)
  (ctypes : list Ctype) :
  component_data_objects (map_records g m) b ctypes =
    component_data_objects m b ctypes.
Proof.
  unfold component_data_objects.
  rewrite (filter_map_records (yields m b ctypes false true))
    by reflexivity.
  induction (filter _ m) as [ | [c comp] l IH ]; simpl; [ reflexivity | ].
  rewrite IH. f_equal. rewrite map_map. reflexivity.
Qed.

Hypothesis Hvalue : forall d r, value (g d r) = value r.

Lemma data_value_map_records (m : Model) (d : DataRef) :
  data_value (map_records g m) d = data_value m d.
Proof.
  unfold data_value, record_of. rewrite find_data_map_records.
  destruct (find_data m d) as [ r | ]; simpl; [ apply Hvalue | reflexivity ].
Qed.

Lemma item_value_map_records (c : CompRef) (idx : pyval) (m : Model) :
  item_value c idx (map_records g m) = item_value c idx m.
Proof.
  unfold item_value. rewrite getitem_map_records.
  destruct (getitem m c idx); simpl; [ | reflexivity ].
  now rewrite data_value_map_records.
Qed.

Lemma component_value_map_records (m : Model) (c : CompRef) :
  component_value (map_records g m) c = component_value m c.
Proof.
  unfold component_value. rewrite find_comp_map_records.
  destruct (find_comp m c) as [ comp | ]; simpl; [ | reflexivity ].
  unfold is_indexed. simpl.
  destruct (index_set comp); try reflexivity.
  destruct (ctype comp); try reflexivity.
  now rewrite data_value_map_records.
Qed.

Lemma mirrored_value_map_records (blk_source : CompRef)
  (source_index : pyval) (target_block : BlockRef) (var_target : DataRef)
  (m : Model) :
  mirrored_value blk_source source_index target_block var_target
    (map_records g m) =
  mirrored_value blk_source source_index target_block var_target m.
Proof.
  unfold mirrored_value. rewrite getitem_map_records.
  destruct (getitem m blk_source source_index) as [ sb | ]; simpl;
    [ | reflexivity ].
  rewrite follow_route_map_records.
  destruct (follow_route m _ _) as [ lp | ]; simpl; [ | reflexivity ].
  rewrite getattr_map_records.
  destruct (getattr m lp _) as [ c | ]; simpl; [ | reflexivity ].
  rewrite getitem_map_records.
  destruct (getitem m c _) as [ vs | ]; simpl; [ | reflexivity ].
  now rewrite data_value_map_records.
Qed.

End MapRecords.

Lemma is_explicitly_indexed_by_index_set (c1 c2 : Component)
  (sets : list PySet) :
  index_set c1 = index_set c2 ->
  is_explicitly_indexed_by c1 sets = is_explicitly_indexed_by c2 sets.
Proof.
  intros H. unfold is_explicitly_indexed_by, is_indexed, dim.
  now rewrite H.
Qed.

Lemma get_index_set_except_index_set (c1 c2 : Component)
  (sets : list PySet) :
  index_set c1 = index_set c2 ->
  get_index_set_except c1 sets = get_index_set_except c2 sets.
Proof.
  intros H. unfold get_index_set_except, dim.
  rewrite (is_explicitly_indexed_by_index_set c1 c2 sets H).
  now rewrite H.
Qed.

Lemma implicit_loop_map_records g (m : Model) (blk : BlockRef) (s : PySet)
  (stop_at : StopAt) :
  implicit_loop (map_records g m) blk s stop_at = implicit_loop m blk s stop_at.
Proof.
  induction blk as [ | [name idx] up IH ]; [ reflexivity | ].
  cbn [implicit_loop block_component].
  rewrite (is_explicitly_indexed_by_index_set
             (component_of (map_records g m) (mkRef up name))
             (component_of m (mkRef up name)) [s]
             (index_set_component_of g m _)).
  now rewrite IH.
Qed.

(** *** The structural readings of the copy operations *)

Section Structural.

Lemma structural_component_objects b ctypes descend_into :
  structural (fun m => component_objects m b ctypes false descend_into).
Proof. intros g m. apply component_objects_map_records. Qed.

Lemma structural_component_data_objects b ctypes :
  structural (fun m => component_data_objects m b ctypes).
Proof. intros g m. apply component_data_objects_map_records. Qed.

Lemma structural_explicit c sets :
  structural (fun m => is_explicitly_indexed_by (component_of m c) sets).
Proof.
  intros g m. apply is_explicitly_indexed_by_index_set,
    index_set_component_of.
Qed.

Lemma structural_implicit c s stop_at :
  structural (fun m => is_implicitly_indexed_by m c s stop_at).
Proof. intros g m. apply implicit_loop_map_records. Qed.

Lemma structural_dimen c :
  structural (fun m => index_set_dimen (index_set (component_of m c))).
Proof. intros g m. now rewrite index_set_component_of. Qed.

Lemma structural_index_set_except c sets :
  structural (fun m => get_index_set_except (component_of m c) sets).
Proof.
  intros g m. apply get_index_set_except_index_set, index_set_component_of.
Qed.

Lemma structural_keys_of c : structural (fun m => keys_of m c).
Proof. intros g m. apply keys_of_map_records. Qed.

Lemma structural_getitem c idx : structural (fun m => getitem m c idx).
Proof. intros g m. apply getitem_map_records. Qed.

Lemma structural_getattr blk name : structural (fun m => getattr m blk name).
Proof. intros g m. apply getattr_map_records. Qed.

Lemma structural_find_component blk name :
  structural (fun m => find_component m blk name).
Proof. intros g m. apply find_component_map_records. Qed.

Lemma structural_source_parent fs_tgt fs_src var_tgt :
  structural (source_parent fs_tgt fs_src var_tgt).
Proof.
  intros g m. unfold source_parent. now rewrite follow_route_map_records.
Qed.

Lemma reads_values_item_value c idx : reads_values (item_value c idx).
Proof. intros g m Hg. now apply item_value_map_records. Qed.

Lemma reads_values_component_value c :
  reads_values (fun m => component_value m c).
Proof. intros g m Hg. now apply component_value_map_records. Qed.

Lemma reads_values_mirrored_value blk_source source_index target_block
  var_target :
  reads_values
    (mirrored_value blk_source source_index target_block var_target).
Proof. intros g m Hg. now apply mirrored_value_map_records. Qed.

End Structural.

Lemma map_records_compose g h (m : Model) :
  map_records g (map_records h m) = map_records (fun d r => g d (h d r)) m.
Proof.
  unfold map_records. rewrite map_map. apply map_ext. intros [c comp].
  unfold map_component. simpl. rewrite map_map. reflexivity.
Qed.

Lemma map_records_ext g h (m : Model) :
  (forall d r, g d r = h d r) -> map_records g m = map_records h m.
Proof.
  intros H. unfold map_records. apply map_ext. intros [c comp].
  unfold map_component. simpl. f_equal. f_equal. apply map_ext.
  intros [k r]. simpl. now rewrite H.
Qed.

Lemma map_records_id g (m : Model) :
  (forall d r, g d r = r) -> map_records g m = m.
Proof.
  intros H. unfold map_records. rewrite <- (map_id m) at 2.
  apply map_ext. intros [c [t i a l]]. unfold map_component. simpl.
  f_equal. f_equal. rewrite <- (map_id l) at 2. apply map_ext.
  intros [k r]. simpl. now rewrite H.
Qed.

(* ===================================================================== *)
(** ** Running two computations in step *)
(* ===================================================================== *)

Section Simulation.

Variable R : Model -> Model -> Prop.

Lemma sim_ret {A} (a : A) : sim R (ret a) (ret a).
Proof. intros s1 s2 H. now split. Qed.

Lemma sim_lift {A} (r : result A) : sim R (lift r) (lift r).
Proof. intros s1 s2 H. now split. Qed.

Lemma sim_raise {A} (e : exn) : sim R (@raise A e) (raise e).
Proof. apply sim_lift. Qed.

Lemma sim_warning (d1 d2 : Diagnostic) : sim R (warning d1) (warning d2).
Proof. intros s1 s2 H. now split. Qed.

Lemma sim_bind {A B} (c1 c2 : M A) (k1 k2 : A -> M B) :
  sim R c1 c2 -> (forall a, sim R (k1 a) (k2 a)) ->
  sim R (bind c1 k1) (bind c2 k2).
Proof.
  intros Hc Hk s1 s2 H. unfold bind.
  destruct (Hc s1 s2 H) as [HR Hres].
  destruct (c1 s1) as [s1' r1], (c2 s2) as [s2' r2]. simpl in *. subst r2.
  destruct r1 as [ a | e ]; [ now apply Hk | now split ].
Qed.

Lemma sim_read {A} (f1 f2 : Model -> A) :
  (forall m1 m2, R m1 m2 -> f1 m1 = f2 m2) -> sim R (read f1) (read f2).
Proof.
  intros Hf s1 s2 H. split; [ exact H | ]. simpl. now rewrite (Hf _ _ H).
Qed.

Lemma sim_read_result {A} (f1 f2 : Model -> result A) :
  (forall m1 m2, R m1 m2 -> f1 m1 = f2 m2) ->
  sim R (read_result f1) (read_result f2).
Proof.
  intros Hf s1 s2 H. split; [ exact H | ]. simpl. now apply Hf.
Qed.

Lemma sim_modify (f1 f2 : Model -> Model) :
  (forall m1 m2, R m1 m2 -> R (f1 m1) (f2 m2)) ->
  sim R (modify f1) (modify f2).
Proof. intros Hf s1 s2 H. split; [ now apply Hf | reflexivity ]. Qed.

Lemma sim_for_each {A B} (l : list A) (acc : B) (b1 b2 : A -> B -> M B) :
  (forall x a, sim R (b1 x a) (b2 x a)) ->
  sim R (for_each l acc b1) (for_each l acc b2).
Proof.
  intros Hb. revert acc. induction l as [ | x l IH ]; intros acc; simpl.
  - apply sim_ret.
  - apply sim_bind; [ apply Hb | intros a; apply IH ].
Qed.

Lemma sim_for_unvisited {A} (same : A -> A -> bool) (l visited : list A)
  (b1 b2 : A -> M unit) :
  (forall x, sim R (b1 x) (b2 x)) ->
  sim R (for_unvisited same l visited b1) (for_unvisited same l visited b2).
Proof.
  intros Hb. revert visited.
  induction l as [ | x l IH ]; intros visited; simpl.
  - apply sim_ret.
  - destruct (existsb (same x) visited); [ apply IH | ].
    apply sim_bind; [ apply Hb | intros _; apply IH ].
Qed.

Hypothesis Hstructure : relates_structure R.

Lemma sim_read_structural {A} (f : Model -> A) :
  structural f -> sim R (read f) (read f).
Proof. intros Hf. apply sim_read. now apply Hstructure. Qed.

Lemma sim_read_result_structural {A} (f : Model -> result A) :
  structural f -> sim R (read_result f) (read_result f).
Proof. intros Hf. apply sim_read_result. now apply Hstructure. Qed.

Variable src : Source.

Lemma sim_read_source_structural {A} (f : Model -> A) :
  structural f -> sim R (read_source src f) (read_source src f).
Proof.
  intros Hf. apply sim_read. intros m1 m2 H.
  destruct src; simpl; [ reflexivity | now apply Hstructure ].
Qed.

Lemma sim_read_source_result_structural {A} (f : Model -> result A) :
  structural f ->
  sim R (read_source_result src f) (read_source_result src f).
Proof.
  intros Hf. apply sim_read_result. intros m1 m2 H.
  destruct src; simpl; [ reflexivity | now apply Hstructure ].
Qed.

Hypothesis Hsource : relates_source R src.

Lemma source_value_same {A} (f : Model -> A) (m1 m2 : Model) :
  reads_values f -> R m1 m2 ->
  f (source_model src m1) = f (source_model src m2).
Proof.
  intros Hf H. destruct src; simpl; [ reflexivity | ].
  now apply Hsource.
Qed.

End Simulation.

(* ===================================================================== *)
(** ** Statements about one computation *)
(* ===================================================================== *)

Section Triples.

Lemma triple_ret {A} (P : State -> Prop) (a : A) (Q : A -> State -> Prop)
  (E : State -> Prop) :
  (forall st, P st -> Q a st) -> triple P (ret a) Q E.
Proof. intros H st HP. now apply H. Qed.

Lemma triple_bind {A B} (P : State -> Prop) (c : M A) (k : A -> M B)
  (Q1 : A -> State -> Prop) (Q : B -> State -> Prop) (E : State -> Prop) :
  triple P c Q1 E -> (forall a, triple (Q1 a) (k a) Q E) ->
  triple P (bind c k) Q E.
Proof.
  intros Hc Hk st HP. specialize (Hc st HP). unfold bind.
  destruct (c st) as [st' [ a | e ]]; cbn [fst snd] in *.
  - now apply Hk.
  - exact Hc.
Qed.

Lemma triple_read {A} (P : State -> Prop) (f : Model -> A)
  (Q : A -> State -> Prop) (E : State -> Prop) :
  (forall st, P st -> Q (f (target st)) st) -> triple P (read f) Q E.
Proof. intros H st HP. now apply H. Qed.

Lemma triple_read_result {A} (P : State -> Prop) (f : Model -> result A)
  (Q : A -> State -> Prop) (E : State -> Prop) :
  (forall st, P st ->
     match f (target st) with Ok a => Q a st | Raise _ => E st end) ->
  triple P (read_result f) Q E.
Proof. intros H st HP. exact (H st HP). Qed.

Lemma triple_for_each {A B} (l : list A) (body : A -> B -> M B)
  (Inv : B -> State -> Prop) (E : State -> Prop) :
  (forall x acc, In x l -> triple (Inv acc) (body x acc) Inv E) ->
  forall acc, triple (Inv acc) (for_each l acc body) Inv E.
Proof.
  induction l as [ | x l IH ]; intros Hbody acc; cbn [for_each].
  - now apply triple_ret.
  - apply (triple_bind _ _ _ Inv).
    + apply Hbody. now left.
    + intros acc'. apply IH. intros y acc'' Hy. apply Hbody. now right.
Qed.

End Triples.

(* ===================================================================== *)
(** ** The copy operations in step on two models *)
(* ===================================================================== *)

(** What the copy of a record does to a state, for a record reached
    through its component and index. *)
Lemma copy_to_item_run (src : Source) (cf : bool) (c : CompRef)
  (idx : pyval) (val : Model -> result (option Z)) (st : State) :
  copy_to_item src cf c idx val st =
  match find_data (target st) (mkDataRef c idx) with
  | None => (st, Raise KeyError)
  | Some r =>
      if negb cf && fixed r then (st, Ok tt)
      else
        match val (source_model src (target st)) with
        | Ok v =>
            (mkState
               (update_data (fun r => mkData v (fixed r) (active r))
                  (mkDataRef c idx) (target st))
               (log st), Ok tt)
        | Raise e => (st, Raise e)
        end
  end.
Proof.
  unfold copy_to_item, skip_fixed, read_source_result, bind, read_result,
    read, lift, ret, set_value, modify, getitem, data_fixed, record_of.
  destruct cf; cbn [negb andb];
    destruct (find_data (target st) (mkDataRef c idx)) as [ r | ] eqn:E;
    cbn [target]; rewrite ?E; cbn [fixed];
    try destruct (fixed r); cbn [target]; rewrite ?E;
    try destruct (val (source_model src (target st))); reflexivity.
Qed.

(** The same for a data object in hand. *)
Lemma copy_to_data_run (src : Source) (cf : bool) (d : DataRef)
  (val : Model -> result (option Z)) (st : State) :
  copy_to_data src cf d val st =
  if negb cf && data_fixed (target st) d then (st, Ok tt)
  else
    match val (source_model src (target st)) with
    | Ok v =>
        (mkState
           (update_data (fun r => mkData v (fixed r) (active r)) d
              (target st))
           (log st), Ok tt)
    | Raise e => (st, Raise e)
    end.
Proof.
  unfold copy_to_data, read_source_result, bind, read_result, read, lift,
    ret, set_value, modify.
  destruct cf; cbn [negb andb target].
  - destruct (val (source_model src (target st))); reflexivity.
  - destruct (data_fixed (target st) d); [ reflexivity | ].
    cbn [target]. destruct (val (source_model src (target st)));
      reflexivity.
Qed.

Lemma find_data_update_data (f : ComponentData -> ComponentData)
  (d : DataRef) (m : Model) :
  find_data (update_data f d m) d = option_map f (find_data m d).
Proof.
  unfold update_data. rewrite find_data_map_records.
  now rewrite dataref_eqb_refl.
Qed.

Section CopyInStep.

Variable R : Model -> Model -> Prop.
Variables cf1 cf2 : bool.
Variable src : Source.

Hypothesis Hstructure : relates_structure R.
Hypothesis Hsource : relates_source R src.
Hypothesis Hgate : same_gate R cf1 cf2.
Hypothesis Hwrite : write_through R cf1.

Lemma sim_copy_to_item (c : CompRef) (idx : pyval)
  (val : Model -> result (option Z)) :
  reads_values val ->
  sim R (copy_to_item src cf1 c idx val) (copy_to_item src cf2 c idx val).
Proof.
  intros Hval s1 s2 H. rewrite !copy_to_item_run.
  rewrite <- (source_value_same R src Hsource val _ _ Hval H).
  destruct (Hgate _ _ (mkDataRef c idx) H) as [Hnone Hskip].
  pose proof (fun v => Hwrite _ _ (mkDataRef c idx) v H) as Hw.
  unfold data_fixed, record_of in Hskip, Hw.
  destruct (find_data (target s1) (mkDataRef c idx)) as [ r1 | ];
    destruct (find_data (target s2) (mkDataRef c idx)) as [ r2 | ];
    try (exfalso; destruct Hnone as [Ha Hb];
         first [ now specialize (Ha eq_refl) | now specialize (Hb eq_refl) ]).
  - rewrite <- Hskip.
    destruct (negb cf1 && fixed r1) eqn:Eg; [ now split | ].
    destruct (val (source_model src (target s1))) as [ v | e ];
      [ | now split ].
    split; [ now apply Hw | reflexivity ].
  - now split.
Qed.

Lemma sim_copy_to_data (d : DataRef) (val : Model -> result (option Z)) :
  reads_values val ->
  sim R (copy_to_data src cf1 d val) (copy_to_data src cf2 d val).
Proof.
  intros Hval s1 s2 H. rewrite !copy_to_data_run.
  rewrite <- (source_value_same R src Hsource val _ _ Hval H).
  destruct (Hgate _ _ d H) as [_ Hskip].
  rewrite <- Hskip.
  destruct (negb cf1 && data_fixed (target s1) d) eqn:Eg; [ now split | ].
  destruct (val (source_model src (target s1))) as [ v | e ];
    [ | now split ].
  split; [ now apply Hwrite | reflexivity ].
Qed.

Lemma sim_copy_item (tgt_comp : CompRef) (tgt_idx : pyval)
  (src_comp : CompRef) (src_idx : pyval) :
  sim R (copy_item src cf1 tgt_comp tgt_idx src_comp src_idx)
        (copy_item src cf2 tgt_comp tgt_idx src_comp src_idx).
Proof. apply sim_copy_to_item, reads_values_item_value. Qed.

Ltac structural_read :=
  first
    [ apply structural_component_objects
    | apply structural_component_data_objects
    | apply structural_explicit
    | apply structural_implicit
    | apply structural_dimen
    | apply structural_index_set_except
    | apply structural_keys_of
    | apply structural_getitem
    | apply structural_getattr
    | apply structural_find_component
    | apply structural_source_parent ].

Ltac in_step :=
  repeat first
    [ apply sim_ret
    | apply sim_lift
    | apply sim_raise
    | apply sim_warning
    | apply sim_copy_item
    | apply sim_copy_to_item; apply reads_values_component_value
    | apply sim_copy_to_data; apply reads_values_mirrored_value
    | apply sim_read_source_structural; [ exact Hstructure | structural_read ]
    | apply sim_read_source_result_structural;
        [ exact Hstructure | structural_read ]
    | apply sim_read_structural; [ exact Hstructure | structural_read ]
    | apply sim_read_result_structural; [ exact Hstructure | structural_read ]
    | progress cbv zeta
    | apply sim_bind; [ | intros ? ]
    | apply sim_for_each; intros ? ?
    | apply sim_for_unvisited; intros ?
    | match goal with
      | |- sim _ (if ?b then _ else _) (if ?b then _ else _) => destruct b
      | |- sim _ (match ?x with _ => _ end) (match ?x with _ => _ end) =>
          destruct x
      end ].

Variables fs_tgt fs_src : Flowsheet.

Lemma sim_copy_flowsheet_var (var_tgt : CompRef) :
  sim R (copy_flowsheet_var fs_tgt fs_src src cf1 var_tgt)
        (copy_flowsheet_var fs_tgt fs_src src cf2 var_tgt).
Proof. unfold copy_flowsheet_var. in_step. Qed.

Lemma sim_copy_block_var (var_tgt : CompRef) :
  sim R (copy_block_var fs_tgt fs_src src cf1 var_tgt)
        (copy_block_var fs_tgt fs_src src cf2 var_tgt).
Proof. unfold copy_block_var. in_step. Qed.

Lemma sim_copy_untimed_block (blk_tgt : CompRef) :
  sim R (copy_untimed_block fs_tgt fs_src src cf1 blk_tgt)
        (copy_untimed_block fs_tgt fs_src src cf2 blk_tgt).
Proof.
  unfold copy_untimed_block. in_step; apply sim_copy_block_var.
Qed.

Theorem sim_copy_non_time_indexed_values :
  sim R (copy_non_time_indexed_values fs_tgt fs_src src cf1)
        (copy_non_time_indexed_values fs_tgt fs_src src cf2).
Proof.
  unfold copy_non_time_indexed_values.
  in_step; first [ apply sim_copy_flowsheet_var
                 | apply sim_copy_untimed_block ].
Qed.

Variables t_target t_source : pyval.

Lemma sim_copy_var_at_time (var_target : CompRef) :
  sim R (copy_var_at_time fs_tgt fs_src src t_target t_source cf1 var_target)
        (copy_var_at_time fs_tgt fs_src src t_target t_source cf2 var_target).
Proof. unfold copy_var_at_time. in_step. Qed.

Lemma sim_copy_block_data (blk_target blk_source : CompRef)
  (target_index source_index : pyval) :
  sim R (copy_block_data src cf1 blk_target blk_source
           target_index source_index)
        (copy_block_data src cf2 blk_target blk_source
           target_index source_index).
Proof. unfold copy_block_data. in_step. Qed.

Lemma sim_copy_block_at_time (blk_target : CompRef) :
  sim R (copy_block_at_time fs_tgt fs_src src t_target t_source cf1
           blk_target)
        (copy_block_at_time fs_tgt fs_src src t_target t_source cf2
           blk_target).
Proof.
  unfold copy_block_at_time. in_step; apply sim_copy_block_data.
Qed.

Theorem sim_copy_values_at_time :
  sim R (copy_values_at_time fs_tgt fs_src src t_target t_source cf1)
        (copy_values_at_time fs_tgt fs_src src t_target t_source cf2).
Proof.
  unfold copy_values_at_time.
  in_step; first [ apply sim_copy_var_at_time
                 | apply sim_copy_block_at_time ].
Qed.

End CopyInStep.

(* ===================================================================== *)
(** ** Fixed records, idempotence and missing sources *)
(* ===================================================================== *)

Section Overlay.

Lemma update_overlay (p : DataRef -> option (option Z)) (d : DataRef)
  (v : option Z) (m : Model) :
  update_data (fun r => mkData v (fixed r) (active r)) d (overlay p m) =
    overlay (fun d' => if dataref_eqb d' d then Some v else p d') m.
Proof.
  unfold update_data, overlay. rewrite map_records_compose.
  apply map_records_ext. intros d' r.
  destruct (dataref_eqb d' d); [ | reflexivity ].
  now destruct (p d').
Qed.

Lemma overlay_nothing (m : Model) : overlay (fun _ => None) m = m.
Proof. unfold overlay. now apply map_records_id. Qed.

Lemma overlay_twice (p : DataRef -> option (option Z)) (m : Model) :
  overlay p (overlay p m) = overlay p m.
Proof.
  unfold overlay. rewrite map_records_compose.
  apply map_records_ext. intros d r. now destruct (p d).
Qed.

Lemma erase_values_overlay (p : DataRef -> option (option Z)) (m : Model) :
  erase_values (overlay p m) = erase_values m.
Proof.
  unfold erase_values, overlay. rewrite map_records_compose.
  apply map_records_ext. intros d r. now destruct (p d).
Qed.

Lemma structural_erase_values {A} (f : Model -> A) (m1 m2 : Model) :
  structural f -> erase_values m1 = erase_values m2 -> f m1 = f m2.
Proof.
  intros Hf He.
  transitivity (f (erase_values m1)); [ symmetry; apply Hf | ].
  rewrite He. apply Hf.
Qed.

Lemma find_data_erase_values (m1 m2 : Model) (d : DataRef) :
  erase_values m1 = erase_values m2 ->
  (find_data m1 d = None <-> find_data m2 d = None)
  /\ data_fixed m1 d = data_fixed m2 d.
Proof.
  intros He.
  assert (Hd : find_data (erase_values m1) d = find_data (erase_values m2) d)
    by now rewrite He.
  unfold erase_values in Hd. rewrite !find_data_map_records in Hd.
  unfold data_fixed, record_of.
  destruct (find_data m1 d) as [ r1 | ], (find_data m2 d) as [ r2 | ];
    simpl in Hd; try discriminate.
  - split; [ split; discriminate | ]. now injection Hd.
  - split; [ tauto | reflexivity ].
Qed.

Variables t1 t2 : Model.
Hypothesis Hsame : erase_values t1 = erase_values t2.

Lemma same_plan_erase_values (m1 m2 : Model) :
  same_plan t1 t2 m1 m2 -> erase_values m1 = erase_values m2.
Proof.
  intros [p [-> ->]]. now rewrite !erase_values_overlay.
Qed.

Lemma same_plan_structure : relates_structure (same_plan t1 t2).
Proof.
  intros A f Hf m1 m2 H.
  apply structural_erase_values; [ exact Hf | ].
  now apply same_plan_erase_values.
Qed.

Lemma same_plan_gate (cf : bool) : same_gate (same_plan t1 t2) cf cf.
Proof.
  intros m1 m2 d H. apply same_plan_erase_values in H.
  destruct (find_data_erase_values m1 m2 d H) as [Hn Hf].
  split; [ exact Hn | now rewrite Hf ].
Qed.

Lemma same_plan_write (cf : bool) : write_through (same_plan t1 t2) cf.
Proof.
  intros m1 m2 d v [p [-> ->]] _.
  exists (fun d' => if dataref_eqb d' d then Some v else p d').
  now rewrite !update_overlay.
Qed.

End Overlay.

Section Unfixed.

Lemma unfixed_structure : relates_structure unfixed_of.
Proof.
  intros A f Hf m1 m2 ->. unfold unfix_all. now rewrite Hf.
Qed.

Lemma unfixed_gate (cf : bool) : same_gate unfixed_of true cf.
Proof.
  intros m1 m2 d ->. unfold unfix_all, data_fixed, record_of.
  rewrite find_data_map_records.
  destruct (find_data m1 d) as [ r | ]; simpl.
  - split; [ split; discriminate | ]. now rewrite andb_false_r.
  - split; [ tauto | ]. now rewrite andb_false_r.
Qed.

Lemma unfixed_source (src : Source) : relates_source unfixed_of src.
Proof.
  destruct src; simpl; [ exact I | ].
  intros A f Hf m1 m2 ->. unfold unfix_all. now rewrite Hf.
Qed.

Lemma unfixed_write : write_through unfixed_of true.
Proof.
  intros m1 m2 d v -> _. unfold unfixed_of, unfix_all, update_data.
  rewrite !map_records_compose. apply map_records_ext. intros d' r.
  now destruct (dataref_eqb d' d).
Qed.

End Unfixed.

Section Kept.

Variable tgt : Model.

Lemma kept_structure : relates_structure (kept tgt).
Proof. intros A f _ m1 m2 [-> _]. reflexivity. Qed.

Lemma kept_source (src : Source) : relates_source (kept tgt) src.
Proof.
  destruct src; simpl; [ exact I | ].
  intros A f _ m1 m2 [-> _]. reflexivity.
Qed.

Lemma kept_gate : same_gate (kept tgt) false false.
Proof. intros m1 m2 d [-> _]. now split. Qed.

Lemma kept_write : write_through (kept tgt) false.
Proof.
  intros m1 m2 d v [<- Hkeep] Hfree. split; [ reflexivity | ].
  intros d' r Hd' Hfixed. unfold update_data.
  rewrite find_data_map_records, (Hkeep d' r Hd' Hfixed). simpl.
  destruct (dataref_eqb d' d) eqn:E; [ | reflexivity ].
  apply dataref_eqb_eq in E. subst d'. exfalso.
  unfold data_fixed, record_of in Hfree.
  rewrite (Hkeep d r Hd' Hfixed) in Hfree. simpl in Hfree. congruence.
Qed.

End Kept.

Section Protection.

Variables fs_tgt fs_src : Flowsheet.
Variable src : Source.
Variable other : Model.
Variables t_target t_source : pyval.

(** What a run of two computations in step says about their final
    models and outcomes. *)
Lemma sim_run (R : Model -> Model -> Prop) {A} (c1 c2 : M A)
  (m1 m2 : Model) :
  sim R c1 c2 -> R m1 m2 ->
  R (final_model c1 m1) (final_model c2 m2)
  /\ outcome c1 m1 = outcome c2 m2.
Proof. intros Hsim H. apply (Hsim (mkState m1 []) (mkState m2 [])), H. Qed.

(** X25.  The gate of the copy operations, for a source in a model of its
    own or in the model being changed and whatever the outcome.  With
    [copy_fixed=False] both operations leave every fixed record of the
    target as it is.  With [copy_fixed=True] the fixed flags play no
    part in either operation: its final values and its outcome are those
    of the operation with [copy_fixed=False] on the target with every
    record unfixed. *)
Theorem fixed_record_protection (tgt : Model) :
  (keeps_fixed_records tgt
     (final_model (copy_non_time_indexed_values fs_tgt fs_src src false) tgt)
   /\ keeps_fixed_records tgt
        (final_model
           (copy_values_at_time fs_tgt fs_src src t_target t_source false)
           tgt))
  /\ (unfix_all
        (final_model (copy_non_time_indexed_values fs_tgt fs_src src true)
           tgt) =
      final_model (copy_non_time_indexed_values fs_tgt fs_src src false)
        (unfix_all tgt)
      /\ outcome (copy_non_time_indexed_values fs_tgt fs_src src true) tgt =
         outcome (copy_non_time_indexed_values fs_tgt fs_src src false)
           (unfix_all tgt))
  /\ (unfix_all
        (final_model
           (copy_values_at_time fs_tgt fs_src src t_target t_source true)
           tgt) =
      final_model
        (copy_values_at_time fs_tgt fs_src src t_target t_source false)
        (unfix_all tgt)
      /\ outcome
           (copy_values_at_time fs_tgt fs_src src t_target t_source true)
           tgt =
         outcome
           (copy_values_at_time fs_tgt fs_src src t_target t_source false)
           (unfix_all tgt)).
Proof.
  assert (Hkept : kept tgt tgt tgt).
  { split; [ reflexivity | ]. intros d r Hd _. exact Hd. }
  split; [ split | split ].
  - apply (sim_run (kept tgt) _ _ tgt tgt
             (sim_copy_non_time_indexed_values (kept tgt) false false src
                (kept_structure tgt) (kept_source tgt src) (kept_gate tgt)
                (kept_write tgt) fs_tgt fs_src) Hkept).
  - apply (sim_run (kept tgt) _ _ tgt tgt
             (sim_copy_values_at_time (kept tgt) false false src
                (kept_structure tgt) (kept_source tgt src) (kept_gate tgt)
                (kept_write tgt) fs_tgt fs_src t_target t_source) Hkept).
  - destruct (sim_run unfixed_of _ _ tgt (unfix_all tgt)
                (sim_copy_non_time_indexed_values unfixed_of true false src
                   unfixed_structure (unfixed_source src)
                   (unfixed_gate false) unfixed_write fs_tgt fs_src)
                eq_refl) as [Hm Ho].
    split; [ now symmetry | exact Ho ].
  - destruct (sim_run unfixed_of _ _ tgt (unfix_all tgt)
                (sim_copy_values_at_time unfixed_of true false src
                   unfixed_structure (unfixed_source src)
                   (unfixed_gate false) unfixed_write fs_tgt fs_src
                   t_target t_source) eq_refl) as [Hm Ho].
    split; [ now symmetry | exact Ho ].
Qed.

(** The operation writes one plan of values over the target, and would
    write the same plan over any model of the same structure and flags. *)
Lemma copy_values_at_time_plan (copy_fixed : bool) (m1 m2 : Model) :
  erase_values m1 = erase_values m2 ->
  (exists p,
      final_model
        (copy_values_at_time fs_tgt fs_src (OtherModel other) t_target t_source copy_fixed)
        m1 = overlay p m1
      /\ final_model
           (copy_values_at_time fs_tgt fs_src (OtherModel other) t_target t_source
              copy_fixed) m2 = overlay p m2)
  /\ outcome
       (copy_values_at_time fs_tgt fs_src (OtherModel other) t_target t_source copy_fixed)
       m1 =
     outcome
       (copy_values_at_time fs_tgt fs_src (OtherModel other) t_target t_source copy_fixed)
       m2.
Proof.
  intros Hsame.
  apply (sim_run (same_plan m1 m2) _ _ m1 m2
           (sim_copy_values_at_time (same_plan m1 m2) copy_fixed copy_fixed
              (OtherModel other)
              (same_plan_structure m1 m2 Hsame) I
              (same_plan_gate m1 m2 Hsame copy_fixed)
              (same_plan_write m1 m2 copy_fixed)
              fs_tgt fs_src t_target t_source)).
  exists (fun _ => None). now rewrite !overlay_nothing.
Qed.


End Protection.

Section MissingSource.

Variables fs_tgt fs_src : Flowsheet.
Variable src : Source.
Variables t_target t_source : pyval.
Variable copy_fixed : bool.

(** X3.  Where [copy_values_at_time] looks a name up with
    [find_component],
    a variable or block of the target that is explicitly indexed by time
    and whose name does not resolve in the source costs one warning: the
    target is not touched and the loop goes on. *)
Theorem copy_values_at_time_logs_missing_source (c : CompRef) (st : State)
  (Hexplicit :
     is_explicitly_indexed_by (component_of (target st) c) [time fs_tgt]
       = Ok true)
  (Hmissing :
     find_component (source_model src (target st)) (fs_block fs_src)
       (getname c (fs_block fs_tgt)) = None) :
  copy_var_at_time fs_tgt fs_src src t_target t_source copy_fixed c st =
    (mkState (target st)
       (log st ++
        [MissingSourceWarning (fst (getname c (fs_block fs_tgt)))
           (snd (getname c (fs_block fs_tgt))) (fs_name fs_src)]),
     Ok tt)
  /\ copy_block_at_time fs_tgt fs_src src t_target t_source copy_fixed c st =
       (mkState (target st)
          (log st ++
           [MissingSourceWarning (fst (getname c (fs_block fs_tgt)))
              (snd (getname c (fs_block fs_tgt))) (fs_name fs_src)]),
        Ok tt).
Proof.
  unfold copy_var_at_time, copy_block_at_time, read_source, bind,
    read_result, read.
  rewrite Hexplicit. cbn [negb target]. rewrite Hmissing.
  split; reflexivity.
Qed.

End MissingSource.

Section Examples.

Import Examples.

(** The theorem at work: [z] is indexed by time in the target and
    missing in the source. *)
Lemma copy_values_at_time_logs_missing_source_witness :
  copy_var_at_time flowsheet flowsheet (OtherModel source_w)
    (PInt 1) (PInt 0) true
    (mkRef fs_ref "z") (mkState target_zw []) =
    (mkState target_zw [MissingSourceWarning [] "z" "fs"], Ok tt)
  /\ copy_block_at_time flowsheet flowsheet (OtherModel source_w)
       (PInt 1) (PInt 0) true
       (mkRef fs_ref "z") (mkState target_zw []) =
       (mkState target_zw [MissingSourceWarning [] "z" "fs"], Ok tt).
Proof.
  apply (copy_values_at_time_logs_missing_source flowsheet flowsheet
           (OtherModel source_w) (PInt 1) (PInt 0) true (mkRef fs_ref "z")
           (mkState target_zw []));
    reflexivity.
Defined.

(** The whole operation on that target: one warning for [z], and [w] is
    copied from time 0 of the source to time 1 of the target. *)
Example copy_values_at_time_missing_variable :
  run (copy_values_at_time flowsheet flowsheet (OtherModel source_w)
         (PInt 1) (PInt 0) true) target_zw =
  (mkState
     [ (mkRef [] "fs", scalar Block block_record);
       (mkRef fs_ref "z", timed_var 1 2);
       (mkRef fs_ref "w", timed_var 3 30) ]
     [MissingSourceWarning [] "z" "fs"], Ok tt).
Proof. reflexivity. Qed.

(** The theorem at work: [y] is fixed in the target and has another value
    in the source; after [copy_non_time_indexed_values] with
    [copy_fixed=False] its record is what it was. *)
Lemma fixed_record_protection_witness :
  find_data
    (final_model
       (copy_non_time_indexed_values flowsheet flowsheet
          (OtherModel source_xy) false)
       target_fixed_y)
    y_record = Some (fixed_record 2).
Proof.
  apply (proj1 (proj1 (fixed_record_protection flowsheet flowsheet
                         (OtherModel source_xy)
                         (PInt 1) (PInt 0) target_fixed_y)));
    reflexivity.
Defined.

(** With [copy_fixed=True] the fixed [y] takes the source value 20, and
    so does the unfixed [x] take 10. *)
Example copy_fixed_overwrites :
  final_model
    (copy_non_time_indexed_values flowsheet flowsheet
       (OtherModel source_xy) true)
    target_fixed_y =
  [ (mkRef [] "fs", scalar Block block_record);
    (mkRef fs_ref "x", scalar Var (record 10));
    (mkRef fs_ref "y", scalar Var (fixed_record 20)) ].
Proof. reflexivity. Qed.

(** Copying the values at time 0 of the block [unit] to time 1. *)
Example copy_values_at_time_example :
  run (copy_values_at_time flowsheet flowsheet (OtherModel target_unit)
         (PInt 1) (PInt 0) true) target_unit =
  (mkState
     [ (mkRef [] "fs", scalar Block block_record);
       (mkRef fs_ref "unit", timed_block);
       (mkRef (unit_at 0) "x", scalar Var (record 1));
       (mkRef (unit_at 0) "y", scalar Var (record 2));
       (mkRef (unit_at 1) "x", scalar Var (record 1));
       (mkRef (unit_at 1) "y", scalar Var (record 2)) ]
     [], Ok tt).
Proof. reflexivity. Qed.

(** Copying within one flowsheet from time 0 to time 1. *)
Example copy_values_at_time_within_one_model :
  final_model
    (copy_values_at_time flowsheet flowsheet SameModel (PInt 1) (PInt 0)
       true) target_unit =
  [ (mkRef [] "fs", scalar Block block_record);
    (mkRef fs_ref "unit", timed_block);
    (mkRef (unit_at 0) "x", scalar Var (record 1));
    (mkRef (unit_at 0) "y", scalar Var (record 2));
    (mkRef (unit_at 1) "x", scalar Var (record 1));
    (mkRef (unit_at 1) "y", scalar Var (record 2)) ].
Proof. reflexivity. Qed.

(** Where the source is the flowsheet being changed, an invocation can
    change values it has read as source values before, and then the
    source values are not what they were when the operation is invoked
    again: in the model [uneven], whose [outer[1].inner] is not indexed
    by time, the first invocation copies [outer[0].inner[1].x] to
    [outer[1].inner[1].x] and then overwrites [outer[0].inner[1].x]; the
    second invocation copies the new value. *)
Example copy_values_at_time_source_changed :
  final_model
    (copy_values_at_time flowsheet flowsheet SameModel (PInt 1) (PInt 0)
       true) (uneven 1 2 3 4) = uneven 1 1 1 2
  /\ final_model
       (copy_values_at_time flowsheet flowsheet SameModel (PInt 1) (PInt 0)
          true) (uneven 1 1 1 2) = uneven 1 1 1 1.
Proof. split; reflexivity. Qed.

(** C1 (the code falls short of it).  The target flowsheet has the
    variables [x] and [y], the source has [y] only.  For the missing [x],
    [copy_non_time_indexed_values] builds its warning from the name
    [varname], which the function never binds: a [NameError] escapes, no
    diagnostic is logged and [y], which the source has, is not copied.
    In [copy_values_at_time] the lookups below a time-indexed block are
    not guarded: with [x] missing in the source's [unit[0]] an
    [AttributeError] escapes, nothing is logged and [y] is not copied. *)
Theorem copy_raises_on_missing_source :
  run (copy_non_time_indexed_values flowsheet flowsheet
         (OtherModel source_y) true)
      target_xy
    = (mkState target_xy [], Raise NameError)
  /\ find_comp source_y (mkRef fs_ref "y") = Some (scalar Var (record 20))
  /\ find_comp target_xy (mkRef fs_ref "y") = Some (scalar Var (record 2))
  /\ run (copy_values_at_time flowsheet flowsheet (OtherModel source_unit)
            (PInt 1) (PInt 0) true) target_unit
       = (mkState target_unit [], Raise AttributeError).
Proof. repeat split. Qed.

(** C3 (the code falls short of it).  With [copy_fixed=True] a fixed
    record is not always overwritten with the source value.  The target
    flowsheet has the variable [x] and the fixed variable [y] with the
    value 2, the source has [y] only, with the value 20:
    [copy_non_time_indexed_values] raises [NameError] at [x], which comes
    first, and [y] keeps the value 2.  In [copy_values_at_time], with
    [unit[1].y] fixed at the value 4 in the target and [x] missing in the
    source's [unit[0]], where [y] has the value 20, the operation raises
    [AttributeError] at [unit[1].x], which comes first, and [unit[1].y]
    keeps the value 4. *)
Theorem fixed_record_not_overwritten_after_raise :
  run (copy_non_time_indexed_values flowsheet flowsheet
         (OtherModel source_y) true)
      target_fixed_y
    = (mkState target_fixed_y [], Raise NameError)
  /\ find_data source_y y_record = Some (record 20)
  /\ find_data target_fixed_y y_record = Some (fixed_record 2)
  /\ run (copy_values_at_time flowsheet flowsheet (OtherModel source_unit)
            (PInt 1) (PInt 0) true)
         target_unit_fixed_y
     = (mkState target_unit_fixed_y [], Raise AttributeError)
  /\ find_data source_unit (mkDataRef (mkRef (unit_at 0) "y") PNone)
     = Some (record 20)
  /\ find_data target_unit_fixed_y unit_y_record = Some (fixed_record 4).
Proof. repeat split. Qed.

End Examples.

(* ===================================================================== *)
(** ** Coordinates of an index and indexing by ancestors *)
(* ===================================================================== *)

Section Coordinates.

Variable wrt : PySet.

(** An entity that is explicitly indexed by a set has it among its
    factors. *)
Lemma explicitly_indexed_counted (comp : Component) :
  explicitly_indexed comp wrt = true ->
  1 <= count_id wrt (subsets_of (index_set comp)).
Proof.
  unfold explicitly_indexed, is_explicitly_indexed_by, is_indexed, dim,
    count_id.
  destruct (index_set comp) as [ | s0 | factors ]; cbn [negb subsets_of].
  - discriminate.
  - cbn [length Nat.eqb map nth andb index_set_dimen].
    destruct (dimen s0 <? list_sum [dimen wrt]); [ discriminate | ].
    destruct (dimen wrt =? dimen s0); [ | discriminate ].
    cbn [index_set_is filter]. intros H. now rewrite H.
  - cbn [length Nat.eqb map nth andb index_set_dimen].
    destruct (_ <? _); [ discriminate | ].
    destruct (dimen wrt =? _); [ discriminate | ].
    cbn [forallb]. rewrite andb_true_r. unfold in_component_set.
    induction factors as [ | f factors IH ]; simpl; [ discriminate | ].
    destruct (set_is f wrt); simpl; [ lia | exact IH ].
Qed.

(** Where the set occurs once among the factors of a parent that is
    explicitly indexed by it, [get_index_of_set] reads the coordinate at
    the offset of the set. *)
Lemma get_index_of_set_at_offset (parent : Component) (idx : pyval) :
  explicitly_indexed parent wrt = true -> dimen wrt = 1 ->
  count_id wrt (subsets_of (index_set parent)) = 1 ->
  get_index_of_set parent idx wrt =
    list_get (as_tuple idx) (offset_of wrt (subsets_of (index_set parent))).
Proof.
  intros He Hd Hc. unfold get_index_of_set.
  rewrite is_explicitly_indexed_by_single, He. cbn [rbind negb].
  unfold get_location_of_coordinate_set. rewrite Hd. cbn [Nat.eqb negb].
  now rewrite location_loop_fresh, Hc.
Qed.

(** X6.  [get_index_of_set] raises [ValueError] unless the parent component
    is explicitly indexed by the set, the set is 1-dimensional and it
    occurs once among the parent's factors; it then returns the
    coordinate of the index at the offset of the set, the sum of the
    dimensions of the factors before it ([IndexError] when the index has
    no such coordinate).  It never fails on a missing location. *)
Theorem get_index_of_set_spec (parent : Component) (idx : pyval) :
  get_index_of_set parent idx wrt =
    if explicitly_indexed parent wrt && (dimen wrt =? 1) then
      match count_id wrt (subsets_of (index_set parent)) with
      | 1 =>
          list_get (as_tuple idx)
            (offset_of wrt (subsets_of (index_set parent)))
      | _ => Raise ValueError
      end
    else Raise ValueError.
Proof.
  unfold get_index_of_set. rewrite is_explicitly_indexed_by_single.
  destruct (explicitly_indexed parent wrt) eqn:He; cbn [rbind negb andb];
    [ | reflexivity ].
  unfold get_location_of_coordinate_set.
  destruct (dimen wrt =? 1); cbn [negb rbind]; [ | reflexivity ].
  rewrite location_loop_fresh.
  pose proof (explicitly_indexed_counted parent He) as Hc.
  destruct (count_id wrt _) as [ | [ | n ] ]; [ lia | | ]; reflexivity.
Qed.

End Coordinates.

Section CompleterRoundTrip.

Variable comp : Component.
Variables pre post : list PySet.
Variable s : PySet.

Hypothesis Hindex : index_set comp = SetProduct (pre ++ s :: post).
Hypothesis Hone : Forall (fun f => dimen f = 1) (pre ++ s :: post).
Hypothesis Honce : Forall (fun f => set_is f s = false) (pre ++ post).
Hypothesis Hothers : pre ++ post <> [].

(** X7.  Over 1-dimensional factors [get_index_of_set] undoes the completer
    of [get_index_set_except]: from the index the completer builds out of
    a projection index and a value for the set, it reads that value
    back. *)
Theorem get_index_of_set_inverts_completer (idx v : pyval)
  (Hv : is_tuple v = false)
  (Hidx : length pre <= length (as_tuple idx)) :
  exists info full,
    get_index_set_except comp [s] = Ok info
    /\ index_getter info idx [v] = Ok full
    /\ get_index_of_set comp full s = Ok v.
Proof.
  exists (mkInfo (projection_of (pre ++ post))
            (_complete_index [(length pre, 0)])).
  exists (PTuple (put_in (length pre) v (as_tuple idx))).
  split; [ now apply get_index_set_except_once | ].
  split; [ now apply complete_index_once | ].
  rewrite get_index_of_set_at_offset.
  - rewrite Hindex. cbn [subsets_of as_tuple].
    rewrite (offset_of_once pre post s Hone Honce).
    unfold list_get. now rewrite nth_error_put_in.
  - unfold explicitly_indexed.
    now rewrite (explicitly_indexed_once comp pre post s Hindex Hone Honce
                   Hothers).
  - exact (dimen_kept pre post s Hone).
  - rewrite Hindex. exact (count_id_once pre post s Honce).
Qed.

End CompleterRoundTrip.

(** The theorem at work on the variable indexed by
    [locations * time_set], at location A and time 1. *)
Lemma get_index_of_set_inverts_completer_witness :
  exists info full,
    get_index_set_except Examples.located_var [Examples.time_set] = Ok info
    /\ index_getter info (PStr "A") [PInt 1] = Ok full
    /\ get_index_of_set Examples.located_var full Examples.time_set
         = Ok (PInt 1).
Proof.
  apply (get_index_of_set_inverts_completer
           Examples.located_var [Examples.locations] [] Examples.time_set
           eq_refl).
  - repeat constructor.
  - repeat constructor.
  - discriminate.
  - reflexivity.
  - simpl. lia.
Defined.

Section Ancestors.

Variable m : Model.
Variable s : PySet.

(** The loop of [is_implicitly_indexed_by] without a stopping point
    looks for a carrier of the set among the ancestors. *)
Lemma implicit_loop_chain (blk : BlockRef) :
  implicit_loop m blk s StopNone =
    Ok (existsb (fun n => explicitly_indexed (fst n) s) (block_chain m blk)).
Proof.
  induction blk as [ | step up IH ];
    cbn [implicit_loop block_is_stop block_component_is_stop block_chain
         existsb fst];
    rewrite is_explicitly_indexed_by_single; cbn [rbind].
  - now destruct (explicitly_indexed _ s).
  - destruct (explicitly_indexed _ s); [ reflexivity | exact IH ].
Qed.

(** A stopping point can only hide a carrier. *)
Lemma implicit_loop_stopped (blk : BlockRef) (stop_at : StopAt) :
  exists found,
    implicit_loop m blk s stop_at = Ok found
    /\ (found = true ->
        existsb (fun n => explicitly_indexed (fst n) s) (block_chain m blk)
          = true).
Proof.
  induction blk as [ | step up IH ];
    cbn [implicit_loop block_chain existsb fst].
  - destruct (block_is_stop [] stop_at); [ now exists false | ].
    destruct (block_component_is_stop [] stop_at); [ now exists false | ].
    rewrite is_explicitly_indexed_by_single. cbn [rbind].
    destruct (explicitly_indexed _ s); [ now exists true | now exists false ].
  - destruct (block_is_stop (step :: up) stop_at); [ now exists false | ].
    destruct (block_component_is_stop (step :: up) stop_at);
      [ now exists false | ].
    rewrite is_explicitly_indexed_by_single. cbn [rbind].
    destruct (explicitly_indexed _ s); [ now exists true | ].
    exact IH.
Qed.

(** X8.  [is_implicitly_indexed_by] never raises.  Without a stopping point
    it tells whether some ancestor of the component (the block data
    objects above it, up to the model) belongs to a block that is
    explicitly indexed by the set; the component's own index set plays no
    part.  A stopping point can turn the answer to false, never to true,
    and stopping at the component's own parent block always answers
    false. *)
Theorem is_implicitly_indexed_by_spec (comp : CompRef) :
  is_implicitly_indexed_by m comp s StopNone =
    Ok (existsb (fun n => explicitly_indexed (fst n) s)
          (block_chain m (parent_block comp)))
  /\ (forall stop_at, exists found,
        is_implicitly_indexed_by m comp s stop_at = Ok found
        /\ (found = true ->
            is_implicitly_indexed_by m comp s StopNone = Ok true))
  /\ is_implicitly_indexed_by m comp s (StopBlockData (parent_block comp))
       = Ok false.
Proof.
  unfold is_implicitly_indexed_by. split; [ apply implicit_loop_chain | ].
  split.
  - intros stop_at.
    destruct (implicit_loop_stopped (parent_block comp) stop_at)
      as [found [Hfound Hchain]].
    exists found. split; [ exact Hfound | ].
    intros Ht. rewrite implicit_loop_chain. now rewrite (Hchain Ht).
  - destruct (parent_block comp) as [ | step up ];
      cbn [implicit_loop block_is_stop].
    + reflexivity.
    + change (step_eqb step step && blockref_eqb up up)
        with (blockref_eqb (step :: up) (step :: up)).
      now rewrite blockref_eqb_refl.
Qed.

(** X9.  [get_implicit_index_of_set] returns [None] exactly for the records
    that are neither explicitly nor implicitly indexed by the set: the
    answer [None] and the two tests agree. *)
Theorem get_implicit_index_of_set_none_iff_unindexed (d : DataRef) :
  get_implicit_index_of_set m d s = Ok None <->
  explicitly_indexed (component_of m (parent_component d)) s = false
  /\ is_implicitly_indexed_by m (parent_component d) s StopNone = Ok false.
Proof.
  unfold get_implicit_index_of_set, is_implicitly_indexed_by.
  rewrite is_explicitly_indexed_by_single, implicit_loop_chain.
  set (chain := block_chain m (parent_block (parent_component d))).
  assert (Hfilter : forall l : list (Component * pyval),
            existsb (fun n => explicitly_indexed (fst n) s) l = false <->
            filter (fun n => explicitly_indexed (fst n) s) l = []).
  { induction l as [ | n l IH ]; simpl; [ tauto | ].
    destruct (explicitly_indexed (fst n) s); simpl; [ | exact IH ].
    split; discriminate. }
  destruct (explicitly_indexed (component_of m (parent_component d)) s);
    cbn [rbind].
  - split; [ | intros [H _]; discriminate ].
    destruct (get_index_of_set _ _ _) as [ v | e ]; cbn [rbind fst snd];
      [ | discriminate ].
    rewrite implicit_index_loop_found. fold chain.
    destruct (filter _ chain); discriminate.
  - cbn [fst snd]. rewrite implicit_index_loop_fresh. fold chain.
    specialize (Hfilter chain).
    destruct (filter _ chain) as [ | [c idx] [ | n rest ] ] eqn:Ef.
    + split; [ | reflexivity ]. intros _. split; [ reflexivity | ].
      f_equal. now apply Hfilter.
    + split.
      * destruct (get_index_of_set c idx s); discriminate.
      * intros [_ [= H]]. apply Hfilter in H. discriminate.
    + split.
      * destruct (get_index_of_set c idx s); discriminate.
      * intros [_ [= H]]. apply Hfilter in H. discriminate.
Qed.

End Ancestors.

(* ===================================================================== *)
(** ** Looking a component up by its path *)
(* ===================================================================== *)

Section OwnPath.

Variable m : Model.

Lemma replay_app (p q : list Step) (root : BlockRef) :
  replay m root (p ++ q) =
    match replay m root p with
    | Some blk => replay m blk q
    | None => None
    end.
Proof.
  revert root. induction p as [ | [name idx] p IH ]; intros root; simpl;
    [ reflexivity | ].
  destruct (find_comp m (mkRef root name)) as [ comp | ]; [ | reflexivity ].
  destruct (find_key (data comp) idx); [ apply IH | reflexivity ].
Qed.

Lemma replay_held (steps : list Step) (root : BlockRef) :
  blocks_held m steps root = true ->
  replay m root (rev steps) = Some (steps ++ root).
Proof.
  induction steps as [ | [name idx] up IH ]; simpl; [ reflexivity | ].
  intros H. apply andb_prop in H as [Hdata Hup].
  rewrite replay_app, (IH Hup). simpl.
  unfold find_data in Hdata. simpl in Hdata.
  destruct (find_comp m (mkRef (up ++ root) name)) as [ comp | ];
    [ | discriminate ].
  destruct (find_key (data comp) idx); [ reflexivity | discriminate ].
Qed.

(** X10.  Looking an entity of a model up in the model itself, from a block it
    stands below, finds the entity: the path [path_from_block] records
    leads back to where it was taken. *)
Theorem find_comp_in_block_finds_itself (b : BlockRef) (steps : list Step)
  (e : Entity) (allow_miss : bool)
  (Hbelow : parent_block (entity_component e) = steps ++ b)
  (Hblocks : blocks_held m steps b = true)
  (Hentity : entity_held m e = true) :
  find_comp_in_block m b b e allow_miss = Ok (Some e).
Proof.
  unfold find_comp_in_block, path_from_block.
  rewrite Hbelow, route_loop_below, app_nil_r.
  match goal with
  | |- find_loop m ?blk ?r allow_miss ?k = _ =>
      pose proof (find_loop_replay m allow_miss r blk k) as Hloop
  end.
  rewrite (replay_held _ _ Hblocks) in Hloop. rewrite Hloop. clear Hloop.
  rewrite <- Hbelow.
  destruct e as [ [blk name] | [[blk name] idx] ]; simpl in *.
  - unfold getattr.
    destruct (find_comp m (mkRef blk name)); [ reflexivity | discriminate ].
  - unfold getattr, getitem. unfold find_data in *. simpl in *.
    destruct (find_comp m (mkRef blk name)) as [ comp | ] eqn:Ec;
      [ | discriminate ].
    simpl. rewrite Ec.
    destruct (find_key (data comp) idx); [ reflexivity | discriminate ].
Qed.

End OwnPath.

(** The theorem at work: the record [unit[0].x[1]], looked for from the
    model. *)
Lemma find_comp_in_block_finds_itself_witness :
  find_comp_in_block Examples.nested_model [] []
    (EData Examples.nested_record) false
  = Ok (Some (EData Examples.nested_record)).
Proof.
  apply (find_comp_in_block_finds_itself Examples.nested_model []
           [("unit", PInt 0)]);
    reflexivity.
Defined.

Section AtTime.

Variable tgt : Model.
Variable time : PySet.
Variable t0 : pyval.

Lemma replace_time_index_untimed (comp : Component) (idx : pyval) :
  explicitly_indexed comp time = false ->
  replace_time_index comp time t0 idx = Ok idx.
Proof.
  intros H. unfold replace_time_index.
  now rewrite is_explicitly_indexed_by_single, H.
Qed.

Lemma replace_time_index_timed (comp : Component) (idx : pyval) :
  explicitly_indexed comp time = true ->
  replace_time_index comp time t0 idx =
    if negb (dimen time =? 1) then Raise ValueError
    else
      match count_id time (subsets_of (index_set comp)) with
      | 1 =>
          let n := offset_of time (subsets_of (index_set comp)) in
          if n <? length (as_tuple idx)
          then Ok (PTuple (with_coordinate n t0 (as_tuple idx)))
          else Raise IndexError
      | _ => Raise ValueError
      end.
Proof.
  intros H. unfold replace_time_index.
  rewrite is_explicitly_indexed_by_single, H. cbn [rbind].
  unfold get_location_of_coordinate_set.
  destruct (negb (dimen time =? 1)); cbn [rbind]; [ reflexivity | ].
  rewrite location_loop_fresh.
  pose proof (explicitly_indexed_counted time comp H) as Hc.
  destruct (count_id time _) as [ | [ | n ] ]; [ lia | | reflexivity ].
  cbn [rbind list_set Nat.add]. unfold with_coordinate.
  now destruct (_ <? _).
Qed.

Lemma replace_time_index_errors (comp : Component) (idx : pyval) (e : exn) :
  replace_time_index comp time t0 idx = Raise e ->
  e = ValueError \/ e = IndexError.
Proof.
  destruct (explicitly_indexed comp time) eqn:H.
  - rewrite (replace_time_index_timed _ _ H).
    destruct (negb _); [ intros [= <-]; now left | ].
    destruct (count_id time _) as [ | [ | n ] ];
      try (intros [= <-]; now left).
    cbv zeta. destruct (_ <? _); [ discriminate | ].
    intros [= <-]. now right.
  - rewrite (replace_time_index_untimed _ _ H). discriminate.
Qed.

Lemma getattr_errors (blk : BlockRef) (name : string) :
  getattr tgt blk name = Ok (mkRef blk name)
  \/ getattr tgt blk name = Raise AttributeError.
Proof. unfold getattr. destruct (find_comp tgt _); auto. Qed.

Lemma getitem_errors (c : CompRef) (idx : pyval) :
  getitem tgt c idx = Ok (mkDataRef c idx)
  \/ getitem tgt c idx = Raise KeyError.
Proof. unfold getitem. destruct (find_data tgt _); auto. Qed.

Lemma getitem_normalized_errors (c : CompRef) (idx : pyval) :
  getitem_normalized tgt c idx = Ok (mkDataRef c idx)
  \/ getitem_normalized tgt c idx = Ok (mkDataRef c (normalize_index idx))
  \/ getitem_normalized tgt c idx = Raise KeyError.
Proof.
  unfold getitem_normalized.
  destruct (getitem_errors c idx) as [ -> | -> ]; [ now left | ].
  destruct (getitem_errors c (normalize_index idx)) as [ -> | -> ]; auto.
Qed.

(** With [allow_miss] the loop raises nothing but what the replacement
    of the time coordinate raises. *)
Lemma find_loop_at_time_errors (route : list Step) (blk : BlockRef)
  (k : BlockRef -> result (option Entity)) (e : exn) :
  (forall blk' e', k blk' = Raise e' -> e' = ValueError \/ e' = IndexError) ->
  find_loop_at_time tgt blk route time t0 true k = Raise e ->
  e = ValueError \/ e = IndexError.
Proof.
  intros Hk. revert blk.
  induction route as [ | [name idx] route IH ]; intros blk;
    cbn [find_loop_at_time fst snd]; [ apply Hk | ].
  destruct (getattr_errors blk name) as [ -> | -> ]; cbn [guarded];
    [ | discriminate ].
  destruct (replace_time_index _ time t0 idx) as [ idx' | e' ] eqn:Er;
    cbn [rbind].
  - destruct (getitem_normalized_errors (mkRef blk name) idx')
      as [ -> | [ -> | -> ] ]; cbn [guarded]; try apply IH.
    discriminate.
  - intros [= <-]. exact (replace_time_index_errors _ _ _ Er).
Qed.

(** What the loop returns when it finds something, the rest of the
    function has returned. *)
Lemma find_loop_at_time_found (route : list Step) (blk : BlockRef)
  (allow_miss : bool) (k : BlockRef -> result (option Entity))
  (found : Entity) :
  find_loop_at_time tgt blk route time t0 allow_miss k = Ok (Some found) ->
  exists blk', k blk' = Ok (Some found).
Proof.
  revert blk.
  induction route as [ | [name idx] route IH ]; intros blk;
    cbn [find_loop_at_time fst snd]; [ intros H; now exists blk | ].
  destruct (getattr_errors blk name) as [ -> | -> ]; cbn [guarded];
    [ | destruct allow_miss; discriminate ].
  destruct (replace_time_index _ time t0 idx) as [ idx' | e' ];
    cbn [rbind]; [ | discriminate ].
  destruct (getitem_normalized_errors (mkRef blk name) idx')
    as [ -> | [ -> | -> ] ]; cbn [guarded]; try apply IH.
  destruct allow_miss; discriminate.
Qed.


(** Where no component of the target is explicitly indexed by the time
    set there is no time coordinate to replace, and the loop is the loop
    of [find_comp_in_block]. *)
Lemma find_loop_at_time_untimed (route : list Step) (blk : BlockRef)
  (allow_miss : bool) (k : BlockRef -> result (option Entity)) :
  (forall c, explicitly_indexed (component_of tgt c) time = false) ->
  Forall (fun r => normalize_index (snd r) = snd r) route ->
  find_loop_at_time tgt blk route time t0 allow_miss k =
    find_loop tgt blk route allow_miss k.
Proof.
  intros Huntimed Hroute. revert blk.
  induction Hroute as [ | [name idx] route Hidx _ IH ]; intros blk;
    cbn [find_loop_at_time find_loop fst snd]; [ reflexivity | ].
  simpl in Hidx.
  destruct (getattr_errors blk name) as [ -> | -> ]; cbn [guarded rbind];
    [ | reflexivity ].
  rewrite (replace_time_index_untimed _ _ (Huntimed _)). cbn [rbind].
  unfold getitem_normalized. rewrite Hidx.
  destruct (getitem_errors (mkRef blk name) idx) as [ -> | -> ];
    cbn [guarded rbind index orb is_AttributeError is_KeyError];
    [ apply IH | reflexivity ].
Qed.

(** X12.  On a target in which nothing is explicitly indexed by the time set,
    and for arguments that pass the checks, [find_comp_in_block_at_time]
    is [find_comp_in_block]: same entity found, same answer [None], same
    exception.  (The indices of the source are in Pyomo's normal form, as
    the indices of components are.) *)
Theorem find_comp_in_block_at_time_without_time (models : Models)
  (tgt_block src_block : BlockRef) (src_comp : Entity) (allow_miss : bool)
  (Ht0 : set_contains time t0 = true)
  (Htime : time_model models = tgt_block_model models)
  (Hsource : src_block_model models = src_comp_model models)
  (Huntimed : forall c, explicitly_indexed (component_of tgt c) time = false)
  (Hroute : Forall (fun r => normalize_index (snd r) = snd r)
              (path_from_block src_comp src_block false))
  (Hindex : forall idx, entity_index src_comp = Some idx ->
              normalize_index idx = idx) :
  find_comp_in_block_at_time tgt models tgt_block src_block src_comp
    time t0 allow_miss
  = find_comp_in_block tgt tgt_block src_block src_comp allow_miss.
Proof.
  unfold find_comp_in_block_at_time, find_comp_in_block.
  rewrite Ht0, Htime, Hsource, !Nat.eqb_refl. cbn [negb].
  rewrite (find_loop_at_time_untimed _ _ _ _ Huntimed Hroute).
  destruct (entity_index src_comp) as [ idx | ] eqn:Ei; [ | reflexivity ].
  specialize (Hindex idx eq_refl).
  generalize (local_name (entity_component src_comp)) as name.
  generalize (path_from_block src_comp src_block false) as route.
  intros route name. revert tgt_block.
  induction route as [ | r route IH ]; intros blk; cbn [find_loop].
  - destruct (getattr tgt blk name) as [ c | ]; cbn [guarded];
      [ | reflexivity ].
    rewrite (replace_time_index_untimed _ _ (Huntimed _)).
    cbn [rbind]. unfold getitem_normalized. rewrite Hindex.
    destruct (getitem_errors c idx) as [ -> | -> ]; reflexivity.
  - destruct (let? c := getattr tgt blk (fst r) in
              let? d := getitem tgt c (snd r) in
              Ok (block_data c (index d))); cbn [guarded]; [ apply IH | ].
    reflexivity.
Qed.

Lemma flatten_flat (l : list pyval) :
  Forall (fun a => is_tuple a = false) l -> flat_map flatten l = l.
Proof.
  induction 1 as [ | a l Ha _ IH ]; simpl; [ reflexivity | ].
  rewrite IH. destruct a; try discriminate; reflexivity.
Qed.

Lemma as_tuple_normalize_flat (idx : pyval) :
  flat_index idx -> as_tuple (normalize_index idx) = as_tuple idx.
Proof.
  unfold flat_index. destruct idx as [ | z | str | l ]; try reflexivity.
  cbn [as_tuple normalize_index flatten]. intros Hl.
  rewrite (flatten_flat _ Hl).
  destruct l as [ | x [ | y l ] ]; try reflexivity.
  inversion Hl as [ | ? ? Hx _ ]; subst.
  destruct x; try discriminate; reflexivity.
Qed.

Lemma flat_with_coordinate (n : nat) (v : pyval) (l : list pyval) :
  is_tuple v = false -> Forall (fun a => is_tuple a = false) l ->
  Forall (fun a => is_tuple a = false) (with_coordinate n v l).
Proof.
  intros Hv Hl. revert n. unfold with_coordinate.
  induction Hl as [ | a l Ha Hl IH ]; intros n.
  - destruct n; simpl; now constructor.
  - destruct n as [ | n ]; simpl.
    + now constructor.
    + constructor; [ exact Ha | apply IH ].
Qed.

Lemma nth_error_with_coordinate (n : nat) (v : pyval) (l : list pyval) :
  n < length l -> nth_error (with_coordinate n v l) n = Some v.
Proof.
  intros Hn. unfold with_coordinate.
  rewrite nth_error_app2 by (rewrite length_firstn; lia).
  rewrite length_firstn, Nat.min_l by lia.
  now rewrite Nat.sub_diag.
Qed.

(** X13.  The data object [find_comp_in_block_at_time] finds for a data object
    of the source has the local name of the source's; where its
    component is explicitly indexed by the time set, its index is the
    index of the source with [t0] at the location of the time set and
    every other coordinate as it was, so [get_index_of_set] reads [t0]
    from it; where it is not, its index is the index of the source.
    (Indices are flat: their coordinates, and [t0], are no tuples.) *)
Theorem find_comp_in_block_at_time_lands_on_t0 (models : Models)
  (tgt_block src_block : BlockRef) (src : DataRef) (allow_miss : bool)
  (found : Entity)
  (Hfound :
     find_comp_in_block_at_time tgt models tgt_block src_block (EData src)
       time t0 allow_miss = Ok (Some found))
  (Ht0 : is_tuple t0 = false)
  (Hflat : flat_index (index src)) :
  exists d,
    found = EData d
    /\ local_name (parent_component d) = local_name (parent_component src)
    /\ let comp := component_of tgt (parent_component d) in
       if explicitly_indexed comp time then
         exists n,
           get_location_of_coordinate_set (index_set comp) time
             = Ok (Some n)
           /\ as_tuple (index d) = with_coordinate n t0 (as_tuple (index src))
           /\ get_index_of_set comp (index d) time = Ok t0
       else as_tuple (index d) = as_tuple (index src).
Proof.
  unfold find_comp_in_block_at_time in Hfound.
  destruct (negb (set_contains time t0)); [ discriminate | ].
  destruct (negb (_ =? _)); [ discriminate | ].
  destruct (negb (_ =? _)); [ discriminate | ].
  apply find_loop_at_time_found in Hfound as [blk Hk].
  cbn [entity_component entity_index] in Hk.
  set (name := local_name (parent_component src)) in *.
  destruct (getattr_errors blk name) as [ Ha | Ha ]; rewrite Ha in Hk;
    cbn [guarded] in Hk; [ | destruct allow_miss; discriminate ].
  set (c := mkRef blk name) in *.
  destruct (replace_time_index (component_of tgt c) time t0 (index src))
    as [ idx' | e ] eqn:Er; cbn [rbind] in Hk; [ | discriminate ].
  assert (Hd : exists d, found = EData d /\ parent_component d = c
                 /\ (index d = idx' \/ index d = normalize_index idx')).
  { destruct (getitem_normalized_errors c idx') as [ Hg | [ Hg | Hg ] ];
      rewrite Hg in Hk; cbn [guarded] in Hk.
    - injection Hk as <-. eexists. split; [ reflexivity | ]. simpl. auto.
    - injection Hk as <-. eexists. split; [ reflexivity | ]. simpl. auto.
    - destruct allow_miss; discriminate. }
  destruct Hd as [d [-> [Hc Hidx]]]. exists d.
  split; [ reflexivity | ]. rewrite Hc. split; [ reflexivity | ].
  cbv zeta.
  destruct (explicitly_indexed (component_of tgt c) time) eqn:He.
  - rewrite (replace_time_index_timed _ _ He) in Er.
    destruct (dimen time =? 1) eqn:Hdim; cbn [negb] in Er;
      [ | discriminate ].
    destruct (count_id time _) as [ | [ | k ] ] eqn:Hcount;
      try discriminate.
    cbv zeta in Er.
    destruct (_ <? _) eqn:Hlt; [ | discriminate ].
    injection Er as <-. apply Nat.ltb_lt in Hlt.
    set (n := offset_of time (subsets_of (index_set (component_of tgt c))))
      in *.
    assert (Htuple : as_tuple (index d)
                     = with_coordinate n t0 (as_tuple (index src))).
    { destruct Hidx as [ -> | -> ]; [ reflexivity | ].
      apply as_tuple_normalize_flat. unfold flat_index. cbn [as_tuple].
      now apply flat_with_coordinate. }
    exists n. split; [ | split; [ exact Htuple | ] ].
    + unfold get_location_of_coordinate_set. rewrite Hdim. cbn [negb].
      now rewrite location_loop_fresh, Hcount.
    + apply Nat.eqb_eq in Hdim.
      rewrite (get_index_of_set_at_offset time _ _ He Hdim Hcount).
      fold n. rewrite Htuple. unfold list_get.
      now rewrite nth_error_with_coordinate.
  - rewrite (replace_time_index_untimed _ _ He) in Er.
    injection Er as <-.
    destruct Hidx as [ -> | -> ]; [ reflexivity | ].
    now apply as_tuple_normalize_flat.
Qed.

End AtTime.

Section AtTimeExamples.

Import Examples.


(** The theorem at work on a flowsheet with the scalar variables [x] and
    [y]. *)
Lemma find_comp_in_block_at_time_without_time_witness :
  find_comp_in_block_at_time target_xy (mkModels 0 0 1 1) fs_ref fs_ref
    (EData y_record) time_set (PInt 0) false
  = find_comp_in_block target_xy fs_ref fs_ref (EData y_record) false.
Proof.
  apply find_comp_in_block_at_time_without_time; try reflexivity.
  - intros c. unfold component_of. simpl.
    repeat (destruct (compref_eqb _ c); [ reflexivity | ]).
    reflexivity.
  - constructor.
  - intros idx [= <-]. reflexivity.
Defined.

(** The theorem at work: looked for at time 1, the record [unit[0].x[0]]
    leads to a record with time coordinate 1. *)
Lemma find_comp_in_block_at_time_lands_on_t0_witness :
  exists d,
    EData (mkDataRef (mkRef [("unit", PInt 1)] "x") (PInt 1)) = EData d
    /\ local_name (parent_component d) = "x"
    /\ let comp := component_of nested_model (parent_component d) in
       if explicitly_indexed comp time_set then
         exists n,
           get_location_of_coordinate_set (index_set comp) time_set
             = Ok (Some n)
           /\ as_tuple (index d) = with_coordinate n (PInt 1) [PInt 0]
           /\ get_index_of_set comp (index d) time_set = Ok (PInt 1)
       else as_tuple (index d) = [PInt 0].
Proof.
  apply (find_comp_in_block_at_time_lands_on_t0 nested_model time_set
           (PInt 1) (mkModels 0 0 0 0) [] []
           (mkDataRef (mkRef [("unit", PInt 0)] "x") (PInt 0)) false).
  - reflexivity.
  - reflexivity.
  - repeat constructor.
Defined.

End AtTimeExamples.


(* ===================================================================== *)
(** ** When [get_index_set_except] returns *)
(* ===================================================================== *)

Section ExceptReturns.

Lemma set_is_same_id (f s x : PySet) :
  set_is f s = true -> set_is x f = set_is x s.
Proof. unfold set_is. intros H. apply Nat.eqb_eq in H. now rewrite H. Qed.

Lemma count_id_same_id (f s : PySet) (l : list PySet) :
  set_is f s = true -> count_id f l = count_id s l.
Proof.
  intros H. unfold count_id. f_equal. apply filter_ext.
  intros x. now apply set_is_same_id.
Qed.

Lemma count_id_self (f : PySet) (l : list PySet) :
  In f l -> 1 <= count_id f l.
Proof.
  unfold count_id. induction l as [ | x l IH ]; simpl; [ contradiction | ].
  intros [ -> | Hin ].
  - unfold set_is at 1. rewrite Nat.eqb_refl. simpl. lia.
  - specialize (IH Hin). destruct (set_is x f); simpl; lia.
Qed.

(** Factors of distinct identities, each of them one of the sets, have
    together no more coordinates than the sets. *)
Lemma covered_sum (factors : list PySet) :
  forall sets,
    (forall f, In f factors ->
       exists s, In s sets /\ set_is f s = true /\ dimen f = dimen s) ->
    (forall f, In f factors -> count_id f factors = 1) ->
    list_sum (map dimen factors) <= list_sum (map dimen sets).
Proof.
  induction factors as [ | f rest IH ]; intros sets Hcover Hdistinct;
    simpl; [ lia | ].
  destruct (Hcover f (or_introl eq_refl)) as [s [Hs [Hfs Hdim]]].
  apply in_split in Hs as [l1 [l2 ->]].
  assert (Hother : forall g, In g rest -> set_is f g = false).
  { intros g Hg. destruct (set_is f g) eqn:E; [ | reflexivity ].
    pose proof (Hdistinct g (or_intror Hg)) as Hc.
    pose proof (count_id_self g rest Hg) as Hself.
    unfold count_id in Hc, Hself. simpl in Hc. rewrite E in Hc.
    simpl in Hc. lia. }
  assert (Hrest : list_sum (map dimen rest) <= list_sum (map dimen (l1 ++ l2))).
  { apply IH.
    - intros g Hg.
      destruct (Hcover g (or_intror Hg)) as [sg [Hsg [Hgs Hgd]]].
      exists sg. split; [ | now split ].
      apply in_app_or in Hsg as [Hsg | [ <- | Hsg ]];
        apply in_or_app; [ now left | | now right ].
      exfalso. specialize (Hother g Hg).
      unfold set_is in *. apply Nat.eqb_eq in Hfs, Hgs.
      apply Nat.eqb_neq in Hother. congruence.
    - intros g Hg. pose proof (Hdistinct g (or_intror Hg)) as Hc.
      unfold count_id in *. simpl in Hc. now rewrite (Hother g Hg) in Hc. }
  rewrite map_app, list_sum_app in *. simpl. lia.
Qed.

Lemma find_set_loc_none (f : PySet) (sets : list PySet) (k : nat) :
  find_set_loc f sets k = None <-> existsb (set_is f) sets = false.
Proof.
  revert k. induction sets as [ | s sets IH ]; intros k; simpl;
    [ tauto | ].
  destruct (set_is f s); simpl; [ split; discriminate | apply IH ].
Qed.

(** The factors [get_index_set_except] keeps are those that are none of
    the requested sets. *)
Lemma locate_sets_others_none (factors sets : list PySet) (n : nat) :
  snd (locate_sets factors sets n) = [] ->
  forall f, In f factors -> existsb (set_is f) sets = true.
Proof.
  revert n. induction factors as [ | x factors IH ]; intros n;
    [ intros _ f [] | ].
  cbn [locate_sets].
  destruct (locate_sets factors sets (S n)) as [loc others] eqn:El.
  destruct (find_set_loc x sets 0) eqn:Ef; cbn [snd]; [ | discriminate ].
  intros -> f [ <- | Hin ].
  - destruct (existsb (set_is x) sets) eqn:E; [ reflexivity | ].
    apply (find_set_loc_none x sets 0) in E. congruence.
  - apply (IH (S n)); [ now rewrite El | exact Hin ].
Qed.

Lemma is_explicitly_indexed_by_raises (comp : Component)
  (sets : list PySet) (e : exn) :
  is_explicitly_indexed_by comp sets = Raise e -> e = ValueError.
Proof.
  unfold is_explicitly_indexed_by.
  destruct (negb (is_indexed comp)); [ discriminate | ].
  destruct sets as [ | s sets ]; cbn [length Nat.eqb];
    [ now intros [= <-] | ].
  destruct (_ <? _); [ discriminate | ].
  destruct (_ && _); [ discriminate | ].
  destruct (index_set comp); discriminate.
Qed.

Variable comp : Component.
Variable sets : list PySet.

(** One object has one dimension. *)
Hypothesis Hdimen :
  forall f s, In f (subsets_of (index_set comp)) -> In s sets ->
    set_is f s = true -> dimen f = dimen s.

(** Where every requested set occurs once among the factors of a
    product and no factor is left, the product has no more coordinates than
    the requested sets. *)
Lemma nothing_left_dimension (factors : list PySet) :
  index_set comp = SetProduct factors ->
  forallb (fun s => count_id s factors =? 1) sets = true ->
  snd (locate_sets factors sets 0) = [] ->
  dim comp <= list_sum (map dimen sets).
Proof.
  intros Hindex Hcount Hnone. unfold dim. rewrite Hindex. simpl.
  rewrite forallb_forall in Hcount.
  pose proof (locate_sets_others_none factors sets 0 Hnone) as Hall.
  assert (Hmatch : forall f, In f factors ->
            exists s, In s sets /\ set_is f s = true).
  { intros f Hf. specialize (Hall f Hf).
    apply existsb_exists in Hall as [s [Hs Hfs]]. now exists s. }
  apply covered_sum.
  - intros f Hf. destruct (Hmatch f Hf) as [s [Hs Hfs]].
    exists s. split; [ exact Hs | ]. split; [ exact Hfs | ].
    apply Hdimen; try assumption. rewrite Hindex. exact Hf.
  - intros f Hf. destruct (Hmatch f Hf) as [s [Hs Hfs]].
    rewrite (count_id_same_id f s factors Hfs).
    apply Nat.eqb_eq. now apply Hcount.
Qed.

Lemma explicit_dimension :
  is_explicitly_indexed_by comp sets = Ok true ->
  list_sum (map dimen sets) <= dim comp.
Proof.
  unfold is_explicitly_indexed_by.
  destruct (negb (is_indexed comp)); [ discriminate | ].
  destruct (length sets =? 0); [ discriminate | ].
  destruct (dim comp <? list_sum (map dimen sets)) eqn:E;
    [ discriminate | ].
  intros _. now apply Nat.ltb_ge in E.
Qed.

(** X22.  [get_index_set_except] returns exactly when the component is
    explicitly indexed by the requested sets and each of them occurs once
    among its factors; the error of the case that "should not happen" (no
    factor left although the dimensions differ) is never raised.  Whatever
    it raises is a [ValueError]. *)
Theorem get_index_set_except_returns :
  ((exists info, get_index_set_except comp sets = Ok info) <->
   is_explicitly_indexed_by comp sets = Ok true
   /\ forallb (fun s => count_id s (subsets_of (index_set comp)) =? 1) sets
      = true)
  /\ forall e, get_index_set_except comp sets = Raise e -> e = ValueError.
Proof.
  unfold get_index_set_except.
  destruct (is_explicitly_indexed_by comp sets) as [ [ | ] | e0 ] eqn:He;
    cbn [rbind negb].
  - pose proof (explicit_dimension He) as Hle.
    pose proof nothing_left_dimension as Hleft.
    destruct (index_set comp) as [ | s0 | factors ] eqn:Hindex;
      cbn [subsets_of rbind].
    + unfold is_explicitly_indexed_by, is_indexed in He.
      rewrite Hindex in He. discriminate.
    + assert (Hsingle : exists s, sets = [s] /\ set_is s0 s = true
                          /\ dimen s = dim comp).
      { unfold is_explicitly_indexed_by, is_indexed in He.
        rewrite Hindex in He. cbn [negb] in He.
        destruct sets as [ | s [ | s' rest ] ]; cbn [length Nat.eqb andb] in He;
          try discriminate.
        - destruct (_ <? _); [ discriminate | ].
          cbn [map nth] in He.
          destruct (dimen s =? dim comp) eqn:Ed; [ | discriminate ].
          apply Nat.eqb_eq in Ed. injection He as He.
          exists s. now repeat split.
        - destruct (_ <? _); discriminate. }
      destruct Hsingle as [s [-> [Hs0 Hd]]].
      cbn [map list_sum fold_right]. rewrite Hd, Nat.add_0_r, Nat.eqb_refl.
      split; [ | discriminate ].
      split; [ intros _ | intros _; eexists; reflexivity ].
      split; [ reflexivity | ].
      unfold count_id. cbn [forallb filter]. now rewrite Hs0.
    + destruct (forallb (fun s => count_id s factors =? 1) sets) eqn:Hcount;
        cbn [rbind].
      * destruct (locate_sets factors sets 0) as [loc others] eqn:El.
        destruct (dim comp =? list_sum (map dimen sets)) eqn:Ed.
        -- split; [ | discriminate ].
           split; [ now intros _ | intros _; eexists; reflexivity ].
        -- apply Nat.eqb_neq in Ed.
           destruct others as [ | o [ | o' others ] ].
           ++ exfalso.
              pose proof (Hleft factors eq_refl Hcount) as Hge.
              rewrite El in Hge. specialize (Hge eq_refl). lia.
           ++ split; [ | discriminate ].
              split; [ now intros _ | intros _; eexists; reflexivity ].
           ++ split; [ | discriminate ].
              split; [ now intros _ | intros _; eexists; reflexivity ].
      * split; [ | now intros e [= <-] ].
        split; [ intros [info H]; discriminate | intros [_ H]; discriminate ].
  - split; [ | now intros e [= <-] ].
    split; [ intros [info H]; discriminate | intros [H _]; discriminate ].
  - split.
    + split; [ intros [info H]; discriminate | intros [H _]; discriminate ].
    + intros e [= <-]. exact (is_explicitly_indexed_by_raises _ _ _ He).
Qed.

End ExceptReturns.

(** The theorem at work on the variable indexed by
    [locations * time_set]: the index set without time exists. *)
Lemma get_index_set_except_returns_witness :
  exists info,
    get_index_set_except Examples.located_var [Examples.time_set] = Ok info.
Proof.
  apply (get_index_set_except_returns Examples.located_var
           [Examples.time_set]).
  - intros f s [ <- | [ <- | [] ] ] [ <- | [] ];
      [ discriminate | reflexivity ].
  - split; reflexivity.
Defined.

(* ===================================================================== *)
(** ** Operations on the flags of components not indexed by time *)
(* ===================================================================== *)

Lemma listed_In (l : list DataRef) (d : DataRef) :
  listed l d = true <-> In d l.
Proof.
  unfold listed. rewrite existsb_exists. split.
  - intros [x [Hin He]]. apply dataref_eqb_eq in He. now subst.
  - intros H. exists d. split; [ exact H | apply dataref_eqb_refl ].
Qed.

Lemma listed_app (l1 l2 : list DataRef) (d : DataRef) :
  listed (l1 ++ l2) d = listed l1 d || listed l2 d.
Proof. apply existsb_app. Qed.

Lemma listed_incl (l1 l2 : list DataRef) (d : DataRef) :
  listed l1 d = true -> listed (l1 ++ l2) d = true.
Proof. intros H. now rewrite listed_app, H. Qed.

Lemma component_of_map_records g (m : Model) (c : CompRef) :
  component_of (map_records g m) c =
    match find_comp m c with
    | Some comp => map_component g c comp
    | None => model_component
    end.
Proof.
  unfold component_of. rewrite find_comp_map_records.
  now destruct (find_comp m c).
Qed.

Lemma ctype_component_of_map_records g (m : Model) (c : CompRef) :
  ctype (component_of (map_records g m) c) = ctype (component_of m c).
Proof.
  rewrite component_of_map_records. unfold component_of.
  now destruct (find_comp m c).
Qed.

Lemma comp_active_component_of_map_records g (m : Model) (c : CompRef) :
  comp_active (component_of (map_records g m) c)
  = comp_active (component_of m c).
Proof.
  rewrite component_of_map_records. unfold component_of.
  now destruct (find_comp m c).
Qed.

Lemma untimed_map_records g (m : Model) (time : PySet) (c : CompRef) :
  untimed (map_records g m) time c = untimed m time c.
Proof.
  unfold untimed, explicitly_indexed, is_implicitly_indexed_by.
  rewrite implicit_loop_map_records.
  now rewrite (is_explicitly_indexed_by_index_set _ _ [time]
                 (index_set_component_of g m c)).
Qed.

Lemma find_comp_listed (m : Model) (c : CompRef) :
  In c (map fst m) -> exists comp, find_comp m c = Some comp.
Proof.
  induction m as [ | [c' comp] m IH ]; simpl; [ contradiction | ].
  intros [ -> | Hin ].
  - rewrite compref_eqb_refl. now exists comp.
  - destruct (compref_eqb c' c); [ now exists comp | now apply IH ].
Qed.

Lemma find_key_listed (l : list (pyval * ComponentData)) (k : pyval) :
  In k (map fst l) -> exists r, find_key l k = Some r.
Proof.
  induction l as [ | [k' r] l IH ]; simpl; [ contradiction | ].
  intros [ -> | Hin ].
  - rewrite pyval_eqb_refl. now exists r.
  - destruct (pyval_eqb k' k); [ now exists r | now apply IH ].
Qed.

(** Every index a held component is iterated over leads to a record. *)
Lemma find_data_key (m : Model) (c : CompRef) (k : pyval) :
  find_comp m c <> None -> In k (keys_of m c) ->
  find_data m (mkDataRef c k) <> None.
Proof.
  unfold keys_of, component_of, find_data. simpl.
  destruct (find_comp m c) as [ comp | ]; [ | congruence ].
  intros _ Hin. destruct (find_key_listed _ _ Hin) as [r ->]. discriminate.
Qed.

Lemma getitem_held (m : Model) (c : CompRef) (k : pyval) :
  find_data m (mkDataRef c k) <> None ->
  getitem m c k = Ok (mkDataRef c k).
Proof.
  unfold getitem. destruct (find_data m _); [ reflexivity | congruence ].
Qed.

Lemma unindexed_by_run (time : PySet) (c : CompRef) (st : State) :
  unindexed_by time c st = (st, Ok (untimed (target st) time c)).
Proof.
  unfold unindexed_by, untimed, bind, read_result, ret,
    is_implicitly_indexed_by.
  rewrite is_explicitly_indexed_by_single.
  destruct (explicitly_indexed _ time); cbn [negb andb]; [ reflexivity | ].
  now rewrite implicit_loop_chain.
Qed.

Section Sweep.

Variable ctypes : list Ctype.
Variable active_only : bool.
Variable test : ComponentData -> bool.
Variable change : ComponentData -> ComponentData.
Variable b : BlockRef.
Variable time : PySet.

(** A changed record does not pass the test again, and a change makes
    no record active. *)
Hypothesis Htest : forall r, test (change r) = false.
Hypothesis Hactive : forall r, active (change r) = true -> active r = true.

Lemma find_data_change_all (l : list DataRef) (m : Model) (d : DataRef) :
  find_data (change_all change l m) d =
    option_map (fun r => if listed l d then change r else r) (find_data m d).
Proof. apply find_data_map_records. Qed.

Lemma record_of_change_all (l : list DataRef) (m : Model) (d : DataRef) :
  find_data m d <> None ->
  record_of (change_all change l m) d =
    if listed l d then change (record_of m d) else record_of m d.
Proof.
  unfold record_of. rewrite find_data_change_all.
  destruct (find_data m d); simpl; [ reflexivity | congruence ].
Qed.

Lemma update_change_all (l : list DataRef) (m : Model) (d : DataRef) :
  listed l d = false ->
  update_data change d (change_all change l m) =
    change_all change (l ++ [d]) m.
Proof.
  intros H. unfold update_data, change_all. rewrite map_records_compose.
  apply map_records_ext. intros d' r. rewrite listed_app.
  change (listed [d] d') with (dataref_eqb d' d || false).
  rewrite orb_false_r.
  destruct (dataref_eqb d' d) eqn:E.
  - apply dataref_eqb_eq in E. subst d'. rewrite H. reflexivity.
  - now rewrite orb_false_r.
Qed.

(** Further changes leave a record that does not pass the test so. *)
Lemma settled_record_mono (l x : list DataRef) (m : Model) (d : DataRef) :
  test (record_of (change_all change l m) d) = false ->
  test (record_of (change_all change (l ++ x) m) d) = false.
Proof.
  unfold record_of. rewrite !find_data_change_all, listed_app.
  destruct (find_data m d) as [ r | ]; simpl; [ | auto ].
  destruct (listed l d); simpl; [ auto | ].
  destruct (listed x d); [ intros _; apply Htest | auto ].
Qed.

Lemma all_settled_mono (l x : list DataRef) (m : Model) (c : CompRef) :
  all_settled test (change_all change l m) c = true ->
  all_settled test (change_all change (l ++ x) m) c = true.
Proof.
  unfold all_settled, change_all at 2 4. rewrite !keys_of_map_records.
  rewrite !forallb_forall. intros H k Hk. specialize (H k Hk).
  apply negb_true_iff. apply negb_true_iff in H.
  now apply settled_record_mono.
Qed.

Lemma block_active_mono (l x : list DataRef) (m : Model) (blk : BlockRef) :
  block_active (change_all change (l ++ x) m) blk = true ->
  block_active (change_all change l m) blk = true.
Proof.
  destruct blk as [ | [name idx] up ]; simpl; [ auto | ].
  rewrite !find_data_change_all, listed_app.
  destruct (find_data m _) as [ r | ]; simpl; [ | auto ].
  destruct (listed l _); simpl; [ auto | ].
  destruct (listed x _); [ apply Hactive | auto ].
Qed.

Lemma active_up_to_mono (l x : list DataRef) (m : Model)
  (blk root : BlockRef) :
  active_up_to (change_all change (l ++ x) m) blk root = true ->
  active_up_to (change_all change l m) blk root = true.
Proof.
  induction blk as [ | step up IH ]; cbn [active_up_to]; intros H;
    apply andb_prop in H as [Hb Hup]; apply andb_true_intro; split;
    try (now apply (block_active_mono l x)); try exact Hup.
  destruct (blockref_eqb (step :: up) root); [ reflexivity | ].
  simpl in *. now apply IH.
Qed.

(** What the traversal yields after further changes it yielded
    before. *)
Lemma yields_mono (l x : list DataRef) (m : Model) (c : CompRef) :
  yields (change_all change (l ++ x) m) b ctypes active_only true
    (c, component_of (change_all change (l ++ x) m) c) = true ->
  yields (change_all change l m) b ctypes active_only true
    (c, component_of (change_all change l m) c) = true.
Proof.
  unfold yields, change_all.
  rewrite !(ctype_component_of_map_records _ m c).
  rewrite !(comp_active_component_of_map_records _ m c).
  intros H. apply andb_prop in H as [H1 H2]. rewrite H1. cbn [andb].
  destruct active_only; [ | reflexivity ].
  apply andb_prop in H2 as [Ha Hb]. rewrite Ha. cbn [andb].
  exact (active_up_to_mono l x m _ _ Hb).
Qed.

Variable m0 : Model.

Lemma change_if_run (c : CompRef) (k : pyval) (l acc : list DataRef) :
  find_data m0 (mkDataRef c k) <> None ->
  change_if test change c k acc (mkState (change_all change l m0) []) =
    if test (record_of (change_all change l m0) (mkDataRef c k))
    then (mkState (update_data change (mkDataRef c k)
                     (change_all change l m0)) [],
          Ok (acc ++ [mkDataRef c k]))
    else (mkState (change_all change l m0) [], Ok acc).
Proof.
  intros Hd. unfold change_if, bind, read_result, read, modify, ret.
  cbn [target log]. unfold change_all at 1.
  rewrite getitem_map_records, (getitem_held _ _ _ Hd).
  fold (change_all change l m0).
  now destruct (test _).
Qed.

(** The loop over the indices of one component. *)
Lemma sweep_keys (c : CompRef) (keys : list pyval) :
  find_comp m0 c <> None ->
  (forall k, In k keys -> In k (keys_of m0 c)) ->
  forall l, NoDup l ->
  exists x,
    for_each keys l (fun index acc => change_if test change c index acc)
      (mkState (change_all change l m0) [])
    = (mkState (change_all change (l ++ x) m0) [], Ok (l ++ x))
    /\ NoDup (l ++ x)
    /\ Forall (fun d => parent_component d = c
                        /\ find_data m0 d <> None
                        /\ test (record_of m0 d) = true) x
    /\ forall k, In k keys ->
         test (record_of (change_all change (l ++ x) m0) (mkDataRef c k))
           = false.
Proof.
  intros Hc. induction keys as [ | k keys IH ]; intros Hkeys l Hl.
  - exists []. rewrite app_nil_r. repeat split; auto; intros ? [].
  - assert (Hd : find_data m0 (mkDataRef c k) <> None).
    { apply find_data_key; [ exact Hc | apply Hkeys; now left ]. }
    assert (Hrest : forall k', In k' keys -> In k' (keys_of m0 c)).
    { intros k' Hk'. apply Hkeys. now right. }
    cbn [for_each]. unfold bind at 1. rewrite (change_if_run _ _ _ _ Hd).
    destruct (test (record_of (change_all change l m0) (mkDataRef c k)))
      eqn:Et.
    + assert (Hnew : listed l (mkDataRef c k) = false).
      { destruct (listed l (mkDataRef c k)) eqn:El; [ | reflexivity ].
        rewrite (record_of_change_all _ _ _ Hd), El, Htest in Et.
        discriminate. }
      assert (Hwas : test (record_of m0 (mkDataRef c k)) = true).
      { now rewrite (record_of_change_all _ _ _ Hd), Hnew in Et. }
      rewrite (update_change_all _ _ _ Hnew).
      assert (Hl' : NoDup (l ++ [mkDataRef c k])).
      { apply NoDup_app; [ exact Hl | repeat constructor; auto | ].
        intros d Hin [ <- | [] ]. apply listed_In in Hin. congruence. }
      destruct (IH Hrest _ Hl') as [x [Hrun [Hnd [Hx Hset]]]].
      exists (mkDataRef c k :: x).
      replace (l ++ mkDataRef c k :: x) with ((l ++ [mkDataRef c k]) ++ x)
        by now rewrite <- app_assoc.
      split; [ exact Hrun | ]. split; [ exact Hnd | ]. split.
      * constructor; [ now repeat split | exact Hx ].
      * intros k' [ <- | Hk' ]; [ | now apply Hset ].
        rewrite (record_of_change_all _ _ _ Hd).
        rewrite listed_app, listed_app.
        change (listed [mkDataRef c k] (mkDataRef c k))
          with (dataref_eqb (mkDataRef c k) (mkDataRef c k) || false).
        rewrite dataref_eqb_refl, orb_true_r. cbn [orb].
        apply Htest.
    + destruct (IH Hrest _ Hl) as [x [Hrun [Hnd [Hx Hset]]]].
      exists x. split; [ exact Hrun | ]. split; [ exact Hnd | ].
      split; [ exact Hx | ].
      intros k' [ <- | Hk' ]; [ | now apply Hset ].
      now apply settled_record_mono.
Qed.

(** The body of the loop over the components. *)
Lemma sweep_component (c : CompRef) :
  In c (map fst m0) ->
  forall l, NoDup l ->
  yields (change_all change l m0) b ctypes active_only true
    (c, component_of (change_all change l m0) c) = true ->
  exists x,
    (unindexed <- unindexed_by time c ;;
     if unindexed then
       keys <- read (fun m => keys_of m c) ;;
       for_each keys l
         (fun index acc => change_if test change c index acc)
     else ret l) (mkState (change_all change l m0) [])
    = (mkState (change_all change (l ++ x) m0) [], Ok (l ++ x))
    /\ NoDup (l ++ x)
    /\ Forall (due ctypes test time m0) x
    /\ (untimed m0 time c = true ->
        all_settled test (change_all change (l ++ x) m0) c = true).
Proof.
  intros Hin l Hl Hy.
  destruct (find_comp_listed _ _ Hin) as [comp Hcomp].
  assert (Hc : find_comp m0 c <> None) by congruence.
  unfold bind at 1. rewrite unindexed_by_run. cbn [target].
  unfold change_all at 1. rewrite untimed_map_records.
  destruct (untimed m0 time c) eqn:Hu.
  - unfold bind at 1, read at 1. cbn [target].
    unfold change_all at 1. rewrite keys_of_map_records.
    destruct (sweep_keys c (keys_of m0 c) Hc (fun k H => H) l Hl)
      as [x [Hrun [Hnd [Hx Hset]]]].
    exists x. split; [ exact Hrun | ]. split; [ exact Hnd | ]. split.
    + apply Forall_forall. intros d Hd.
      rewrite Forall_forall in Hx. destruct (Hx d Hd) as [Hp [Hf Ht]].
      repeat split; try assumption; rewrite Hp; [ | exact Hu ].
      unfold yields in Hy. apply andb_prop in Hy as [Hy _].
      apply andb_prop in Hy as [Hy _].
      unfold change_all in Hy. rewrite component_of_map_records in Hy.
      unfold component_of. rewrite Hcomp in *. exact Hy.
    + intros _. unfold all_settled, change_all at 2.
      rewrite keys_of_map_records. apply forallb_forall. intros k Hk.
      apply negb_true_iff. now apply Hset.
  - exists []. rewrite app_nil_r. repeat split; auto. discriminate.
Qed.

(** The loop over the components: started on the model with the
    records [l] changed, it ends on the model with further records
    changed and returns them all. *)
Lemma sweep_comps (comps : list CompRef) :
  (forall c, In c comps -> In c (map fst m0)) ->
  forall visited l, NoDup l ->
  (forall c, In c visited -> untimed m0 time c = true ->
     all_settled test (change_all change l m0) c = true) ->
  exists x,
    for_yielded b ctypes active_only comps visited l
      (fun comp acc =>
         unindexed <- unindexed_by time comp ;;
         if unindexed then
           keys <- read (fun m => keys_of m comp) ;;
           for_each keys acc
             (fun index acc => change_if test change comp index acc)
         else ret acc)
      (mkState (change_all change l m0) [])
    = (mkState (change_all change (l ++ x) m0) [], Ok (l ++ x))
    /\ NoDup (l ++ x)
    /\ Forall (due ctypes test time m0) x
    /\ forall c, In c comps ->
         yields (change_all change (l ++ x) m0) b ctypes active_only true
           (c, component_of (change_all change (l ++ x) m0) c) = true ->
         untimed m0 time c = true ->
         all_settled test (change_all change (l ++ x) m0) c = true.
Proof.
  induction comps as [ | c comps IH ]; intros Hcomps visited l Hl Hvis.
  - exists []. rewrite app_nil_r. repeat split; auto; intros ? [].
  - assert (Hrest : forall c', In c' comps -> In c' (map fst m0)).
    { intros c' Hc'. apply Hcomps. now right. }
    cbn [for_yielded]. unfold bind at 1, read at 1. cbn [target].
    destruct (yields (change_all change l m0) b ctypes active_only true
                (c, component_of (change_all change l m0) c)) eqn:Hy;
      cbn [negb].
    + destruct (existsb (compref_eqb c) visited) eqn:Hv.
      * destruct (IH Hrest visited l Hl Hvis) as [x [Hrun [Hnd [Hx Hset]]]].
        exists x. split; [ exact Hrun | ]. split; [ exact Hnd | ].
        split; [ exact Hx | ].
        intros c' [ <- | Hc' ]; [ | now apply Hset ].
        intros _ Hu. apply all_settled_mono. apply Hvis; [ | exact Hu ].
        apply existsb_exists in Hv as [c' [Hin He]].
        apply compref_eqb_eq in He. now subst.
      * destruct (sweep_component c (Hcomps c (or_introl eq_refl)) l Hl Hy)
          as [x1 [Hrun1 [Hnd1 [Hx1 Hset1]]]].
        unfold bind at 1. rewrite Hrun1.
        assert (Hvis' : forall c', In c' (c :: visited) ->
                  untimed m0 time c' = true ->
                  all_settled test (change_all change (l ++ x1) m0) c'
                    = true).
        { intros c' [ <- | Hc' ] Hu; [ now apply Hset1 | ].
          apply all_settled_mono. now apply Hvis. }
        destruct (IH Hrest (c :: visited) (l ++ x1) Hnd1 Hvis')
          as [x2 [Hrun2 [Hnd2 [Hx2 Hset2]]]].
        exists (x1 ++ x2). rewrite app_assoc.
        split; [ exact Hrun2 | ]. split; [ exact Hnd2 | ].
        split; [ apply Forall_app; now split | ].
        intros c' [ <- | Hc' ]; [ | now apply Hset2 ].
        intros _ Hu. apply all_settled_mono. now apply Hset1.
    + destruct (IH Hrest visited l Hl Hvis) as [x [Hrun [Hnd [Hx Hset]]]].
      exists x. split; [ exact Hrun | ]. split; [ exact Hnd | ].
      split; [ exact Hx | ].
      intros c' [ <- | Hc' ]; [ | now apply Hset ].
      intros Hy'. apply yields_mono in Hy'. congruence.
Qed.

(** The operation never raises and logs nothing; it ends on the model
    with the returned records changed, each of which passed the test
    when the operation began, and leaves nothing to change. *)
Lemma sweep_effect :
  exists l,
    run (sweep ctypes active_only test change b time) m0
      = (mkState (change_all change l m0) [], Ok l)
    /\ NoDup l
    /\ Forall (due ctypes test time m0) l
    /\ settled ctypes active_only test b time (change_all change l m0).
Proof.
  assert (Hid : change_all change [] m0 = m0).
  { apply map_records_id. reflexivity. }
  destruct (sweep_comps (map fst m0) (fun c H => H) [] [] (NoDup_nil _))
    as [x [Hrun [Hnd [Hx Hset]]]].
  { intros c []. }
  exists x. cbn [app] in *. rewrite Hid in Hrun.
  split; [ | split; [ exact Hnd | split; [ exact Hx | ] ] ].
  - unfold run, sweep, bind at 1, read at 1. cbn [target]. exact Hrun.
  - intros c Hc Hy Hu. apply Hset; try assumption.
    + unfold change_all, map_records in Hc. rewrite map_map in Hc.
      exact Hc.
    + unfold change_all in Hu. now rewrite untimed_map_records in Hu.
Qed.

Lemma change_if_settled (c : CompRef) (k : pyval) (acc : list DataRef)
  (st : State) :
  find_data (target st) (mkDataRef c k) <> None ->
  test (record_of (target st) (mkDataRef c k)) = false ->
  change_if test change c k acc st = (st, Ok acc).
Proof.
  intros Hd Ht. unfold change_if, bind, read_result, read, ret.
  now rewrite (getitem_held _ _ _ Hd), Ht.
Qed.

Lemma sweep_keys_settled (c : CompRef) (keys : list pyval)
  (acc : list DataRef) (st : State) :
  (forall k, In k keys ->
     find_data (target st) (mkDataRef c k) <> None
     /\ test (record_of (target st) (mkDataRef c k)) = false) ->
  for_each keys acc (fun index acc => change_if test change c index acc) st
  = (st, Ok acc).
Proof.
  induction keys as [ | k keys IH ]; intros H; cbn [for_each];
    [ reflexivity | ].
  destruct (H k (or_introl eq_refl)) as [Hd Ht].
  unfold bind. rewrite (change_if_settled _ _ _ _ Hd Ht).
  apply IH. intros k' Hk'. apply H. now right.
Qed.

(** On a model with nothing left to change the loop changes nothing. *)
Lemma sweep_comps_settled (comps visited : list CompRef)
  (acc : list DataRef) (st : State) :
  settled ctypes active_only test b time (target st) ->
  (forall c, In c comps -> In c (map fst (target st))) ->
  for_yielded b ctypes active_only comps visited acc
    (fun comp acc =>
       unindexed <- unindexed_by time comp ;;
       if unindexed then
         keys <- read (fun m => keys_of m comp) ;;
         for_each keys acc
           (fun index acc => change_if test change comp index acc)
       else ret acc) st
  = (st, Ok acc).
Proof.
  intros Hset. revert visited.
  induction comps as [ | c comps IH ]; intros visited Hcomps;
    cbn [for_yielded]; [ reflexivity | ].
  assert (Hrest : forall c', In c' comps -> In c' (map fst (target st))).
  { intros c' Hc'. apply Hcomps. now right. }
  unfold bind at 1, read at 1.
  destruct (yields (target st) b ctypes active_only true
              (c, component_of (target st) c)) eqn:Hy; cbn [negb];
    [ | now apply IH ].
  destruct (existsb (compref_eqb c) visited); [ now apply IH | ].
  assert (Hin : In c (map fst (target st))) by (apply Hcomps; now left).
  unfold bind at 1. unfold bind at 1. rewrite unindexed_by_run.
  destruct (untimed (target st) time c) eqn:Hu.
  - unfold bind at 1, read at 1. rewrite sweep_keys_settled.
    + now apply IH.
    + intros k Hk. split.
      * apply find_data_key; [ | exact Hk ].
        destruct (find_comp_listed _ _ Hin) as [comp ->]. discriminate.
      * specialize (Hset c Hin Hy Hu). unfold all_settled in Hset.
        rewrite forallb_forall in Hset. apply negb_true_iff.
        now apply Hset.
  - unfold ret at 1. now apply IH.
Qed.

Lemma sweep_settled (m : Model) :
  settled ctypes active_only test b time m ->
  run (sweep ctypes active_only test change b time) m
  = (mkState m [], Ok []).
Proof.
  intros Hset. unfold run, sweep, bind at 1, read at 1. cbn [target].
  now apply sweep_comps_settled.
Qed.

End Sweep.

Section Unindexed.

Variable b : BlockRef.
Variable time : PySet.

Lemma only_constraints (t : Ctype) :
  existsb (ctype_eqb t) [Constraint] = true -> t = Constraint.
Proof. now destruct t. Qed.

Lemma only_variables (t : Ctype) :
  existsb (ctype_eqb t) [Var] = true -> t = Var.
Proof. now destruct t. Qed.

(** X14.  [deactivate_constraints_unindexed_by] never raises and logs nothing.
    It ends on the model it began with, the returned data objects
    deactivated and nothing else changed (no value, no fixed flag, no
    other active flag); it returns no data object twice; and every
    returned data object was active when the operation began and
    belongs to a constraint that is neither explicitly nor implicitly
    indexed by time. *)
Theorem deactivate_constraints_unindexed_by_effect (m : Model) :
  exists conlist,
    run (deactivate_constraints_unindexed_by b time) m
      = (mkState (deactivate_all conlist m) [], Ok conlist)
    /\ NoDup conlist
    /\ Forall (fun d =>
                 find_data m d <> None
                 /\ active (record_of m d) = true
                 /\ ctype (component_of m (parent_component d)) = Constraint
                 /\ untimed m time (parent_component d) = true)
         conlist.
Proof.
  destruct (sweep_effect [Constraint] true active
              (fun r => mkData (value r) (fixed r) false) b time
              (fun _ => eq_refl) ltac:(intros r; discriminate) m)
    as [l [Hrun [Hnd [Hdue _]]]].
  exists l. split; [ exact Hrun | ]. split; [ exact Hnd | ].
  apply Forall_forall. intros d Hd. rewrite Forall_forall in Hdue.
  destruct (Hdue d Hd) as [Hf [Ht [Hc Hu]]].
  repeat split; try assumption. now apply only_constraints.
Qed.

(** X15.  After [deactivate_constraints_unindexed_by] nothing is left for it
    to do: in every constraint not indexed by time that the traversal of
    the resulting model yields, every data object is inactive; and a
    second call returns the empty list and leaves the model as it is. *)
Theorem deactivate_constraints_unindexed_by_idempotent (m : Model) :
  let m' := final_model (deactivate_constraints_unindexed_by b time) m in
  settled [Constraint] true active b time m'
  /\ run (deactivate_constraints_unindexed_by b time) m'
       = (mkState m' [], Ok []).
Proof.
  destruct (sweep_effect [Constraint] true active
              (fun r => mkData (value r) (fixed r) false) b time
              (fun _ => eq_refl) ltac:(intros r; discriminate) m)
    as [l [Hrun [_ [_ Hset]]]].
  unfold final_model.
  change (deactivate_constraints_unindexed_by b time)
    with (sweep [Constraint] true active
            (fun r => mkData (value r) (fixed r) false) b time).
  rewrite Hrun. cbn [fst target]. split; [ exact Hset | ].
  now apply sweep_settled.
Qed.

Lemma fixing_settles (r : ComponentData) :
  negb (fixed (mkData (value r) true (active r)))
  && is_some (value (mkData (value r) true (active r))) = false.
Proof. reflexivity. Qed.

(** X16.  [fix_vars_unindexed_by] never raises and logs nothing.  It ends on
    the model it began with, the returned data objects fixed and nothing
    else changed: no value is changed, nothing is unfixed, no active flag
    is touched.  It returns no data object twice, and every returned
    data object was unfixed and had a value when the operation began (a
    variable whose value is [None] is never fixed) and belongs to a
    variable that is neither explicitly nor implicitly indexed by
    time. *)
Theorem fix_vars_unindexed_by_effect (m : Model) :
  exists varlist,
    run (fix_vars_unindexed_by b time) m
      = (mkState (fix_all varlist m) [], Ok varlist)
    /\ NoDup varlist
    /\ Forall (fun d =>
                 find_data m d <> None
                 /\ data_fixed m d = false
                 /\ data_value m d <> None
                 /\ ctype (component_of m (parent_component d)) = Var
                 /\ untimed m time (parent_component d) = true)
         varlist.
Proof.
  destruct (sweep_effect [Var] false
              (fun r => negb (fixed r) && is_some (value r))
              (fun r => mkData (value r) true (active r)) b time
              fixing_settles (fun r H => H) m)
    as [l [Hrun [Hnd [Hdue _]]]].
  exists l. split; [ exact Hrun | ]. split; [ exact Hnd | ].
  apply Forall_forall. intros d Hd. rewrite Forall_forall in Hdue.
  destruct (Hdue d Hd) as [Hf [Ht [Hc Hu]]].
  apply andb_prop in Ht as [Hfixed Hvalue].
  repeat split; try assumption.
  - unfold data_fixed. now apply negb_true_iff.
  - unfold data_value. now destruct (value (record_of m d)).
  - now apply only_variables.
Qed.

(** X17.  After [fix_vars_unindexed_by] nothing is left for it to do: in every
    variable not indexed by time, every data object is fixed or has no
    value; and a second call returns the empty list and leaves the model
    as it is. *)
Theorem fix_vars_unindexed_by_idempotent (m : Model) :
  let m' := final_model (fix_vars_unindexed_by b time) m in
  settled [Var] false (fun r => negb (fixed r) && is_some (value r))
    b time m'
  /\ run (fix_vars_unindexed_by b time) m' = (mkState m' [], Ok []).
Proof.
  destruct (sweep_effect [Var] false
              (fun r => negb (fixed r) && is_some (value r))
              (fun r => mkData (value r) true (active r)) b time
              fixing_settles (fun r H => H) m)
    as [l [Hrun [_ [_ Hset]]]].
  unfold final_model.
  change (fix_vars_unindexed_by b time)
    with (sweep [Var] false
            (fun r => negb (fixed r) && is_some (value r))
            (fun r => mkData (value r) true (active r)) b time).
  rewrite Hrun. cbn [fst target]. split; [ exact Hset | ].
  now apply sweep_settled.
Qed.

End Unindexed.

(* ===================================================================== *)
(** ** Snapshots of the flags and what the operations do to them *)
(* ===================================================================== *)

Section Dictionaries.

Lemma id_dict_get_set (dict : IdDict) (k k' : DataRef) (v : bool) :
  id_dict_get (id_dict_set dict k v) k' =
    if dataref_eqb k k' then Some v else id_dict_get dict k'.
Proof.
  induction dict as [ | [k0 v0] dict IH ]; simpl; [ reflexivity | ].
  destruct (dataref_eqb k0 k) eqn:E0; simpl.
  - apply dataref_eqb_eq in E0. subst k0.
    now destruct (dataref_eqb k k').
  - rewrite IH. destruct (dataref_eqb k0 k') eqn:E1; [ | reflexivity ].
    apply dataref_eqb_eq in E1. subst k'.
    destruct (dataref_eqb k k0) eqn:E2; [ | reflexivity ].
    apply dataref_eqb_eq in E2. subst k0.
    rewrite dataref_eqb_refl in E0. discriminate.
Qed.

(** Looking up in a dictionary built by a comprehension. *)
Lemma id_dict_get_of (flag : DataRef -> bool) (objects : list DataRef)
  (d : DataRef) :
  id_dict_get (id_dict_of flag objects) d =
    if listed objects d then Some (flag d) else None.
Proof.
  unfold id_dict_of.
  assert (Hgen : forall acc,
            id_dict_get
              (fold_left (fun dict x => id_dict_set dict x (flag x))
                 objects acc) d =
            if listed objects d then Some (flag d) else id_dict_get acc d).
  { induction objects as [ | x objects IH ]; intros acc; simpl;
      [ reflexivity | ].
    rewrite IH, id_dict_get_set.
    destruct (listed objects d); [ now rewrite orb_true_r | ].
    rewrite orb_false_r.
    destruct (dataref_eqb x d) eqn:E.
    - apply dataref_eqb_eq in E. subst x. now rewrite dataref_eqb_refl.
    - destruct (dataref_eqb d x) eqn:E'; [ | reflexivity ].
      apply dataref_eqb_eq in E'. subst x.
      rewrite dataref_eqb_refl in E. discriminate. }
  apply Hgen.
Qed.

Lemma id_dict_of_ext (flag1 flag2 : DataRef -> bool)
  (objects : list DataRef) :
  (forall d, flag1 d = flag2 d) ->
  id_dict_of flag1 objects = id_dict_of flag2 objects.
Proof.
  intros H. unfold id_dict_of. generalize (@nil (DataRef * bool)).
  induction objects as [ | x objects IH ]; intros acc; simpl;
    [ reflexivity | ].
  now rewrite H, IH.
Qed.

(** The fixed flags of a model are those of the model it was made from
    by a change of records that keeps the fixed flags. *)
Lemma get_fixed_dict_map_records g (m : Model) (b : BlockRef) :
  (forall d r, fixed (g d r) = fixed r) ->
  get_fixed_dict (map_records g m) b = get_fixed_dict m b.
Proof.
  intros Hg. unfold get_fixed_dict.
  rewrite component_data_objects_map_records.
  apply id_dict_of_ext. intros d. unfold data_fixed, record_of.
  rewrite find_data_map_records.
  destruct (find_data m d); simpl; [ apply Hg | reflexivity ].
Qed.

Lemma get_activity_dict_map_records g (m : Model) (b : BlockRef) :
  (forall d r, active (g d r) = active r) ->
  get_activity_dict (map_records g m) b = get_activity_dict m b.
Proof.
  intros Hg. unfold get_activity_dict.
  rewrite component_data_objects_map_records.
  apply id_dict_of_ext. intros d. unfold record_of.
  rewrite find_data_map_records.
  destruct (find_data m d); simpl; [ apply Hg | reflexivity ].
Qed.

(** What a snapshot says of a record after some held records have been
    changed. *)
Lemma id_dict_get_change_all (flag : ComponentData -> bool)
  (change : ComponentData -> ComponentData) (ctypes : list Ctype)
  (l : list DataRef) (m : Model) (b : BlockRef) (d : DataRef)
  (after : bool -> bool) :
  (forall r, flag (change r) = after (flag r)) ->
  Forall (fun x => find_data m x <> None) l ->
  id_dict_get
    (id_dict_of (fun x => flag (record_of (change_all change l m) x))
       (component_data_objects (change_all change l m) b ctypes)) d =
  option_map (fun a => if listed l d then after a else a)
    (id_dict_get
       (id_dict_of (fun x => flag (record_of m x))
          (component_data_objects m b ctypes)) d).
Proof.
  intros Hflag Hheld. unfold change_all at 2.
  rewrite component_data_objects_map_records, !id_dict_get_of.
  destruct (listed (component_data_objects m b ctypes) d);
    [ | reflexivity ].
  cbn [option_map]. f_equal. unfold record_of, change_all.
  rewrite find_data_map_records.
  destruct (find_data m d) eqn:Ed; cbn [option_map].
  - destruct (listed l d); [ apply Hflag | reflexivity ].
  - destruct (listed l d) eqn:El; [ | reflexivity ].
    apply listed_In in El. rewrite Forall_forall in Hheld.
    now destruct (Hheld d El).
Qed.

End Dictionaries.

Section Snapshots.

Variable b : BlockRef.
Variable time : PySet.

(** X18.  The snapshots taken before and after
    [deactivate_constraints_unindexed_by] tell what it did: for every
    block, the activity dictionary after the call has the keys of the one
    before, says [False] for the returned data objects and what it said
    before for every other key; the dictionary of the fixed flags is the
    one before. *)
Theorem snapshots_after_deactivate_constraints_unindexed_by (m : Model) :
  exists conlist,
    outcome (deactivate_constraints_unindexed_by b time) m = Ok conlist
    /\ forall b',
         let m' := final_model (deactivate_constraints_unindexed_by b time) m
         in
         (forall d,
            id_dict_get (get_activity_dict m' b') d =
              option_map (fun a => if listed conlist d then false else a)
                (id_dict_get (get_activity_dict m b') d))
         /\ get_fixed_dict m' b' = get_fixed_dict m b'.
Proof.
  destruct (sweep_effect [Constraint] true active
              (fun r => mkData (value r) (fixed r) false) b time
              (fun _ => eq_refl) ltac:(intros r; discriminate) m)
    as [l [Hrun [_ [Hdue _]]]].
  exists l. unfold outcome, final_model.
  change (deactivate_constraints_unindexed_by b time)
    with (sweep [Constraint] true active
            (fun r => mkData (value r) (fixed r) false) b time).
  rewrite Hrun. cbn [fst snd target]. split; [ reflexivity | ].
  intros b'. cbv zeta. split.
  - intros d. unfold get_activity_dict.
    apply (id_dict_get_change_all active _ _ l m b' d (fun _ => false)).
    + reflexivity.
    + revert Hdue. apply Forall_impl. now intros x [Hx _].
  - apply get_fixed_dict_map_records. intros d r.
    now destruct (listed l d).
Qed.

(** X19.  The snapshots taken before and after [fix_vars_unindexed_by] tell
    what it did: for every block, the dictionary of the fixed flags after
    the call has the keys of the one before, says [True] for the returned
    data objects and what it said before for every other key; the
    activity dictionary is the one before. *)
Theorem snapshots_after_fix_vars_unindexed_by (m : Model) :
  exists varlist,
    outcome (fix_vars_unindexed_by b time) m = Ok varlist
    /\ forall b',
         let m' := final_model (fix_vars_unindexed_by b time) m in
         (forall d,
            id_dict_get (get_fixed_dict m' b') d =
              option_map (fun a => if listed varlist d then true else a)
                (id_dict_get (get_fixed_dict m b') d))
         /\ get_activity_dict m' b' = get_activity_dict m b'.
Proof.
  destruct (sweep_effect [Var] false
              (fun r => negb (fixed r) && is_some (value r))
              (fun r => mkData (value r) true (active r)) b time
              fixing_settles (fun r H => H) m)
    as [l [Hrun [_ [Hdue _]]]].
  exists l. unfold outcome, final_model.
  change (fix_vars_unindexed_by b time)
    with (sweep [Var] false
            (fun r => negb (fixed r) && is_some (value r))
            (fun r => mkData (value r) true (active r)) b time).
  rewrite Hrun. cbn [fst snd target]. split; [ reflexivity | ].
  intros b'. cbv zeta. split.
  - intros d. unfold get_fixed_dict, data_fixed.
    apply (id_dict_get_change_all fixed _ _ l m b' d (fun _ => true)).
    + reflexivity.
    + revert Hdue. apply Forall_impl. now intros x [Hx _].
  - apply get_activity_dict_map_records. intros d r.
    now destruct (listed l d).
Qed.

End Snapshots.

Section CopiesWriteValues.

Variable tgt : Model.

Lemma written_structure : relates_structure (written tgt).
Proof. intros A f _ m1 m2 [-> _]. reflexivity. Qed.

Lemma written_source (src : Source) : relates_source (written tgt) src.
Proof.
  destruct src; simpl; [ exact I | ].
  intros A f _ m1 m2 [-> _]. reflexivity.
Qed.

Lemma written_gate (cf : bool) : same_gate (written tgt) cf cf.
Proof. intros m1 m2 d [-> _]. now split. Qed.

Lemma written_write (cf : bool) : write_through (written tgt) cf.
Proof.
  intros m1 m2 d v [<- [p ->]] _. split; [ reflexivity | ].
  exists (fun d' => if dataref_eqb d' d then Some v else p d').
  apply update_overlay.
Qed.

Lemma written_start : written tgt tgt tgt.
Proof.
  split; [ reflexivity | ]. exists (fun _ => None).
  now rewrite overlay_nothing.
Qed.

Lemma get_fixed_dict_overlay p (m : Model) (b : BlockRef) :
  get_fixed_dict (overlay p m) b = get_fixed_dict m b.
Proof.
  apply get_fixed_dict_map_records. intros d r. now destruct (p d).
Qed.

Lemma get_activity_dict_overlay p (m : Model) (b : BlockRef) :
  get_activity_dict (overlay p m) b = get_activity_dict m b.
Proof.
  apply get_activity_dict_map_records. intros d r. now destruct (p d).
Qed.

Variables fs_tgt fs_src : Flowsheet.
Variable src : Source.
Variables t_target t_source : pyval.
Variable copy_fixed : bool.

(** X20.  The two copy operations write values and nothing else: whatever
    their arguments and their outcome (also when they raise midway, and
    when the source is the target flowsheet), the model they end on is
    the model they began with, with values written over some of its
    records.  No component or record appears or disappears, and no
    fixed or active flag is changed: the snapshots [get_fixed_dict] and
    [get_activity_dict] take of any block are after the copy what they
    were before. *)
Theorem copy_operations_write_values_only :
  let after_untimed :=
    final_model (copy_non_time_indexed_values fs_tgt fs_src src copy_fixed)
      tgt in
  let after_timed :=
    final_model
      (copy_values_at_time fs_tgt fs_src src t_target t_source copy_fixed)
      tgt in
  (exists p, after_untimed = overlay p tgt)
  /\ (exists p, after_timed = overlay p tgt)
  /\ forall b,
       get_fixed_dict after_untimed b = get_fixed_dict tgt b
       /\ get_activity_dict after_untimed b = get_activity_dict tgt b
       /\ get_fixed_dict after_timed b = get_fixed_dict tgt b
       /\ get_activity_dict after_timed b = get_activity_dict tgt b.
Proof.
  cbv zeta.
  destruct (sim_run (written tgt) _ _ tgt tgt
              (sim_copy_non_time_indexed_values (written tgt)
                 copy_fixed copy_fixed src written_structure
                 (written_source src) (written_gate copy_fixed)
                 (written_write copy_fixed) fs_tgt fs_src) written_start)
    as [[_ [p1 H1]] _].
  destruct (sim_run (written tgt) _ _ tgt tgt
              (sim_copy_values_at_time (written tgt)
                 copy_fixed copy_fixed src written_structure
                 (written_source src) (written_gate copy_fixed)
                 (written_write copy_fixed) fs_tgt fs_src
                 t_target t_source) written_start)
    as [[_ [p2 H2]] _].
  split; [ now exists p1 | ]. split; [ now exists p2 | ].
  intros b. rewrite H1, H2.
  now rewrite !get_fixed_dict_overlay, !get_activity_dict_overlay.
Qed.

End CopiesWriteValues.

(* ===================================================================== *)
(** ** What the copy operations write *)
(* ===================================================================== *)

Section Held.

Lemma find_key_In (l : list (pyval * ComponentData)) (k : pyval)
  (r : ComponentData) :
  find_key l k = Some r -> In k (map fst l).
Proof.
  induction l as [ | [k' r'] l IH ]; simpl; [ discriminate | ].
  destruct (pyval_eqb k' k) eqn:E.
  - intros _. left. now apply pyval_eqb_eq.
  - intros H. right. now apply IH.
Qed.

(** The index of a record the model holds is one of the keys of its
    component. *)
Lemma key_of_held (m : Model) (d : DataRef) (r : ComponentData) :
  find_data m d = Some r -> In (index d) (keys_of m (parent_component d)).
Proof.
  unfold find_data, keys_of, component_of.
  destruct (find_comp m (parent_component d)) as [ comp | ];
    [ | discriminate ].
  apply find_key_In.
Qed.

Lemma getitem_ok (m : Model) (c : CompRef) (idx : pyval) (b : DataRef) :
  getitem m c idx = Ok b -> b = mkDataRef c idx.
Proof.
  unfold getitem. destruct (find_data m _); [ | discriminate ].
  now intros [= <-].
Qed.

Lemma dataref_eta (d : DataRef) :
  mkDataRef (parent_component d) (index d) = d.
Proof. now destruct d. Qed.

(** Where the traversal finds the components it yields. *)
Lemma component_objects_In (m : Model) (b : BlockRef) (ctypes : list Ctype)
  (descend_into : bool) (c : CompRef) :
  In c (component_objects m b ctypes false descend_into) ->
  (if descend_into then is_within (parent_block c) b
   else blockref_eqb (parent_block c) b) = true.
Proof.
  unfold component_objects. intros H.
  apply in_map_iff in H as [[c' comp] [Heq H]]. simpl in Heq. subst c'.
  apply filter_In in H as [_ H]. unfold yields in H.
  apply andb_prop in H as [H _]. now apply andb_prop in H as [_ H].
Qed.

Lemma is_within_length (blk root : BlockRef) :
  is_within blk root = true -> length root <= length blk.
Proof.
  induction blk as [ | x up IH ]; cbn [is_within]; intros H;
    apply orb_prop in H as [H | H].
  - apply blockref_eqb_eq in H. now subst.
  - discriminate.
  - apply blockref_eqb_eq in H. now subst.
  - specialize (IH H). simpl. lia.
Qed.

End Held.

Section Written.

Variables tgt other : Model.
Variable d : DataRef.
Variable r : ComponentData.
Variable G : option Z -> Prop.

Hypothesis Hd : find_data tgt d = Some r.

Lemma structural_written {A} (f : Model -> A) (st : State) :
  structural f -> values_written tgt st -> f (target st) = f tgt.
Proof. intros Hf [p ->]. apply Hf. Qed.

Lemma find_data_written (st : State) :
  values_written tgt st ->
  exists v, find_data (target st) d = Some (mkData v (fixed r) (active r)).
Proof.
  intros [p ->]. unfold overlay. rewrite find_data_map_records, Hd. simpl.
  destruct (p d) as [ v | ]; [ now exists v | ].
  exists (value r). now destruct r.
Qed.

Lemma values_written_start : values_written tgt (mkState tgt []).
Proof. exists (fun _ => None). simpl. now rewrite overlay_nothing. Qed.

(** One write: the invariant stays, and when the record written is [d]
    it holds the value written. *)
Lemma write_step (X : Prop) (d' : DataRef) (v : option Z) (st : State) :
  copy_invariant tgt d r G X st ->
  (d' = d -> G v) ->
  copy_invariant tgt d r G X
    (mkState
       (update_data (fun r0 => mkData v (fixed r0) (active r0)) d'
          (target st))
       (log st))
  /\ (d' = d ->
      holds_one_of d r G
        (mkState
           (update_data (fun r0 => mkData v (fixed r0) (active r0)) d'
              (target st))
           (log st))).
Proof.
  intros [HI HQ] HG.
  assert (HI' : values_written tgt
                  (mkState
                     (update_data
                        (fun r0 => mkData v (fixed r0) (active r0)) d'
                        (target st))
                     (log st))).
  { destruct HI as [p Hp].
    exists (fun d0 => if dataref_eqb d0 d' then Some v else p d0).
    cbn [target]. rewrite Hp. apply update_overlay. }
  destruct (dataref_eqb d d') eqn:E.
  - apply dataref_eqb_eq in E. subst d'.
    assert (HQ' : holds_one_of d r G
                    (mkState
                       (update_data
                          (fun r0 => mkData v (fixed r0) (active r0)) d
                          (target st))
                       (log st))).
    { exists v. split; [ now apply HG | ].
      unfold overwritten. cbn [target]. rewrite find_data_update_data.
      destruct (find_data_written st HI) as [v' ->]. reflexivity. }
    split; [ split; [ exact HI' | now right ] | now intros _ ].
  - split.
    + split; [ exact HI' | ].
      destruct HQ as [HX | [v' [Hv' Hov]]]; [ now left | right ].
      exists v'. split; [ exact Hv' | ].
      unfold overwritten in *. cbn [target]. unfold update_data.
      rewrite find_data_map_records, Hov. simpl. now rewrite E.
    + intros ->. now rewrite dataref_eqb_refl in E.
Qed.

(** The copy of a record, reached through its component and index. *)
Lemma triple_copy_to_item (X site : Prop) (c : CompRef) (idx : pyval)
  (val : Model -> result (option Z)) :
  (forall v, val other = Ok v -> mkDataRef c idx = d -> G v) ->
  (site -> mkDataRef c idx = d) ->
  triple (copy_invariant tgt d r G X)
    (copy_to_item (OtherModel other) true c idx val)
    (fun _ st =>
       copy_invariant tgt d r G X st /\ (site -> holds_one_of d r G st))
    any_state.
Proof.
  intros HG Hsite st HS. unfold triple. rewrite copy_to_item_run.
  cbn [negb andb source_model].
  destruct (find_data (target st) (mkDataRef c idx)); cbn [fst snd];
    [ | exact I ].
  destruct (val other) as [ v | e ] eqn:Ev; cbn [fst snd]; [ | exact I ].
  destruct (write_step X (mkDataRef c idx) v st HS (HG v eq_refl)) as [H1 H2].
  split; [ exact H1 | ]. intros Hs. now apply H2, Hsite.
Qed.

(** The copy of a record in hand. *)
Lemma triple_copy_to_data (X site : Prop) (d' : DataRef)
  (val : Model -> result (option Z)) :
  (forall v, val other = Ok v -> d' = d -> G v) ->
  (site -> d' = d) ->
  triple (copy_invariant tgt d r G X)
    (copy_to_data (OtherModel other) true d' val)
    (fun _ st =>
       copy_invariant tgt d r G X st /\ (site -> holds_one_of d r G st))
    any_state.
Proof.
  intros HG Hsite st HS. unfold triple. rewrite copy_to_data_run.
  cbn [negb andb source_model].
  destruct (val other) as [ v | e ] eqn:Ev; cbn [fst snd]; [ | exact I ].
  destruct (write_step X d' v st HS (HG v eq_refl)) as [H1 H2].
  split; [ exact H1 | ]. intros Hs. now apply H2, Hsite.
Qed.

(** *** Steps that read *)

Lemma bind_read {A B} (f : Model -> A) (k : A -> M B) (X : Prop)
  (Post : B -> State -> Prop) :
  structural f ->
  triple (copy_invariant tgt d r G X) (k (f tgt)) Post any_state ->
  triple (copy_invariant tgt d r G X) (bind (read f) k) Post any_state.
Proof.
  intros Hf Hk st HS. unfold triple, bind, read. cbn [fst snd].
  rewrite (structural_written f st Hf (proj1 HS)). now apply Hk.
Qed.

Lemma bind_read_result {A B} (f : Model -> result A) (k : A -> M B)
  (X : Prop) (Post : B -> State -> Prop) :
  structural f ->
  (forall a, f tgt = Ok a ->
     triple (copy_invariant tgt d r G X) (k a) Post any_state) ->
  triple (copy_invariant tgt d r G X) (bind (read_result f) k) Post
    any_state.
Proof.
  intros Hf Hk st HS. unfold triple, bind, read_result.
  rewrite (structural_written f st Hf (proj1 HS)).
  destruct (f tgt) as [ a | e ] eqn:E; [ now apply Hk | exact I ].
Qed.

Lemma bind_read_source {A B} (f : Model -> A) (k : A -> M B) (X : Prop)
  (Post : B -> State -> Prop) :
  triple (copy_invariant tgt d r G X) (k (f other)) Post any_state ->
  triple (copy_invariant tgt d r G X)
    (bind (read_source (OtherModel other) f) k) Post any_state.
Proof. intros Hk st HS. now apply Hk. Qed.

Lemma bind_read_source_result {A B} (f : Model -> result A) (k : A -> M B)
  (X : Prop) (Post : B -> State -> Prop) :
  (forall a, f other = Ok a ->
     triple (copy_invariant tgt d r G X) (k a) Post any_state) ->
  triple (copy_invariant tgt d r G X)
    (bind (read_source_result (OtherModel other) f) k) Post any_state.
Proof.
  intros Hk st HS.
  unfold triple, bind, read_source_result, read_result.
  cbn [source_model].
  destruct (f other) as [ a | e ] eqn:E; [ now apply Hk | exact I ].
Qed.

Lemma bind_lift {A B} (res : result A) (k : A -> M B) (X : Prop)
  (Post : B -> State -> Prop) :
  (forall a, res = Ok a ->
     triple (copy_invariant tgt d r G X) (k a) Post any_state) ->
  triple (copy_invariant tgt d r G X) (bind (lift res) k) Post any_state.
Proof.
  intros Hk st HS. unfold triple, bind, lift.
  destruct res as [ a | e ]; [ now apply Hk | exact I ].
Qed.

(** A step that leaves the model as it is. *)
Lemma triple_unchanged {A} (c : M A) (X site : Prop) :
  (forall st, target (fst (c st)) = target st) ->
  ~ site ->
  triple (copy_invariant tgt d r G X) c
    (fun _ st =>
       copy_invariant tgt d r G X st /\ (site -> holds_one_of d r G st))
    any_state.
Proof.
  intros Hc Hsite st [[p Hp] HQ]. unfold triple.
  specialize (Hc st). destruct (c st) as [st' [ a | e ]]; cbn [fst snd] in *;
    [ | exact I ].
  split; [ | intros Hs; now destruct Hsite ].
  split; [ exists p; now rewrite Hc | ].
  destruct HQ as [HX | [v [Hv Hov]]]; [ now left | right ].
  exists v. split; [ exact Hv | ]. unfold overwritten in *. now rewrite Hc.
Qed.

Lemma triple_post {A} (P : State -> Prop) (c : M A)
  (Q Q' : A -> State -> Prop) (E : State -> Prop) :
  triple P c Q E -> (forall a st, Q a st -> Q' a st) -> triple P c Q' E.
Proof.
  intros Hc HQ st HP. specialize (Hc st HP). unfold triple in *.
  destruct (snd (c st)); [ now apply HQ | exact Hc ].
Qed.

(** *** Loops *)

(** A loop each of whose steps keeps the invariant, and gives [d] one of
    the values [G] when it is the step at a site of [d]: after the loop
    [d] holds one of the values when the loop had a site. *)
Lemma for_each_sites {A B} (l : list A) (body : A -> B -> M B)
  (site : A -> Prop) :
  (forall X x acc, In x l ->
     triple (copy_invariant tgt d r G X) (body x acc)
       (fun _ st =>
          copy_invariant tgt d r G X st
          /\ (site x -> holds_one_of d r G st))
       any_state) ->
  forall X acc,
    triple (copy_invariant tgt d r G X) (for_each l acc body)
      (fun _ st =>
         copy_invariant tgt d r G X st
         /\ ((exists x, In x l /\ site x) -> holds_one_of d r G st))
      any_state.
Proof.
  induction l as [ | x l IH ]; intros Hbody X acc st HS; unfold triple;
    cbn [for_each].
  - cbn. split; [ exact HS | ]. now intros [x [[] _]].
  - unfold bind.
    pose proof (Hbody X x acc (or_introl eq_refl) st HS) as H1.
    unfold triple in H1.
    destruct (body x acc st) as [st1 [ acc1 | e ]]; cbn [fst snd] in *;
      [ | exact I ].
    destruct H1 as [HS1 Hsite1].
    assert (Hbody' : forall X x' acc, In x' l ->
              triple (copy_invariant tgt d r G X) (body x' acc)
                (fun _ st =>
                   copy_invariant tgt d r G X st
                   /\ (site x' -> holds_one_of d r G st))
                any_state).
    { intros X' x' acc' Hin. apply Hbody. now right. }
    pose proof (IH Hbody' X acc1 st1 HS1) as H2.
    pose proof (fun HQ =>
                  IH Hbody' False acc1 st1
                    (conj (proj1 HS1) (or_intror HQ))) as H3.
    unfold triple in H2, H3.
    destruct (for_each l acc1 body st1) as [st2 [ acc2 | e ]];
      cbn [fst snd] in *; [ | exact I ].
    destruct H2 as [HS2 Hsite2]. split; [ exact HS2 | ].
    intros [x' [[ <- | Hin ] Hs]].
    + destruct (H3 (Hsite1 Hs)) as [[_ [[] | HQ]] _]. exact HQ.
    + apply Hsite2. now exists x'.
Qed.

(** The same for a loop with a [visited] set. *)
Lemma for_unvisited_sites {A} (same : A -> A -> bool) (l : list A)
  (body : A -> M unit) (site : A -> Prop) :
  (forall a b, same a b = true -> a = b) ->
  (forall X x, In x l ->
     triple (copy_invariant tgt d r G X) (body x)
       (fun _ st =>
          copy_invariant tgt d r G X st
          /\ (site x -> holds_one_of d r G st))
       any_state) ->
  forall X visited,
    triple
      (fun st =>
         copy_invariant tgt d r G X st
         /\ ((exists x, In x visited /\ site x) -> holds_one_of d r G st))
      (for_unvisited same l visited body)
      (fun _ st =>
         copy_invariant tgt d r G X st
         /\ ((exists x, (In x visited \/ In x l) /\ site x) ->
             holds_one_of d r G st))
      any_state.
Proof.
  intros Hsame.
  induction l as [ | y l IH ]; intros Hbody X visited st [HS Hv];
    unfold triple; cbn [for_unvisited].
  - cbn. split; [ exact HS | ].
    intros [x [[Hin | []] Hs]]. apply Hv. now exists x.
  - assert (Hbody' : forall X x, In x l ->
              triple (copy_invariant tgt d r G X) (body x)
                (fun _ st =>
                   copy_invariant tgt d r G X st
                   /\ (site x -> holds_one_of d r G st))
                any_state).
    { intros X' x' Hin. apply Hbody. now right. }
    destruct (existsb (same y) visited) eqn:Ev.
    + apply existsb_exists in Ev as [z [Hz Hyz]].
      apply Hsame in Hyz. subst z.
      pose proof (IH Hbody' X visited st (conj HS Hv)) as H.
      unfold triple in H.
      destruct (for_unvisited same l visited body st) as [st' [ [] | e ]];
        cbn [fst snd] in *; [ | exact I ].
      destruct H as [H1 H2]. split; [ exact H1 | ].
      intros [x [[Hin | [ Hy | Hin ]] Hs]]; apply H2; exists x; subst;
        auto.
    + unfold bind.
      pose proof (Hbody X y (or_introl eq_refl) st HS) as H1.
      pose proof (fun HQ =>
                    Hbody False y (or_introl eq_refl) st
                      (conj (proj1 HS) (or_intror HQ))) as H1'.
      unfold triple in H1, H1'.
      destruct (body y st) as [st1 [ [] | e ]]; cbn [fst snd] in *;
        [ | exact I ].
      destruct H1 as [HS1 Hs1].
      assert (Hv1 : (exists x, In x (y :: visited) /\ site x) ->
                    holds_one_of d r G st1).
      { intros [x [[ <- | Hin ] Hs]]; [ now apply Hs1 | ].
        assert (HQ : holds_one_of d r G st) by (apply Hv; now exists x).
        destruct (H1' HQ) as [[_ [[] | HQ1]] _]. exact HQ1. }
      pose proof (IH Hbody' X (y :: visited) st1 (conj HS1 Hv1)) as H.
      unfold triple in H.
      destruct (for_unvisited same l (y :: visited) body st1)
        as [st' [ [] | e ]]; cbn [fst snd] in *; [ | exact I ].
      destruct H as [H1 H2]. split; [ exact H1 | ].
      intros [x [[Hin | [ Hy | Hin ]] Hs]]; apply H2; exists x; subst;
        simpl; auto.
Qed.

End Written.

Section Steps.

Lemma triple_pre {A} (P P' : State -> Prop) (c : M A)
  (Q : A -> State -> Prop) (E : State -> Prop) :
  (forall st, P' st -> P st) -> triple P c Q E -> triple P' c Q E.
Proof. intros HP Hc st H. now apply Hc, HP. Qed.

Lemma triple_raise {A} (P : State -> Prop) (e : exn)
  (Q : A -> State -> Prop) :
  triple P (raise e) Q any_state.
Proof. intros st _. exact I. Qed.

Lemma bind_ret {A B} (P : State -> Prop) (a : A) (k : A -> M B)
  (Q : B -> State -> Prop) (E : State -> Prop) :
  triple P (k a) Q E -> triple P (bind (ret a) k) Q E.
Proof. intros H st HP. exact (H st HP). Qed.

End Steps.

(* ===================================================================== *)
(** ** What [copy_non_time_indexed_values] writes *)
(* ===================================================================== *)

Section UntimedValues.

Variables fs_tgt fs_src : Flowsheet.
Variables tgt other : Model.
Variable d : DataRef.
Variable r : ComponentData.

Hypothesis Hd : find_data tgt d = Some r.

(** The values the record may be given: at least the source values of
    the operation. *)
Variable G : option Z -> Prop.

Hypothesis HG :
  forall v, untimed_source_value fs_tgt fs_src other tgt d v -> G v.

(** The first loop: a variable of the flowsheet. *)
Lemma walk_copy_flowsheet_var (X : Prop) (y : CompRef) :
  In y (component_objects tgt (fs_block fs_tgt) [Var] false false) ->
  triple (copy_invariant tgt d r G X)
    (copy_flowsheet_var fs_tgt fs_src (OtherModel other) true y)
    (fun _ st =>
       copy_invariant tgt d r G X st
       /\ (y = parent_component d
           /\ explicitly_indexed (component_of tgt y) (time fs_tgt) = false ->
           holds_one_of d r G st))
    any_state.
Proof.
  intros Hy. unfold copy_flowsheet_var.
  apply bind_read_result; [ apply structural_explicit | ].
  intros explicit He. rewrite is_explicitly_indexed_by_single in He.
  injection He as <-.
  destruct (explicitly_indexed (component_of tgt y) (time fs_tgt)) eqn:Ee.
  - apply triple_unchanged; [ reflexivity | ]. now intros [_ H].
  - apply bind_read_source.
    destruct (find_component other (fs_block fs_src) ([], local_name y))
      as [ var_src | ] eqn:Ef; [ | apply triple_raise ].
    apply bind_read; [ apply structural_keys_of | ].
    eapply triple_post.
    + apply for_each_sites with (site := fun idx' => mkDataRef y idx' = d).
      intros X' idx' acc Hin. apply triple_copy_to_item; [ exact Hd | | auto ].
      intros v Hv Heq. apply HG. rewrite <- Heq. split; [ exact Ee | ].
      left. exists var_src. cbn [parent_component]. auto.
    + intros a st [HS Hs]. split; [ exact HS | ].
      intros [Hyc _]. apply Hs. exists (index d). rewrite Hyc.
      split; [ exact (key_of_held tgt d r Hd) | apply dataref_eta ].
Qed.

(** The second loop: a variable of a data object of a block. *)
Lemma walk_copy_block_var (X : Prop) (blk_tgt : CompRef) (b_index : pyval)
  (y : CompRef) :
  In blk_tgt
    (component_objects tgt (fs_block fs_tgt) [Block] false true) ->
  is_implicitly_indexed_by tgt blk_tgt (time fs_tgt) StopNone = Ok false ->
  explicitly_indexed (component_of tgt blk_tgt) (time fs_tgt) = false ->
  In b_index (keys_of tgt blk_tgt) ->
  In y (component_objects tgt (block_data blk_tgt b_index) [Var] false
          false) ->
  triple (copy_invariant tgt d r G X)
    (copy_block_var fs_tgt fs_src (OtherModel other) true y)
    (fun _ st =>
       copy_invariant tgt d r G X st
       /\ (y = parent_component d
           /\ explicitly_indexed (component_of tgt y) (time fs_tgt) = false ->
           holds_one_of d r G st))
    any_state.
Proof.
  intros Hblk Himp Hexp Hb Hy. unfold copy_block_var.
  apply bind_read_result; [ apply structural_explicit | ].
  intros explicit He. rewrite is_explicitly_indexed_by_single in He.
  injection He as <-.
  destruct (explicitly_indexed (component_of tgt y) (time fs_tgt)) eqn:Ee.
  - apply triple_unchanged; [ reflexivity | ]. now intros [_ H].
  - apply bind_read_source_result. intros local_parent Hlp.
    apply bind_read_source_result. intros var_src Hsrc.
    apply bind_read; [ apply structural_keys_of | ].
    eapply triple_post.
    + apply for_each_sites with (site := fun idx' => mkDataRef y idx' = d).
      intros X' idx' acc Hin. unfold copy_item.
      apply triple_copy_to_item; [ exact Hd | | auto ].
      intros v Hv Heq. apply HG. rewrite <- Heq. split; [ exact Ee | ].
      right. exists blk_tgt, b_index, local_parent, var_src.
      cbn [parent_component index]. repeat split; assumption.
    + intros a st [HS Hs]. split; [ exact HS | ].
      intros [Hyc _]. apply Hs. exists (index d). rewrite Hyc.
      split; [ exact (key_of_held tgt d r Hd) | apply dataref_eta ].
Qed.

Lemma walk_copy_untimed_block (X : Prop) (y : CompRef) :
  In y (component_objects tgt (fs_block fs_tgt) [Block] false true) ->
  triple (copy_invariant tgt d r G X)
    (copy_untimed_block fs_tgt fs_src (OtherModel other) true y)
    (fun _ st =>
       copy_invariant tgt d r G X st
       /\ (is_implicitly_indexed_by tgt y (time fs_tgt) StopNone = Ok false
           /\ explicitly_indexed (component_of tgt y) (time fs_tgt) = false
           /\ (exists b_index,
                  In b_index (keys_of tgt y)
                  /\ In (parent_component d)
                       (component_objects tgt (block_data y b_index) [Var]
                          false false)
                  /\ explicitly_indexed
                       (component_of tgt (parent_component d))
                       (time fs_tgt) = false) ->
           holds_one_of d r G st))
    any_state.
Proof.
  intros Hy. unfold copy_untimed_block.
  apply bind_read_result; [ apply structural_implicit | ].
  intros implicit Hi. destruct implicit.
  - apply bind_ret. apply triple_unchanged; [ reflexivity | ].
    intros [H _]. congruence.
  - apply bind_read_result; [ apply structural_explicit | ].
    intros timed Ht. rewrite is_explicitly_indexed_by_single in Ht.
    injection Ht as <-.
    destruct (explicitly_indexed (component_of tgt y) (time fs_tgt)) eqn:Ee.
    + apply triple_unchanged; [ reflexivity | ]. now intros [_ [H _]].
    + apply bind_read; [ apply structural_keys_of | ].
      eapply triple_post.
      * apply for_each_sites
          with (site := fun b_index =>
                  In (parent_component d)
                    (component_objects tgt (block_data y b_index) [Var]
                       false false)
                  /\ explicitly_indexed
                       (component_of tgt (parent_component d))
                       (time fs_tgt) = false).
        intros X' b_index acc Hb.
        apply bind_read_result; [ apply structural_getitem | ].
        intros b Hgot. apply getitem_ok in Hgot. subst b.
        cbn [parent_component index].
        apply bind_read; [ apply structural_component_objects | ].
        eapply triple_pre; [ | eapply triple_post ].
        2: { apply for_unvisited_sites
               with (site := fun v =>
                       v = parent_component d
                       /\ explicitly_indexed (component_of tgt v)
                            (time fs_tgt) = false)
                    (visited := @nil CompRef).
             - intros a b. apply compref_eqb_eq.
             - intros X'' v Hv.
               now apply (walk_copy_block_var X'' y b_index v). }
        -- intros st HS. split; [ exact HS | ]. now intros [x [[] _]].
        -- intros a st [HS Hs]. split; [ exact HS | ].
           intros [Hc Hex]. apply Hs. exists (parent_component d).
           split; [ now right | now split ].
      * intros a st [HS Hs]. split; [ exact HS | ].
        intros [_ [_ [b_index [Hb [Hc Hex]]]]]. apply Hs.
        exists b_index. now repeat split.
Qed.

(** The whole operation: a record it has a source value for ends with
    one. *)
Lemma walk_copy_non_time_indexed_values (v0 : option Z) :
  untimed_source_value fs_tgt fs_src other tgt d v0 ->
  triple (fun st => st = mkState tgt [])
    (copy_non_time_indexed_values fs_tgt fs_src (OtherModel other) true)
    (fun _ st => holds_one_of d r G st) any_state.
Proof.
  intros [Hex [[var_src [Hc [Hf Hv]]]
              | [blk [b_index [lp [var_src
                   [Hblk [Himp [Hexp [Hb [Hc [Hlp [Hsrc Hv]]]]]]]]]]]]].
  - apply (triple_pre (copy_invariant tgt d r G True)).
    { intros st ->. split; [ apply values_written_start | now left ]. }
    unfold copy_non_time_indexed_values.
    apply bind_read; [ apply structural_component_objects | ].
    apply (triple_bind _ _ _ (fun _ st => copy_invariant tgt d r G False st)).
    + eapply triple_pre; [ | eapply triple_post ].
      2: { apply for_unvisited_sites
             with (site := fun y =>
                     y = parent_component d
                     /\ explicitly_indexed (component_of tgt y)
                          (time fs_tgt) = false)
                  (visited := @nil CompRef).
           - intros a b. apply compref_eqb_eq.
           - intros X y Hy. now apply walk_copy_flowsheet_var. }
      * intros st HS. split; [ exact HS | ]. now intros [x [[] _]].
      * intros a st [[HI _] Hs]. split; [ exact HI | right ].
        apply Hs. exists (parent_component d).
        split; [ now right | now split ].
    + intros _.
      apply bind_read; [ apply structural_component_objects | ].
      eapply triple_pre; [ | eapply triple_post ].
      2: { apply for_unvisited_sites
             with (site := fun _ : CompRef => False)
                  (visited := @nil CompRef).
           - intros a b. apply compref_eqb_eq.
           - intros X y Hy.
             eapply triple_post; [ now apply walk_copy_untimed_block | ].
             intros a st [HS _]. split; [ exact HS | intros [] ]. }
      * intros st HS. split; [ exact HS | ]. now intros [x [[] _]].
      * intros a st [[_ [[] | HQ]] _]. exact HQ.
  - apply (triple_pre (copy_invariant tgt d r G True)).
    { intros st ->. split; [ apply values_written_start | now left ]. }
    unfold copy_non_time_indexed_values.
    apply bind_read; [ apply structural_component_objects | ].
    apply (triple_bind _ _ _ (fun _ st => copy_invariant tgt d r G True st)).
    + eapply triple_pre; [ | eapply triple_post ].
      2: { apply for_unvisited_sites
             with (site := fun _ : CompRef => False)
                  (visited := @nil CompRef).
           - intros a b. apply compref_eqb_eq.
           - intros X y Hy.
             eapply triple_post; [ now apply walk_copy_flowsheet_var | ].
             intros a st [HS _]. split; [ exact HS | intros [] ]. }
      * intros st HS. split; [ exact HS | ]. now intros [x [[] _]].
      * now intros a st [HS _].
    + intros _.
      apply bind_read; [ apply structural_component_objects | ].
      eapply triple_pre; [ | eapply triple_post ].
      2: { apply for_unvisited_sites
             with (site := fun y =>
                     is_implicitly_indexed_by tgt y (time fs_tgt) StopNone
                     = Ok false
                     /\ explicitly_indexed (component_of tgt y)
                          (time fs_tgt) = false
                     /\ (exists b_index,
                            In b_index (keys_of tgt y)
                            /\ In (parent_component d)
                                 (component_objects tgt
                                    (block_data y b_index) [Var] false
                                    false)
                            /\ explicitly_indexed
                                 (component_of tgt (parent_component d))
                                 (time fs_tgt) = false))
                  (visited := @nil CompRef).
           - intros a b. apply compref_eqb_eq.
           - intros X y Hy. now apply walk_copy_untimed_block. }
      * intros st HS. split; [ exact HS | ]. now intros [x [[] _]].
      * intros a st [_ Hs]. apply Hs. exists blk.
        split; [ now right | ]. split; [ exact Himp | ].
        split; [ exact Hexp | ]. exists b_index. now repeat split.
Qed.

End UntimedValues.

Section UntimedValue.

Variables fs_tgt fs_src : Flowsheet.
Variables tgt other : Model.
Variable d : DataRef.
Variable r : ComponentData.

Hypothesis Hd : find_data tgt d = Some r.

(** The operation has one source value for a record. *)
Lemma untimed_source_value_functional (v v' : option Z) :
  untimed_source_value fs_tgt fs_src other tgt d v ->
  untimed_source_value fs_tgt fs_src other tgt d v' -> v = v'.
Proof.
  intros [_ H] [_ H'].
  assert (Hclash :
            forall blk b_index,
              In (parent_component d)
                (component_objects tgt (fs_block fs_tgt) [Var] false false) ->
              In blk
                (component_objects tgt (fs_block fs_tgt) [Block] false
                   true) ->
              In (parent_component d)
                (component_objects tgt (block_data blk b_index) [Var] false
                   false) ->
              False).
  { intros blk b_index H1 H2 H3.
    apply component_objects_In in H1, H2, H3.
    apply blockref_eqb_eq in H1, H3. apply is_within_length in H2.
    rewrite H1 in H3. unfold block_data in H3.
    rewrite H3 in H2. simpl in H2. lia. }
  destruct H as [[var_src [Hc [Hf Hv]]]
               | [blk [b_index [lp [var_src
                    [Hblk [_ [_ [_ [Hc [Hlp [Hsrc Hv]]]]]]]]]]]];
    destruct H' as [[var_src' [Hc' [Hf' Hv']]]
                  | [blk' [b_index' [lp' [var_src'
                       [Hblk' [_ [_ [_ [Hc' [Hlp' [Hsrc' Hv']]]]]]]]]]]].
  - congruence.
  - destruct (Hclash blk' b_index' Hc Hblk' Hc').
  - destruct (Hclash blk b_index Hc' Hblk Hc).
  - congruence.
Qed.

End UntimedValue.

(** X26.  When [copy_non_time_indexed_values] with [copy_fixed=True],
    reading its source in a model of its own, returns: every record of
    the target it has a source value for holds that value, and has the
    flags it had, whether it was fixed or not. *)
Theorem copy_non_time_indexed_values_overwrites (fs_tgt fs_src : Flowsheet)
  (other tgt : Model) (d : DataRef) (r : ComponentData) (v : option Z)
  (Hd : find_data tgt d = Some r)
  (Hsource : untimed_source_value fs_tgt fs_src other tgt d v)
  (Hreturns :
     outcome (copy_non_time_indexed_values fs_tgt fs_src (OtherModel other)
                true) tgt = Ok tt) :
  overwritten
    (final_model
       (copy_non_time_indexed_values fs_tgt fs_src (OtherModel other) true)
       tgt)
    d r v.
Proof.
  pose proof (walk_copy_non_time_indexed_values fs_tgt fs_src tgt other d r
                Hd (untimed_source_value fs_tgt fs_src other tgt d)
                (fun _ H => H) v Hsource (mkState tgt []) eq_refl) as H.
  unfold triple in H. unfold outcome, final_model, run in *.
  destruct (copy_non_time_indexed_values fs_tgt fs_src (OtherModel other)
              true (mkState tgt [])) as [st [ [] | e ]];
    cbn [fst snd] in *; [ | discriminate ].
  destruct H as [v' [Hsource' Hov]].
  now rewrite (untimed_source_value_functional fs_tgt fs_src tgt other d v v'
                 Hsource Hsource').
Qed.

(** The theorem at work: [y] is fixed in the target and has the value 20
    in the source; after the operation it has the value 20 and is still
    fixed. *)
Lemma copy_non_time_indexed_values_overwrites_witness :
  overwritten
    (final_model
       (copy_non_time_indexed_values Examples.flowsheet Examples.flowsheet
          (OtherModel Examples.source_xy) true)
       Examples.target_fixed_y)
    Examples.y_record (Examples.fixed_record 2) (Some 20%Z).
Proof.
  apply copy_non_time_indexed_values_overwrites.
  - reflexivity.
  - split; [ reflexivity | ]. left.
    exists (mkRef Examples.fs_ref "y").
    split; [ simpl; auto | ]. split; reflexivity.
  - reflexivity.
Defined.

(* ===================================================================== *)
(** ** What [copy_values_at_time] writes *)
(* ===================================================================== *)

Section TimedValues.

Variables fs_tgt fs_src : Flowsheet.
Variables tgt other : Model.
Variables t_target t_source : pyval.
Variable d : DataRef.
Variable r : ComponentData.

Hypothesis Hd : find_data tgt d = Some r.

(** The values the record may be given: at least the source values of
    the operation. *)
Variable G : option Z -> Prop.

Hypothesis HG :
  forall v,
    timed_source_value fs_tgt fs_src other tgt t_target t_source d v -> G v.

(** The first loop: a variable indexed by time. *)
Lemma walk_copy_var_at_time (X : Prop) (y : CompRef) :
  In y (component_objects tgt (fs_block fs_tgt) [Var] false true) ->
  triple (copy_invariant tgt d r G X)
    (copy_var_at_time fs_tgt fs_src (OtherModel other) t_target t_source
       true y)
    (fun _ st =>
       copy_invariant tgt d r G X st
       /\ (y = parent_component d
           /\ explicitly_indexed (component_of tgt y) (time fs_tgt) = true
           /\ (exists var_source,
                  find_component other (fs_block fs_src)
                    (getname y (fs_block fs_tgt)) = Some var_source)
           /\ (exists source_index,
                  copy_indices (component_of tgt y) (time fs_tgt)
                    t_target t_source (index d) source_index) ->
           holds_one_of d r G st))
    any_state.
Proof.
  intros Hy. unfold copy_var_at_time.
  apply bind_read_result; [ apply structural_explicit | ].
  intros explicit He. rewrite is_explicitly_indexed_by_single in He.
  injection He as <-.
  destruct (explicitly_indexed (component_of tgt y) (time fs_tgt)) eqn:Ee;
    cbn [negb].
  2: { apply triple_unchanged; [ reflexivity | ]. now intros [_ [H _]]. }
  apply bind_read; [ apply structural_dimen | ].
  cbv zeta. apply bind_read_source.
  destruct (find_component other (fs_block fs_src)
              (getname y (fs_block fs_tgt))) as [ var_source | ] eqn:Ef.
  2: { apply triple_unchanged; [ reflexivity | ].
       now intros [_ [_ [[var_source H] _]]]. }
  destruct (index_set_dimen (index_set (component_of tgt y)) =? 1) eqn:En.
  - apply Nat.eqb_eq in En. unfold copy_item.
    apply triple_copy_to_item; [ exact Hd | | ].
    + intros v Hv Heq. apply HG. left. exists var_source, t_source.
      rewrite <- Heq. cbn [parent_component index].
      repeat split; try assumption. left. now repeat split.
    + intros [Hyc [_ [_ [si [[_ [Hti _]] | [Hn _]]]]]]; [ | lia ].
      rewrite Hyc, <- Hti. apply dataref_eta.
  - apply Nat.eqb_neq in En.
    destruct (2 <=? index_set_dimen (index_set (component_of tgt y)))
      eqn:E2.
    + apply Nat.leb_le in E2.
      apply bind_read_result; [ apply structural_index_set_except | ].
      intros index_info Hinfo.
      eapply triple_post.
      * apply for_each_sites
          with (site := fun i =>
                  index_getter index_info i [t_target] = Ok (index d)
                  /\ y = parent_component d).
        intros X' i acc Hi.
        apply bind_lift. intros source_index Hs.
        apply bind_lift. intros target_index Ht. unfold copy_item.
        apply triple_copy_to_item; [ exact Hd | | ].
        -- intros v Hv Heq. apply HG. left. exists var_source, source_index.
           rewrite <- Heq. cbn [parent_component index].
           repeat split; try assumption. right.
           split; [ exact E2 | ]. exists index_info, i. now repeat split.
        -- intros [Hti Hyc]. rewrite Hti in Ht. injection Ht as <-.
           rewrite Hyc. apply dataref_eta.
      * intros a st [HS Hsite]. split; [ exact HS | ].
        intros [Hyc [_ [_ [si [[Hn _]
                              | [_ [info [i [Hinfo' [Hi [_ Hti]]]]]]]]]]];
          [ lia | ].
        apply Hsite. exists i. rewrite Hinfo in Hinfo'.
        injection Hinfo' as <-. now repeat split.
    + apply Nat.leb_gt in E2.
      apply triple_unchanged; [ reflexivity | ].
      intros [_ [_ [_ [si [[Hn _] | [Hn _]]]]]]; lia.
Qed.

(** The statements of the second loop for one pair of indices. *)
Lemma walk_copy_block_data (X : Prop) (y blk_source : CompRef)
  (target_index source_index : pyval) :
  In y (component_objects tgt (fs_block fs_tgt) [Block] false true) ->
  explicitly_indexed (component_of tgt y) (time fs_tgt) = true ->
  find_component other (fs_block fs_src) (getname y (fs_block fs_tgt))
  = Some blk_source ->
  copy_indices (component_of tgt y) (time fs_tgt) t_target t_source
    target_index source_index ->
  triple (copy_invariant tgt d r G X)
    (copy_block_data (OtherModel other) true y blk_source target_index
       source_index)
    (fun _ st =>
       copy_invariant tgt d r G X st
       /\ (In d
             (component_data_objects tgt (block_data y target_index) [Var]) ->
           holds_one_of d r G st))
    any_state.
Proof.
  intros Hy Hex Hf Hidx. unfold copy_block_data.
  apply bind_read_result; [ apply structural_getitem | ].
  intros b Hgot. apply getitem_ok in Hgot. subst b.
  cbv zeta. cbn [parent_component index].
  apply bind_read; [ apply structural_component_data_objects | ].
  eapply triple_pre; [ | eapply triple_post ].
  2: { apply for_unvisited_sites
         with (site := fun d' => d' = d) (visited := @nil DataRef).
       - intros a b. apply dataref_eqb_eq.
       - intros X' d' Hd'.
         apply triple_copy_to_data; [ exact Hd | | auto ].
         intros v Hv Heq. apply (HG v). right.
         exists y, blk_source, target_index, source_index.
         rewrite <- Heq. repeat split; assumption. }
  - intros st HS. split; [ exact HS | ]. now intros [x [[] _]].
  - intros a st [HS Hsite]. split; [ exact HS | ].
    intros Hin. apply Hsite. exists d. split; [ now right | reflexivity ].
Qed.

(** The second loop: a block indexed by time. *)
Lemma walk_copy_block_at_time (X : Prop) (y : CompRef) :
  In y (component_objects tgt (fs_block fs_tgt) [Block] false true) ->
  triple (copy_invariant tgt d r G X)
    (copy_block_at_time fs_tgt fs_src (OtherModel other) t_target t_source
       true y)
    (fun _ st =>
       copy_invariant tgt d r G X st
       /\ (explicitly_indexed (component_of tgt y) (time fs_tgt) = true
           /\ (exists blk_source,
                  find_component other (fs_block fs_src)
                    (getname y (fs_block fs_tgt)) = Some blk_source)
           /\ (exists target_index source_index,
                  copy_indices (component_of tgt y) (time fs_tgt)
                    t_target t_source target_index source_index
                  /\ In d
                       (component_data_objects tgt
                          (block_data y target_index) [Var])) ->
           holds_one_of d r G st))
    any_state.
Proof.
  intros Hy. unfold copy_block_at_time.
  apply bind_read_result; [ apply structural_explicit | ].
  intros explicit He. rewrite is_explicitly_indexed_by_single in He.
  injection He as <-.
  destruct (explicitly_indexed (component_of tgt y) (time fs_tgt)) eqn:Ee;
    cbn [negb].
  2: { apply triple_unchanged; [ reflexivity | ]. now intros [H _]. }
  apply bind_read; [ apply structural_dimen | ].
  cbv zeta. apply bind_read_source.
  destruct (find_component other (fs_block fs_src)
              (getname y (fs_block fs_tgt))) as [ blk_source | ] eqn:Ef.
  2: { apply triple_unchanged; [ reflexivity | ].
       now intros [_ [[blk_source H] _]]. }
  destruct (index_set_dimen (index_set (component_of tgt y)) =? 1) eqn:En.
  - apply Nat.eqb_eq in En.
    eapply triple_post.
    + apply (walk_copy_block_data X y blk_source t_target t_source Hy Ee Ef).
      left. now repeat split.
    + intros a st [HS Hsite]. split; [ exact HS | ].
      intros [_ [_ [ti [si [[[_ [Hti _]] | [Hn _]] Hin]]]]]; [ | lia ].
      apply Hsite. now rewrite <- Hti.
  - apply Nat.eqb_neq in En.
    destruct (2 <=? index_set_dimen (index_set (component_of tgt y)))
      eqn:E2.
    + apply Nat.leb_le in E2.
      apply bind_read_result; [ apply structural_index_set_except | ].
      intros index_info Hinfo.
      eapply triple_post.
      * apply for_each_sites
          with (site := fun i =>
                  exists target_index,
                    index_getter index_info i [t_target] = Ok target_index
                    /\ In d
                         (component_data_objects tgt
                            (block_data y target_index) [Var])).
        intros X' i acc Hi.
        apply bind_lift. intros source_index Hs.
        apply bind_lift. intros target_index Ht.
        eapply triple_post.
        -- apply (walk_copy_block_data X' y blk_source target_index
                    source_index Hy Ee Ef).
           right. split; [ exact E2 | ].
           exists index_info, i. now repeat split.
        -- intros a st [HS Hsite]. split; [ exact HS | ].
           intros [ti [Hti Hin]]. apply Hsite.
           rewrite Hti in Ht. now injection Ht as <-.
      * intros a st [HS Hsite]. split; [ exact HS | ].
        intros [_ [_ [ti [si [[[Hn _]
                              | [_ [info [i [Hinfo' [Hi [_ Hti]]]]]]] Hin]]]]];
          [ lia | ].
        apply Hsite. exists i. rewrite Hinfo in Hinfo'.
        injection Hinfo' as <-. split; [ exact Hi | ]. now exists ti.
    + apply Nat.leb_gt in E2.
      apply triple_unchanged; [ reflexivity | ].
      intros [_ [_ [ti [si [[[Hn _] | [Hn _]] _]]]]]; lia.
Qed.

(** The whole operation: a record it has a source value for ends with
    one. *)
Lemma walk_copy_values_at_time (v0 : option Z) :
  timed_source_value fs_tgt fs_src other tgt t_target t_source d v0 ->
  triple (fun st => st = mkState tgt [])
    (copy_values_at_time fs_tgt fs_src (OtherModel other) t_target t_source
       true)
    (fun _ st => holds_one_of d r G st) any_state.
Proof.
  intros [[var_source [si [Hc [Hex [Hf [Hidx Hv]]]]]]
         | [blk [blk_source [ti [si [Hblk [Hex [Hf [Hidx [Hin Hv]]]]]]]]]].
  - apply (triple_pre (copy_invariant tgt d r G True)).
    { intros st ->. split; [ apply values_written_start | now left ]. }
    unfold copy_values_at_time.
    apply bind_read; [ apply structural_component_objects | ].
    apply (triple_bind _ _ _ (fun _ st => copy_invariant tgt d r G False st)).
    + eapply triple_pre; [ | eapply triple_post ].
      2: { apply for_unvisited_sites
             with (site := fun y =>
                     y = parent_component d
                     /\ explicitly_indexed (component_of tgt y)
                          (time fs_tgt) = true
                     /\ (exists var_source,
                            find_component other (fs_block fs_src)
                              (getname y (fs_block fs_tgt))
                            = Some var_source)
                     /\ (exists source_index,
                            copy_indices (component_of tgt y) (time fs_tgt)
                              t_target t_source (index d) source_index))
                  (visited := @nil CompRef).
           - intros a b. apply compref_eqb_eq.
           - intros X y Hy. now apply walk_copy_var_at_time. }
      * intros st HS. split; [ exact HS | ]. now intros [x [[] _]].
      * intros a st [[HI _] Hs]. split; [ exact HI | right ].
        apply Hs. exists (parent_component d).
        split; [ now right | ]. split; [ reflexivity | ].
        split; [ exact Hex | ].
        split; [ now exists var_source | now exists si ].
    + intros _.
      apply bind_read; [ apply structural_component_objects | ].
      eapply triple_pre; [ | eapply triple_post ].
      2: { apply for_unvisited_sites
             with (site := fun _ : CompRef => False)
                  (visited := @nil CompRef).
           - intros a b. apply compref_eqb_eq.
           - intros X y Hy.
             eapply triple_post; [ now apply walk_copy_block_at_time | ].
             intros a st [HS _]. split; [ exact HS | intros [] ]. }
      * intros st HS. split; [ exact HS | ]. now intros [x [[] _]].
      * intros a st [[_ [[] | HQ]] _]. exact HQ.
  - apply (triple_pre (copy_invariant tgt d r G True)).
    { intros st ->. split; [ apply values_written_start | now left ]. }
    unfold copy_values_at_time.
    apply bind_read; [ apply structural_component_objects | ].
    apply (triple_bind _ _ _ (fun _ st => copy_invariant tgt d r G True st)).
    + eapply triple_pre; [ | eapply triple_post ].
      2: { apply for_unvisited_sites
             with (site := fun _ : CompRef => False)
                  (visited := @nil CompRef).
           - intros a b. apply compref_eqb_eq.
           - intros X y Hy.
             eapply triple_post; [ now apply walk_copy_var_at_time | ].
             intros a st [HS _]. split; [ exact HS | intros [] ]. }
      * intros st HS. split; [ exact HS | ]. now intros [x [[] _]].
      * now intros a st [HS _].
    + intros _.
      apply bind_read; [ apply structural_component_objects | ].
      eapply triple_pre; [ | eapply triple_post ].
      2: { apply for_unvisited_sites
             with (site := fun y =>
                     explicitly_indexed (component_of tgt y) (time fs_tgt)
                     = true
                     /\ (exists blk_source,
                            find_component other (fs_block fs_src)
                              (getname y (fs_block fs_tgt))
                            = Some blk_source)
                     /\ (exists target_index source_index,
                            copy_indices (component_of tgt y) (time fs_tgt)
                              t_target t_source target_index source_index
                            /\ In d
                                 (component_data_objects tgt
                                    (block_data y target_index) [Var])))
                  (visited := @nil CompRef).
           - intros a b. apply compref_eqb_eq.
           - intros X y Hy. now apply walk_copy_block_at_time. }
      * intros st HS. split; [ exact HS | ]. now intros [x [[] _]].
      * intros a st [_ Hs]. apply Hs. exists blk.
        split; [ now right | ]. split; [ exact Hex | ].
        split; [ now exists blk_source | ]. now exists ti, si.
Qed.

End TimedValues.

(** X27.  When [copy_values_at_time] with [copy_fixed=True], reading its
    source in a model of its own, returns: every record of the target it
    has a source value for holds a source value (the one written last
    when the operation pairs several source records with the record),
    and has the flags it had, whether it was fixed or not. *)
Theorem copy_values_at_time_overwrites (fs_tgt fs_src : Flowsheet)
  (other tgt : Model) (t_target t_source : pyval) (d : DataRef)
  (r : ComponentData) (v0 : option Z)
  (Hd : find_data tgt d = Some r)
  (Hsource :
     timed_source_value fs_tgt fs_src other tgt t_target t_source d v0)
  (Hreturns :
     outcome (copy_values_at_time fs_tgt fs_src (OtherModel other) t_target
                t_source true) tgt = Ok tt) :
  exists v,
    timed_source_value fs_tgt fs_src other tgt t_target t_source d v
    /\ overwritten
         (final_model
            (copy_values_at_time fs_tgt fs_src (OtherModel other) t_target
               t_source true) tgt)
         d r v.
Proof.
  pose proof (walk_copy_values_at_time fs_tgt fs_src tgt other t_target
                t_source d r Hd
                (timed_source_value fs_tgt fs_src other tgt t_target
                   t_source d)
                (fun _ H => H) v0 Hsource (mkState tgt []) eq_refl) as H.
  unfold triple in H. unfold outcome, final_model, run in *.
  destruct (copy_values_at_time fs_tgt fs_src (OtherModel other) t_target
              t_source true (mkState tgt [])) as [st [ [] | e ]];
    cbn [fst snd] in *; [ exact H | discriminate ].
Qed.

(** The theorem at work: [w] is fixed at time 1 in the target and has
    the value 30 at time 0 in the source; after copying from time 0 to
    time 1 it holds a source value at time 1 and is still fixed. *)
Lemma copy_values_at_time_overwrites_witness :
  exists v,
    timed_source_value Examples.flowsheet Examples.flowsheet
      Examples.source_w Examples.target_fixed_w (PInt 1) (PInt 0)
      Examples.w_record v
    /\ overwritten
         (final_model
            (copy_values_at_time Examples.flowsheet Examples.flowsheet
               (OtherModel Examples.source_w) (PInt 1) (PInt 0) true)
            Examples.target_fixed_w)
         Examples.w_record (Examples.fixed_record 4) v.
Proof.
  apply (copy_values_at_time_overwrites Examples.flowsheet
           Examples.flowsheet Examples.source_w Examples.target_fixed_w
           (PInt 1) (PInt 0) Examples.w_record (Examples.fixed_record 4)
           (Some 30%Z)).
  - reflexivity.
  - left. exists (mkRef Examples.fs_ref "w"), (PInt 0).
    split; [ simpl; auto | ]. split; [ reflexivity | ].
    split; [ reflexivity | ].
    split; [ left; repeat split | reflexivity ].
  - reflexivity.
Defined.

(* ===================================================================== *)
(** ** What [deactivate_model_at] changes *)
(* ===================================================================== *)

Section PointDictionary.

Lemma dict_of_points_empty (pts : list pyval) (e : pyval * list DataRef) :
  In e (dict_of_points pts) -> snd e = [].
Proof.
  induction pts as [ | pt pts IH ]; simpl; [ contradiction | ].
  intros [ <- | He ]; [ reflexivity | ].
  apply filter_In in He. now apply IH.
Qed.

Lemma dict_of_points_lists_nothing (pts : list pyval) (d : DataRef) :
  ~ in_dict (dict_of_points pts) d.
Proof.
  intros [pt [l [He Hd]]]. apply dict_of_points_empty in He.
  simpl in He. now subst l.
Qed.

Lemma dict_of_points_keys (pts : list pyval) :
  keys_ok pts (dict_of_points pts).
Proof.
  unfold keys_ok. induction pts as [ | pt pts IH ]; intros pt' Hin;
    [ contradiction | ].
  cbn [dict_of_points map fst existsb].
  destruct (pyval_eqb pt pt') eqn:E; [ reflexivity | ].
  destruct Hin as [ -> | Hin ]; [ now rewrite pyval_eqb_refl in E | ].
  cbn [orb]. specialize (IH pt' Hin).
  apply existsb_exists in IH as [k [Hk Hkpt]].
  apply pyval_eqb_eq in Hkpt. subst k.
  apply existsb_exists. exists pt'. split; [ | apply pyval_eqb_refl ].
  apply in_map_iff in Hk as [[k l] [Hk He]]. simpl in Hk. subst k.
  apply in_map_iff. exists (pt', l). split; [ reflexivity | ].
  apply filter_In. split; [ exact He | ]. simpl.
  destruct (pyval_eqb pt' pt) eqn:E'; [ | reflexivity ].
  apply pyval_eqb_eq in E'. subst pt'.
  now rewrite pyval_eqb_refl in E.
Qed.

(** Appending under a key the dictionary has. *)
Lemma dict_append_ok (dict : PointDict) (pt : pyval) (d : DataRef) :
  existsb (fun k => pyval_eqb k pt) (map fst dict) = true ->
  exists dict',
    dict_append dict pt d = Ok dict'
    /\ map fst dict' = map fst dict
    /\ forall x, in_dict dict' x <-> in_dict dict x \/ x = d.
Proof.
  induction dict as [ | [k l] dict IH ]; cbn [map fst existsb dict_append];
    [ discriminate | ].
  destruct (pyval_eqb k pt) eqn:E; cbn [orb].
  - intros _. exists ((k, l ++ [d]) :: dict).
    split; [ reflexivity | ]. split; [ reflexivity | ].
    intros x. unfold in_dict. split.
    + intros [p [l' [[[= <- <-] | He] Hx]]].
      * apply in_app_or in Hx as [Hx | [ <- | [] ]]; [ | now right ].
        left. exists k, l. split; [ now left | exact Hx ].
      * left. exists p, l'. split; [ now right | exact Hx ].
    + intros [[p [l' [[[= <- <-] | He] Hx]]] | ->].
      * exists k, (l ++ [d]). split; [ now left | ].
        apply in_or_app. now left.
      * exists p, l'. split; [ now right | exact Hx ].
      * exists k, (l ++ [d]). split; [ now left | ].
        apply in_or_app. right. now left.
  - intros Hkey. destruct (IH Hkey) as [dict' [Happ [Hkeys Hin]]].
    exists ((k, l) :: dict'). rewrite Happ. cbn [rbind map fst].
    split; [ reflexivity | ]. split; [ now rewrite Hkeys | ].
    intros x. unfold in_dict. split.
    + intros [p [l' [[[= <- <-] | He] Hx]]].
      * left. exists k, l. split; [ now left | exact Hx ].
      * assert (Hd : in_dict dict' x) by (exists p, l'; now split).
        apply Hin in Hd as [[p' [l'' [He' Hx']]] | ->]; [ | now right ].
        left. exists p', l''. split; [ now right | exact Hx' ].
    + intros [[p [l' [[[= <- <-] | He] Hx]]] | ->].
      * exists k, l. split; [ now left | exact Hx ].
      * assert (Hd : in_dict dict' x).
        { apply Hin. left. exists p, l'. now split. }
        destruct Hd as [p' [l'' [He' Hx']]].
        exists p', l''. split; [ now right | exact Hx' ].
      * assert (Hd : in_dict dict' d) by (apply Hin; now right).
        destruct Hd as [p' [l'' [He' Hx']]].
        exists p', l''. split; [ now right | exact Hx' ].
Qed.

(** Where a record listed after an append comes from. *)
Lemma dict_append_under (dict dict' : PointDict) (pt : pyval) (d : DataRef) :
  dict_append dict pt d = Ok dict' ->
  forall p l x, In (p, l) dict' -> In x l ->
    (exists l0, In (p, l0) dict /\ In x l0) \/ (p = pt /\ x = d).
Proof.
  revert dict'.
  induction dict as [ | [k l0] dict IH ]; intros dict'; cbn [dict_append];
    [ discriminate | ].
  destruct (pyval_eqb k pt) eqn:E.
  - intros [= <-] p l x [[= <- <-] | He] Hx.
    + apply in_app_or in Hx as [Hx | [ <- | [] ]].
      * left. exists l0. split; [ now left | exact Hx ].
      * right. apply pyval_eqb_eq in E. now split.
    + left. exists l. split; [ now right | exact Hx ].
  - destruct (dict_append dict pt d) as [ rest | e ]; cbn [rbind];
      [ | discriminate ].
    intros [= <-] p l x [[= <- <-] | He] Hx.
    + left. exists l0. split; [ now left | exact Hx ].
    + destruct (IH rest eq_refl p l x He Hx) as [[l1 [H1 H2]] | H];
        [ | now right ].
      left. exists l1. split; [ now right | exact H2 ].
Qed.

End PointDictionary.

Section DeactivateAt.

Variable m0 : Model.
Variable cset : PySet.
Variable pts : list pyval.

(** A relation between the points and the records, which every record
    the operation comes to stands in with its point. *)
Variable good : pyval -> DataRef -> Prop.

Hypothesis Hgood :
  forall comp info non_cset_index pt idx,
    eligible m0 cset comp ->
    get_index_set_except (component_of m0 comp) [cset] = Ok info ->
    In non_cset_index (set_except_members (set_except info)) ->
    In pt pts ->
    index_getter info non_cset_index [pt] = Ok idx ->
    find_data m0 (mkDataRef comp idx) <> None ->
    good pt (mkDataRef comp idx).

Lemma update_deactivate_all (l : list DataRef) (d : DataRef) :
  update_data (fun r => mkData (value r) (fixed r) false) d
    (deactivate_all l m0)
  = deactivate_all (l ++ [d]) m0.
Proof.
  unfold update_data, deactivate_all. rewrite map_records_compose.
  apply map_records_ext. intros d' r. rewrite listed_app.
  change (listed [d] d') with (dataref_eqb d' d || false).
  rewrite orb_false_r.
  destruct (dataref_eqb d' d); [ | now rewrite orb_false_r ].
  rewrite orb_true_r. now destruct (listed l d').
Qed.

Lemma deactivation_invariant_state (dict : PointDict) (st : State) :
  deactivation_invariant m0 cset pts good dict st ->
  deactivation_state m0 cset st.
Proof. intros [_ [[l [Ht [Hl _]]] _]]. now exists l. Qed.

Lemma triple_deactivate_at_index (comp : CompRef) (info : Info)
  (non_cset_index pt : pyval) (dict : PointDict) :
  eligible m0 cset comp ->
  get_index_set_except (component_of m0 comp) [cset] = Ok info ->
  In non_cset_index (set_except_members (set_except info)) ->
  In pt pts ->
  triple (deactivation_invariant m0 cset pts good dict)
    (deactivate_at_index comp info non_cset_index pt dict)
    (deactivation_invariant m0 cset pts good)
    (deactivation_state m0 cset).
Proof.
  intros Hcomp Hinfo Hi Hpt st HInv.
  unfold deactivate_at_index, bind, lift, read.
  destruct (index_getter info non_cset_index [pt]) as [ idx | e ] eqn:Eidx;
    cbn [fst snd]; [ | exact (deactivation_invariant_state _ _ HInv) ].
  destruct (getitem (target st) comp idx) as [ d | e ] eqn:Eg;
    cbn [fst snd].
  - destruct HInv as [Hkeys [[l [Ht [Hl Hdict]]] Hunder]].
    assert (Hd : d = mkDataRef comp idx /\ find_data m0 d <> None).
    { unfold getitem in Eg. rewrite Ht in Eg. unfold deactivate_all in Eg.
      rewrite find_data_map_records in Eg.
      destruct (find_data m0 (mkDataRef comp idx)) eqn:Ef;
        cbn [option_map] in Eg; [ | discriminate ].
      injection Eg as <-. split; [ reflexivity | congruence ]. }
    destruct Hd as [Hd Hheld].
    assert (Hkey : existsb (fun k => pyval_eqb k pt) (map fst dict) = true).
    { rewrite Hkeys. now apply dict_of_points_keys. }
    destruct (dict_append_ok dict pt d Hkey) as [dict' [Happ [Hk' Hin']]].
    unfold deactivate, modify. cbn [fst snd target log].
    rewrite Happ. unfold lift. cbn [fst snd].
    split; [ now rewrite Hk' | ]. split.
    + exists (l ++ [d]). rewrite Ht, update_deactivate_all.
      split; [ reflexivity | ]. split.
      * apply Forall_app. split; [ exact Hl | ].
        constructor; [ | constructor ].
        unfold deactivated_at. rewrite Hd. cbn [parent_component].
        rewrite <- Hd. destruct Hcomp as [Hc [He Himp]].
        now repeat split.
      * intros x. rewrite Hin', <- Hdict. rewrite in_app_iff. simpl.
        intuition congruence.
    + intros p l' x Hin Hx.
      destruct (dict_append_under _ _ _ _ Happ p l' x Hin Hx)
        as [[l0 [H0 Hx0]] | [-> ->]].
      * exact (Hunder p l0 x H0 Hx0).
      * rewrite Hd. apply (Hgood comp info non_cset_index pt idx); auto.
        now rewrite <- Hd.
  - destruct e; cbn [fst snd];
      try exact (deactivation_invariant_state _ _ HInv).
    unfold warning, ret. cbn [fst snd].
    destruct HInv as [Hkeys [[l [Ht [Hl Hdict]]] Hunder]].
    split; [ exact Hkeys | ]. split; [ now exists l | exact Hunder ].
Qed.

Lemma eligible_structural (comp : CompRef) (l : list DataRef) :
  is_explicitly_indexed_by (component_of (deactivate_all l m0) comp) [cset]
  = Ok (explicitly_indexed (component_of m0 comp) cset)
  /\ is_implicitly_indexed_by (deactivate_all l m0) comp cset StopNone
     = is_implicitly_indexed_by m0 comp cset StopNone
  /\ ctype (component_of (deactivate_all l m0) comp)
     = ctype (component_of m0 comp).
Proof.
  unfold deactivate_all. split; [ | split ].
  - rewrite (is_explicitly_indexed_by_index_set _ _ [cset]
               (index_set_component_of _ m0 comp)).
    apply is_explicitly_indexed_by_single.
  - apply implicit_loop_map_records.
  - apply ctype_component_of_map_records.
Qed.

Lemma triple_deactivate_component (comp : CompRef) (dict : PointDict) :
  (ctype (component_of m0 comp) = Block
   \/ ctype (component_of m0 comp) = Constraint) ->
  triple (deactivation_invariant m0 cset pts good dict)
    (deactivate_component cset pts comp dict)
    (deactivation_invariant m0 cset pts good)
    (deactivation_state m0 cset).
Proof.
  intros Hctype. unfold deactivate_component.
  apply (triple_bind _ _ _
           (fun explicit st =>
              deactivation_invariant m0 cset pts good dict st
              /\ explicit = explicitly_indexed (component_of m0 comp) cset)).
  { apply triple_read_result. intros st HInv.
    pose proof HInv as [_ [[l [Ht _]] _]].
    rewrite Ht, (proj1 (eligible_structural comp l)). now split. }
  intros explicit.
  apply (triple_bind _ _ _
           (fun implicit st =>
              deactivation_invariant m0 cset pts good dict st
              /\ explicit = explicitly_indexed (component_of m0 comp) cset
              /\ (explicit = true ->
                  is_implicitly_indexed_by m0 comp cset StopNone
                  = Ok implicit))).
  { destruct explicit.
    - apply triple_read_result. intros st [HInv He].
      pose proof HInv as [_ [[l [Ht _]] _]].
      rewrite Ht, (proj1 (proj2 (eligible_structural comp l))).
      unfold is_implicitly_indexed_by. rewrite implicit_loop_chain.
      split; [ exact HInv | ]. split; [ exact He | ]. reflexivity.
    - apply triple_ret. intros st [HInv He].
      split; [ exact HInv | ]. split; [ exact He | discriminate ]. }
  intros implicit.
  destruct (explicit && negb implicit) eqn:Eb.
  - apply andb_prop in Eb as [-> Hni]. apply negb_true_iff in Hni.
    subst implicit.
    apply (triple_bind _ _ _
             (fun info st =>
                deactivation_invariant m0 cset pts good dict st
                /\ eligible m0 cset comp
                /\ get_index_set_except (component_of m0 comp) [cset]
                   = Ok info)).
    { apply triple_read_result. intros st [HInv [He Hi]].
      pose proof HInv as [_ [[l [Ht _]] _]].
      rewrite Ht. unfold deactivate_all.
      rewrite (get_index_set_except_index_set _ (component_of m0 comp)
                 [cset] (index_set_component_of _ m0 comp)).
      destruct (get_index_set_except _ [cset]);
        [ | exact (deactivation_invariant_state _ _ HInv) ].
      split; [ exact HInv | ]. split; [ | reflexivity ].
      split; [ exact Hctype | ]. split; [ now symmetry | now apply Hi ]. }
    intros info st [HInv [Hcomp Hinfo]]. revert st HInv.
    change (triple (deactivation_invariant m0 cset pts good dict)
              (for_each (set_except_members (set_except info)) dict
                 (fun non_cset_index deactivated =>
                    for_each pts deactivated
                      (fun pt deactivated0 =>
                         deactivate_at_index comp info non_cset_index pt
                           deactivated0)))
              (deactivation_invariant m0 cset pts good)
              (deactivation_state m0 cset)).
    apply triple_for_each. intros non_cset_index acc Hi.
    apply triple_for_each. intros pt acc' Hpt.
    now apply triple_deactivate_at_index.
  - apply triple_ret. now intros st [HInv _].
Qed.

Lemma triple_deactivate_loop (b : BlockRef) (comps visited : list CompRef)
  (dict : PointDict) :
  triple (deactivation_invariant m0 cset pts good dict)
    (deactivate_loop b cset pts comps visited dict)
    (deactivation_invariant m0 cset pts good)
    (deactivation_state m0 cset).
Proof.
  revert visited dict.
  induction comps as [ | comp comps IH ]; intros visited dict;
    cbn [deactivate_loop].
  - now apply triple_ret.
  - apply (triple_bind _ _ _
             (fun yielded st =>
                deactivation_invariant m0 cset pts good dict st
                /\ (yielded = true ->
                    ctype (component_of m0 comp) = Block
                    \/ ctype (component_of m0 comp) = Constraint))).
    { apply triple_read. intros st HInv. split; [ exact HInv | ].
      destruct HInv as [_ [[l [Ht _]] _]]. rewrite Ht.
      unfold yields. rewrite (proj2 (proj2 (eligible_structural comp l))).
      intros Hy. apply andb_prop in Hy as [Hy _].
      apply andb_prop in Hy as [Hy _].
      destruct (ctype (component_of m0 comp)); auto. discriminate. }
    intros yielded. destruct yielded; cbn [negb].
    + destruct (existsb (compref_eqb comp) visited).
      * intros st [HInv _]. now apply IH.
      * apply (triple_bind _ _ _ (deactivation_invariant m0 cset pts good)).
        -- intros st [HInv Hc].
           now apply (triple_deactivate_component comp dict (Hc eq_refl)).
        -- intros dict'. apply IH.
    + intros st [HInv _]. now apply IH.
Qed.

End DeactivateAt.

(** The whole operation, from the model it is given. *)
Lemma triple_deactivate_model_at (m : Model) (cset : PySet) (pts : Points)
  (good : pyval -> DataRef -> Prop) :
  (forall comp info non_cset_index pt idx,
     eligible m cset comp ->
     get_index_set_except (component_of m comp) [cset] = Ok info ->
     In non_cset_index (set_except_members (set_except info)) ->
     In pt (points_list pts) ->
     index_getter info non_cset_index [pt] = Ok idx ->
     find_data m (mkDataRef comp idx) <> None ->
     good pt (mkDataRef comp idx)) ->
  forall b,
    triple (fun st => st = mkState m [])
      (deactivate_model_at b cset pts)
      (deactivation_invariant m cset (points_list pts) good)
      (deactivation_state m cset).
Proof.
  intros Hgood b.
  assert (Hstart : deactivation_invariant m cset (points_list pts) good
                     (dict_of_points (points_list pts)) (mkState m [])).
  { split; [ reflexivity | ]. split.
    - exists []. cbn [target].
      split; [ | split; [ constructor | ] ].
      + unfold deactivate_all. symmetry. now apply map_records_id.
      + intros d. split; [ intros [] | ].
        intros H. now apply dict_of_points_lists_nothing in H.
    - intros pt l d He Hd. apply dict_of_points_empty in He.
      simpl in He. now subst l. }
  unfold deactivate_model_at. intros st ->. unfold bind at 1, lift.
  destruct (check_points cset (points_list pts)); cbn [fst snd].
  - unfold bind at 1, read at 1. cbn [target].
    now apply triple_deactivate_loop.
  - apply (deactivation_invariant_state m cset _ good _ _ Hstart).
Qed.

(** X5.  Whatever its arguments and its outcome, [deactivate_model_at] ends
    on the model it began with, some records deactivated and nothing
    else changed (no value, no fixed flag, no other active flag); every
    deactivated record belongs to a block or constraint that is explicitly
    and not implicitly indexed by the set.  When the operation returns,
    the dictionary it returns has the requested points for keys (each
    once, in the order of their last occurrence first) and its lists hold
    the deactivated records and no others. *)
Theorem deactivate_model_at_effect (b : BlockRef) (cset : PySet)
  (pts : Points) (m : Model) :
  exists l,
    final_model (deactivate_model_at b cset pts) m = deactivate_all l m
    /\ Forall (deactivated_at m cset) l
    /\ forall dict,
         outcome (deactivate_model_at b cset pts) m = Ok dict ->
         map fst dict = map fst (dict_of_points (points_list pts))
         /\ forall d, In d l <-> in_dict dict d.
Proof.
  pose proof (triple_deactivate_model_at m cset pts (fun _ _ => True)
                ltac:(intros; exact I) b (mkState m []) eq_refl)
    as Htriple.
  unfold final_model, outcome, run.
  destruct (deactivate_model_at b cset pts (mkState m []))
    as [st [ dict | e ]]; cbn [fst snd] in *.
  - destruct Htriple as [Hkeys [[l [Ht [Hl Hdict]]] _]].
    exists l. split; [ exact Ht | ]. split; [ exact Hl | ].
    intros dict' [= <-]. now split.
  - destruct Htriple as [l [Ht Hl]].
    exists l. split; [ exact Ht | ]. split; [ exact Hl | discriminate ].
Qed.

(* ===================================================================== *)
(** ** At which points [deactivate_model_at] deactivates *)
(* ===================================================================== *)

Section AtPoints.

Lemma cross_members_length (l : list PySet) (t : list pyval) :
  Forall scalar_members l -> In t (cross_members l) -> length t = length l.
Proof.
  intros Hl. revert t. induction Hl as [ | f l Hf _ IH ]; intros t.
  - simpl. intros [ <- | [] ]. reflexivity.
  - rewrite (in_cross_members_scalar f l t Hf).
    intros [a [t' [_ [Ht' ->]]]]. simpl. now rewrite (IH t' Ht').
Qed.

(** An index of the projection has one coordinate for each of the other
    factors. *)
Lemma projection_member_length (pre post : list PySet) (s : PySet)
  (i : pyval) :
  Forall (fun f => set_is f s = false) (pre ++ post) ->
  pre ++ post <> [] -> Forall scalar_members (pre ++ post) ->
  In i (set_except_members (projection_of (pre ++ post))) ->
  length (as_tuple i) = length (pre ++ post).
Proof.
  intros Honce Ho Hs Hi. apply cross_members_length; [ exact Hs | ].
  rewrite <- (set_except_members_projection pre post s Honce Ho Hs).
  now apply in_map.
Qed.

(** The coordinate of the set in a completed index is the value the
    completer was given. *)
Lemma get_index_of_set_put_in (comp : Component) (pre post : list PySet)
  (s : PySet) (idx v : pyval) :
  index_set comp = SetProduct (pre ++ s :: post) ->
  Forall (fun f => dimen f = 1) (pre ++ s :: post) ->
  Forall (fun f => set_is f s = false) (pre ++ post) ->
  pre ++ post <> [] ->
  length pre <= length (as_tuple idx) ->
  get_index_of_set comp (PTuple (put_in (length pre) v (as_tuple idx))) s
  = Ok v.
Proof.
  intros Hindex Hone Honce Hothers Hidx.
  rewrite get_index_of_set_at_offset.
  - rewrite Hindex. cbn [subsets_of as_tuple].
    rewrite (offset_of_once pre post s Hone Honce).
    unfold list_get. now rewrite nth_error_put_in.
  - unfold explicitly_indexed.
    now rewrite (explicitly_indexed_once comp pre post s Hindex Hone Honce
                   Hothers).
  - exact (dimen_kept pre post s Hone).
  - rewrite Hindex. exact (count_id_once pre post s Honce).
Qed.

(** A component indexed by the set alone: the index is the point. *)
Lemma simple_set_at_point (comp : Component) (s cset : PySet) (info : Info)
  (i pt idx : pyval) :
  index_set comp = SimpleSet s ->
  explicitly_indexed comp cset = true -> dimen cset = 1 ->
  is_tuple pt = false ->
  get_index_set_except comp [cset] = Ok info ->
  index_getter info i [pt] = Ok idx ->
  get_index_of_set comp idx cset = Ok pt.
Proof.
  intros Hindex He Hd Hpt Hinfo Hidx.
  assert (Hs : dimen s = 1 /\ set_is s cset = true).
  { unfold explicitly_indexed, is_explicitly_indexed_by, is_indexed, dim
      in He.
    rewrite Hindex in He.
    cbn [negb length Nat.eqb map list_sum fold_right nth andb
         index_set_dimen] in He.
    rewrite Hd in He.
    destruct (dimen s <? 1 + 0); [ discriminate | ].
    destruct (1 =? dimen s) eqn:E; [ | discriminate ].
    apply Nat.eqb_eq in E. cbn [index_set_is] in He. now split. }
  destruct Hs as [Hds Hsame].
  unfold get_index_set_except in Hinfo.
  rewrite is_explicitly_indexed_by_single, He in Hinfo.
  cbn [rbind negb] in Hinfo. rewrite Hindex in Hinfo.
  unfold dim in Hinfo. rewrite Hindex in Hinfo.
  cbn [rbind index_set_dimen map list_sum fold_right] in Hinfo.
  rewrite Hds, Hd in Hinfo. cbn [Nat.add Nat.eqb] in Hinfo.
  injection Hinfo as <-. cbn [index_getter] in Hidx.
  unfold trivial_index_getter in Hidx. cbn in Hidx. injection Hidx as <-.
  rewrite get_index_of_set_at_offset; [ | exact He | exact Hd | ].
  - rewrite Hindex. unfold offset_of. cbn [subsets_of factors_before].
    rewrite Hsame. destruct pt; try discriminate; reflexivity.
  - rewrite Hindex. unfold count_id. cbn [subsets_of filter].
    now rewrite Hsame.
Qed.

(** Every index the loops of [deactivate_model_at] build for a
    component of this kind carries the point at the coordinate of the
    set. *)
Lemma completed_at_point (comp : Component) (cset : PySet) (info : Info)
  (i pt idx : pyval) :
  scalar_indexed comp cset ->
  explicitly_indexed comp cset = true -> dimen cset = 1 ->
  is_tuple pt = false ->
  get_index_set_except comp [cset] = Ok info ->
  In i (set_except_members (set_except info)) ->
  index_getter info i [pt] = Ok idx ->
  get_index_of_set comp idx cset = Ok pt.
Proof.
  intros [[s Hindex] | [pre [post [Hindex [Hone [Honce [Ho Hs]]]]]]]
    He Hd Hpt Hinfo Hi Hidx.
  - exact (simple_set_at_point comp s cset info i pt idx Hindex He Hd Hpt
             Hinfo Hidx).
  - rewrite (get_index_set_except_once comp pre post cset Hindex Hone Honce
               Ho) in Hinfo.
    injection Hinfo as <-. cbn [set_except index_getter] in Hi, Hidx.
    rewrite (complete_index_once _ _ _ Hpt) in Hidx. injection Hidx as <-.
    apply (get_index_of_set_put_in comp pre post cset i pt Hindex Hone Honce
             Ho).
    rewrite (projection_member_length pre post cset i Honce Ho Hs Hi),
      length_app.
    lia.
Qed.

End AtPoints.

(** X24.  Where the set is 1-dimensional, the requested points are no
    tuples, and every block or constraint [deactivate_model_at] deactivates
    records of is indexed by one set, or by a product of 1-dimensional
    sets with scalar members in which the set occurs once: every record
    the returned dictionary lists under a point carries that point at the
    coordinate of the set, as [get_index_of_set] reads it. *)
Theorem deactivate_model_at_lists_by_point (b : BlockRef) (cset : PySet)
  (pts : Points) (m : Model) (dict : PointDict)
  (Hdimen : dimen cset = 1)
  (Hpts : Forall (fun pt => is_tuple pt = false) (points_list pts))
  (Hmodel : forall c, eligible m cset c ->
                      scalar_indexed (component_of m c) cset)
  (Hreturns : outcome (deactivate_model_at b cset pts) m = Ok dict) :
  forall pt l d,
    In (pt, l) dict -> In d l ->
    get_index_of_set (component_of m (parent_component d)) (index d) cset
    = Ok pt.
Proof.
  assert (Hgood :
            forall comp info non_cset_index pt idx,
              eligible m cset comp ->
              get_index_set_except (component_of m comp) [cset] = Ok info ->
              In non_cset_index (set_except_members (set_except info)) ->
              In pt (points_list pts) ->
              index_getter info non_cset_index [pt] = Ok idx ->
              find_data m (mkDataRef comp idx) <> None ->
              at_point m cset pt (mkDataRef comp idx)).
  { intros comp info i pt idx Hcomp Hinfo Hi Hpt Hidx _.
    unfold at_point. cbn [parent_component index].
    apply (completed_at_point _ cset info i pt idx (Hmodel comp Hcomp));
      auto.
    - now destruct Hcomp as [_ [He _]].
    - rewrite Forall_forall in Hpts. now apply Hpts. }
  pose proof (triple_deactivate_model_at m cset pts (at_point m cset) Hgood
                b (mkState m []) eq_refl) as Htriple.
  unfold outcome, run in Hreturns.
  destruct (deactivate_model_at b cset pts (mkState m []))
    as [st [ dict' | e ]]; cbn [fst snd] in *; [ | discriminate ].
  injection Hreturns as ->.
  destruct Htriple as [_ [_ Hunder]]. exact Hunder.
Qed.

(** The theorem at work on the constraint indexed by [locations * hours],
    deactivated at hours 0 and 2: the record listed first under hour 0
    carries hour 0. *)
Lemma deactivate_model_at_lists_by_point_witness :
  get_index_of_set
    (component_of
       [(Examples.balance_ref,
         Examples.balance true true true true true true)]
       Examples.balance_ref)
    (PTuple [PStr "A"; PInt 0]) Examples.hours
  = Ok (PInt 0).
Proof.
  apply (deactivate_model_at_lists_by_point [] Examples.hours
           (PointList [PInt 0; PInt 2])
           [(Examples.balance_ref,
             Examples.balance true true true true true true)]
           [(PInt 0,
             [mkDataRef Examples.balance_ref (PTuple [PStr "A"; PInt 0]);
              mkDataRef Examples.balance_ref (PTuple [PStr "B"; PInt 0])]);
            (PInt 2,
             [mkDataRef Examples.balance_ref (PTuple [PStr "A"; PInt 2]);
              mkDataRef Examples.balance_ref (PTuple [PStr "B"; PInt 2])])])
    with (pt := PInt 0)
         (l := [mkDataRef Examples.balance_ref (PTuple [PStr "A"; PInt 0]);
                mkDataRef Examples.balance_ref (PTuple [PStr "B"; PInt 0])])
         (d := mkDataRef Examples.balance_ref (PTuple [PStr "A"; PInt 0])).
  - reflexivity.
  - repeat constructor.
  - intros c [_ [He _]]. unfold component_of, find_comp in *. simpl in *.
    destruct (compref_eqb Examples.balance_ref c); [ | discriminate ].
    right. exists [Examples.locations], [].
    split; [ reflexivity | ].
    split; [ repeat constructor | ].
    split; [ repeat constructor | ].
    split; [ discriminate | repeat constructor ].
  - reflexivity.
  - simpl. auto.
  - simpl. auto.
Defined.

(* ===================================================================== *)
(** ** What [get_derivatives_at] lists *)
(* ===================================================================== *)

Section DerivativesAt.

Variable m : Model.
Variable derivative_of : Derivatives.
Variable time : PySet.
Variable pts : list pyval.

Lemma for_each_result_invariant {A B} (l : list A)
  (body : A -> B -> result B) (Inv : B -> Prop) :
  (forall x acc acc', In x l -> Inv acc -> body x acc = Ok acc' ->
     Inv acc') ->
  forall acc acc', Inv acc -> for_each_result l acc body = Ok acc' ->
    Inv acc'.
Proof.
  induction l as [ | x l IH ]; intros Hbody acc acc' Hacc;
    cbn [for_each_result].
  - now intros [= <-].
  - destruct (body x acc) as [ acc1 | e ] eqn:Eb; cbn [rbind];
      [ | discriminate ].
    apply IH.
    + intros y a a' Hy. apply Hbody. now right.
    + apply (Hbody x acc acc1); [ now left | exact Hacc | exact Eb ].
Qed.

Lemma get_index_set_except_explicit (comp : Component) (info : Info) :
  get_index_set_except comp [time] = Ok info ->
  explicitly_indexed comp time = true.
Proof.
  unfold get_index_set_except.
  rewrite is_explicitly_indexed_by_single. cbn [rbind].
  destruct (explicitly_indexed comp time); [ reflexivity | discriminate ].
Qed.

Lemma derivative_at_sound (var : CompRef) (info : Info)
  (pt non_time_index : pyval) (dvdict dvdict' : PointDict)
  (continuousset_list : list PySet) :
  derivative_of var = Some continuousset_list ->
  in_component_set time continuousset_list = true ->
  explicitly_indexed (component_of m var) time = true ->
  In pt pts ->
  derivatives_only m derivative_of time pts dvdict ->
  derivative_at m var info pt non_time_index dvdict = Ok dvdict' ->
  derivatives_only m derivative_of time pts dvdict'.
Proof.
  intros Hder Hin He Hpt [Hkeys Hsound]. unfold derivative_at.
  destruct (index_getter info non_time_index [pt]) as [ idx | e ];
    cbn [rbind]; [ | discriminate ].
  unfold getitem.
  destruct (find_data m (mkDataRef var idx)) eqn:Ef; cbn [rbind];
    [ | discriminate ].
  assert (Hkey : existsb (fun k => pyval_eqb k pt) (map fst dvdict) = true).
  { rewrite Hkeys. now apply dict_of_points_keys. }
  destruct (dict_append_ok dvdict pt (mkDataRef var idx) Hkey)
    as [dict1 [Happ [Hk1 Hin1]]].
  rewrite Happ. intros [= <-]. split; [ now rewrite Hk1 | ].
  intros d Hd. apply Hin1 in Hd as [Hd | ->]; [ now apply Hsound | ].
  split; [ congruence | ]. cbn [parent_component].
  split; [ now exists continuousset_list | exact He ].
Qed.

Lemma derivatives_loop_sound (vars visited : list CompRef)
  (dvdict dvdict' : PointDict) :
  derivatives_only m derivative_of time pts dvdict ->
  derivatives_loop m derivative_of time pts vars visited dvdict
    = Ok dvdict' ->
  derivatives_only m derivative_of time pts dvdict'.
Proof.
  revert visited dvdict.
  induction vars as [ | var vars IH ]; intros visited dvdict Hsound;
    cbn [derivatives_loop].
  - now intros [= <-].
  - destruct (existsb (compref_eqb var) visited); [ now apply IH | ].
    destruct (derivative_of var) as [ continuousset_list | ] eqn:Hder;
      [ | now apply IH ].
    destruct (in_component_set time continuousset_list) eqn:Hin;
      cbn [negb]; [ | now apply IH ].
    destruct (get_index_set_except (component_of m var) [time])
      as [ info | e ] eqn:Einfo; cbn [rbind]; [ | discriminate ].
    pose proof (get_index_set_except_explicit _ _ Einfo) as He.
    destruct (for_each_result pts dvdict _) as [ dict1 | e ] eqn:Eloop;
      cbn [rbind]; [ | discriminate ].
    apply IH.
    revert Eloop.
    apply (for_each_result_invariant pts _
             (derivatives_only m derivative_of time pts)); [ | exact Hsound ].
    intros pt acc acc' Hpt Hacc.
    apply (for_each_result_invariant _ _
             (derivatives_only m derivative_of time pts)); [ | exact Hacc ].
    intros i a a' _ Ha.
    now apply (derivative_at_sound var info pt i a a' continuousset_list).
Qed.

End DerivativesAt.

(** X21.  The dictionary [get_derivatives_at] returns has the requested points
    for keys, and every data object in its lists is a record of the model
    that belongs to a [DerivativeVar] whose continuous sets include the
    time set and which is explicitly indexed by it: no other variable is
    listed. *)
Theorem get_derivatives_at_lists_derivatives (m : Model)
  (derivative_of : Derivatives) (b : BlockRef) (time : PySet)
  (pts : Points) (dvdict : PointDict)
  (Hreturns : get_derivatives_at m derivative_of b time pts = Ok dvdict) :
  map fst dvdict = map fst (dict_of_points (points_list pts))
  /\ forall pt l d, In (pt, l) dvdict -> In d l ->
       derivative_wrt m derivative_of time d.
Proof.
  unfold get_derivatives_at in Hreturns.
  apply derivatives_loop_sound in Hreturns.
  - destruct Hreturns as [Hkeys Hsound]. split; [ exact Hkeys | ].
    intros pt l d Hl Hd. apply Hsound. now exists pt, l.
  - split; [ reflexivity | ].
    intros d Hd. now apply dict_of_points_lists_nothing in Hd.
Qed.

(* ===================================================================== *)
(** ** The operations at work on the example flowsheet *)
(* ===================================================================== *)

Section Plant.

Import Examples.
Import PlantExample.

(** Of the three constraints only [c0] is deactivated: [ct] is indexed
    by time and [cu] stands in a block that is. *)
Example deactivate_constraints_unindexed_by_plant :
  outcome (deactivate_constraints_unindexed_by [] time_set) plant
    = Ok [c0_record]
  /\ final_model (deactivate_constraints_unindexed_by [] time_set) plant
     = deactivate_all [c0_record] plant.
Proof. split; reflexivity. Qed.

(** Of the three variables only [p] is fixed: [q] has no value and
    [dxdt] is indexed by time. *)
Example fix_vars_unindexed_by_plant :
  outcome (fix_vars_unindexed_by [] time_set) plant = Ok [p_record]
  /\ final_model (fix_vars_unindexed_by [] time_set) plant
     = fix_all [p_record] plant.
Proof. split; reflexivity. Qed.

(** The snapshot of the fixed flags of the flowsheet. *)
Example get_fixed_dict_plant :
  get_fixed_dict plant fs_ref =
    [(p_record, false);
     (mkDataRef (mkRef fs_ref "q") PNone, false);
     (dxdt_at 0, false); (dxdt_at 1, false)].
Proof. reflexivity. Qed.

(** The derivative at time 1; a point outside the time set is not
    rejected beforehand as [deactivate_model_at] rejects it, the lookup
    of the record raises. *)
Example get_derivatives_at_plant :
  get_derivatives_at plant plant_derivatives [] time_set (OnePoint (PInt 1))
    = Ok [(PInt 1, [dxdt_at 1])]
  /\ get_derivatives_at plant plant_derivatives [] time_set
       (OnePoint (PInt 9)) = Raise KeyError
  /\ outcome (deactivate_model_at [] time_set (OnePoint (PInt 9))) plant
     = Raise ValueError.
Proof. repeat split. Qed.

(** The theorem at work on the flowsheet. *)
Lemma get_derivatives_at_lists_derivatives_witness :
  map fst [(PInt 1, [dxdt_at 1])]
    = map fst (dict_of_points (points_list (OnePoint (PInt 1))))
  /\ forall pt l d, In (pt, l) [(PInt 1, [dxdt_at 1])] -> In d l ->
       derivative_wrt plant plant_derivatives time_set d.
Proof.
  apply (get_derivatives_at_lists_derivatives plant plant_derivatives []
           time_set (OnePoint (PInt 1))).
  reflexivity.
Defined.

(** Looked for at time 1 from the flowsheet, the constraint record
    [ct[0]] leads to [ct[1]]; the scalar constraint [c0] leads to
    itself. *)
Example find_comp_in_block_at_time_plant :
  find_comp_in_block_at_time plant (mkModels 0 0 0 0) fs_ref fs_ref
    (EData (mkDataRef (mkRef fs_ref "ct") (PInt 0))) time_set (PInt 1) false
  = Ok (Some (EData (mkDataRef (mkRef fs_ref "ct") (PInt 1))))
  /\ find_comp_in_block_at_time plant (mkModels 0 0 0 0) fs_ref fs_ref
       (EData c0_record) time_set (PInt 1) false
     = Ok (Some (EData c0_record)).
Proof. split; reflexivity. Qed.

End Plant.

(* ===================================================================== *)
(** ** The names of the inlets of a mixer *)
(* ===================================================================== *)

Section InletNames.

Lemma str_injective (a b : nat) : str a = str b -> a = b.
Proof.
  unfold str. intros H.
  apply (f_equal DecimalString.NilEmpty.uint_of_string) in H.
  rewrite !DecimalString.NilEmpty.usu in H. injection H as H.
  apply (f_equal Nat.of_uint) in H.
  now rewrite !DecimalNat.Unsigned.of_to in H.
Qed.

Lemma NoDup_map_injective {A B} (f : A -> B) (l : list A) :
  (forall a b, f a = f b -> a = b) -> NoDup l -> NoDup (map f l).
Proof.
  intros Hf. induction 1 as [ | x l Hx _ IH ]; simpl; constructor;
    [ | exact IH ].
  intros Hin. apply in_map_iff in Hin as [y [Hy Hin]].
  apply Hf in Hy. now subst.
Qed.

Lemma inlet_names_distinct (n : Z) : NoDup (inlet_names n).
Proof.
  unfold inlet_names. apply NoDup_map_injective; [ | apply seq_NoDup ].
  intros a b H. simpl in H. injection H as H. now apply str_injective.
Qed.

Lemma inlet_names_length (n : Z) :
  Z.of_nat (length (inlet_names n)) = Z.max 0 n.
Proof.
  unfold inlet_names. rewrite length_map, length_seq. lia.
Qed.

(** X23.  [create_inlet_list] raises exactly when both arguments are provided
    and the list has not the given number of names.  Otherwise it
    returns the provided list as it is when there is one; without a list
    it returns as many names as the number of inlets asks for (none for a
    number below 1), no two of them the same, and for neither argument
    provided it returns [inlet_1] and [inlet_2] and records the number 2 in
    the configuration. *)
Theorem create_inlet_list_spec (config : MixerConfig) :
  (snd (create_inlet_list config) = inl ConfigurationError <->
   exists l n, inlet_list config = Some l /\ num_inlets config = Some n
               /\ Z.of_nat (length l) <> n)
  /\ (forall l names,
        inlet_list config = Some l ->
        snd (create_inlet_list config) = inr names -> names = l)
  /\ (forall names,
        inlet_list config = None ->
        snd (create_inlet_list config) = inr names ->
        NoDup names
        /\ Z.of_nat (length names) =
             Z.max 0 (match num_inlets config with
                      | Some n => n
                      | None => 2
                      end))
  /\ (inlet_list config = None -> num_inlets config = None ->
      create_inlet_list config =
        (mkMixerConfig None (Some 2%Z), inr ["inlet_1"; "inlet_2"])).
Proof.
  unfold create_inlet_list.
  destruct (inlet_list config) as [ l | ], (num_inlets config) as [ n | ];
    cbn [fst snd].
  - destruct (Z.of_nat (length l) =? n)%Z eqn:E; cbn [negb snd].
    + apply Z.eqb_eq in E. repeat split; try discriminate.
      * intros [l' [n' [[= <-] [[= <-] Hne]]]]. contradiction.
      * intros l' names [= <-] [= <-]. reflexivity.
    + apply Z.eqb_neq in E. repeat split; try discriminate.
      * intros _. now exists l, n.
  - split; [ | split; [ | split ] ]; try discriminate.
    + split; [ discriminate | ].
      intros [l' [n' [_ [H _]]]]. discriminate.
    + intros l' names [= <-] [= <-]. reflexivity.
  - split; [ | split; [ | split ] ]; try discriminate.
    + split; [ discriminate | ].
      intros [l' [n' [H _]]]. discriminate.
    + intros names _ [= <-].
      split; [ apply inlet_names_distinct | apply inlet_names_length ].
  - split; [ | split; [ | split ] ]; try discriminate.
    + split; [ discriminate | ].
      intros [l' [n' [H _]]]. discriminate.
    + intros names _ [= <-].
      split; [ apply inlet_names_distinct | apply inlet_names_length ].
    + reflexivity.
Qed.

End InletNames.
